(** * netemlite: the network actor and the UDP conn layer

    A shallow embedding of [network.go] (the [Network] actor that owns the
    map of bound addresses and pairs blocked reads with blocked writes) and
    of the UDP conn file (the [UDPConn] handle that turns reads and writes
    into requests for the actor and races them against deadlines and
    closures), followed by the properties of the specification.

    Conventions of the embedding:
    - a Go pointer to a request is a [ptr]; the requests live in a [Memory]
      and the queues of the actor hold pointers, so that a request parked in
      a queue and the request its issuer waits on are the same object;
    - a channel that is only ever closed ([ack], [closed]) is a [bool]:
      [true] once closed; closing it twice panics, as in Go;
    - a panic (nil or dangling pointer, double close) is [None];
    - a [select] is the list of the results of its ready cases: Go picks one
      of the ready cases at random, and blocks when the list is empty. *)

From Stdlib Require Import ZArith.
From stdpp Require Import gmap list option.

Local Open Scope Z_scope.

(** ** Addresses: [netip.AddrPort] *)

Module netip.

(** [netip.Addr]: the zero value is the invalid address. *)
Inductive Addr := Zero | IPv4 (bits : N) | IPv6 (bits : N).

Record AddrPort := mkAddrPort { ip : Addr; port : N }.

(** The zero value [netip.AddrPort{}]. *)
Definition zero : AddrPort := mkAddrPort Zero 0%N.

(** [AddrPort.IsValid] reports whether the IP is not the zero [Addr]. *)
Definition IsValid (p : AddrPort) : bool :=
  match ip p with Zero => false | _ => true end.

#[global] Instance Addr_eq_dec : EqDecision Addr.
Proof. solve_decision. Defined.

#[global] Instance AddrPort_eq_dec : EqDecision AddrPort.
Proof. solve_decision. Defined.

Definition Addr_to_sum (a : Addr) : unit + (N + N) :=
  match a with Zero => inl tt | IPv4 b => inr (inl b) | IPv6 b => inr (inr b) end.

Definition Addr_of_sum (s : unit + (N + N)) : Addr :=
  match s with inl _ => Zero | inr (inl b) => IPv4 b | inr (inr b) => IPv6 b end.

#[global] Instance Addr_countable : Countable Addr.
Proof. by apply (inj_countable' Addr_to_sum Addr_of_sum); intros []. Defined.

#[global] Instance AddrPort_countable : Countable AddrPort.
Proof.
  by apply (inj_countable' (λ p, (ip p, port p)) (λ q, mkAddrPort q.1 q.2));
    intros [].
Defined.

End netip.

Abbreviation AddrPort := netip.AddrPort.

(** ** Errors *)

(** [syscall.Errno] is a number; the constants are those of linux. *)
Module syscall.
Definition Errno := N.
Definition EBADF : Errno := 9%N.
Definition EINVAL : Errno := 22%N.
Definition EADDRINUSE : Errno := 98%N.
Definition EADDRNOTAVAIL : Errno := 99%N.
Definition EISCONN : Errno := 106%N.
Definition ENOTCONN : Errno := 107%N.
End syscall.

(** The values of Go's [error] that the package returns; [nil] is [None]
    of [option error]. *)
Inductive error :=
| Errno (e : syscall.Errno)        (* a syscall.Errno *)
| ErrClosed                        (* net.ErrClosed *)
| ErrDeadlineExceeded.             (* os.ErrDeadlineExceeded *)

#[global] Instance error_eq_dec : EqDecision error.
Proof. solve_decision. Defined.

(** ** Byte slices *)

Abbreviation bytes := (list Byte.byte).

(** Go's builtin [copy(dst, src)]: copies [min(len(dst), len(src))] bytes
    to the front of [dst] and returns that number; the rest of [dst] is
    untouched.  The result is the new contents of [dst] and the count. *)
Definition copy (dst src : bytes) : bytes * Z :=
  let n := Nat.min (length dst) (length src) in
  (take n src ++ drop n dst, Z.of_nat n).

(** Go's builtin [close(ch)] on a channel that is only closed, never sent
    on: panics when the channel is already closed. *)
Definition close (ch : bool) : option bool :=
  if ch then None else Some true.

(** ** Requests *)

Definition ptr := nat.

(** [networkNewConnUDP] is a request to track a UDP conn. *)
Module networkNewConnUDP.
Record t := mk { ack : bool; err : option error; localAddr : AddrPort }.
End networkNewConnUDP.

(** [networkDeleteConnUDP] is a request to delete a UDP conn. *)
Module networkDeleteConnUDP.
Record t := mk { ack : bool; err : option error; localAddr : AddrPort }.
End networkDeleteConnUDP.

(** [networkWriteUDP] is a request to write a datagram. *)
Module networkWriteUDP.
Record t := mk {
  ack : bool;
  destAddr : AddrPort;
  err : option error;
  payload : bytes;
  sourceAddr : AddrPort;
}.
Definition set_ack (a : bool) (w : t) : t :=
  mk a (destAddr w) (err w) (payload w) (sourceAddr w).
End networkWriteUDP.

(** [networkReadUDP] is a request to read a datagram.  [buffer] is the
    contents of the slice of the caller as this request has them; requests
    that are made with the same slice are not linked, so that the bytes
    of a request are those of the slice as long as no other call uses
    it. *)
Module networkReadUDP.
Record t := mk {
  ack : bool;
  buffer : bytes;
  count : Z;
  err : option error;
  localAddr : AddrPort;
  senderAddr : AddrPort;
}.
Definition set_ack (a : bool) (r : t) : t :=
  mk a (buffer r) (count r) (err r) (localAddr r) (senderAddr r).
Definition set_err (e : option error) (r : t) : t :=
  mk (ack r) (buffer r) (count r) e (localAddr r) (senderAddr r).
Definition set_senderAddr (a : AddrPort) (r : t) : t :=
  mk (ack r) (buffer r) (count r) (err r) (localAddr r) a.
Definition set_buffer_count (b : bytes) (c : Z) (r : t) : t :=
  mk (ack r) b c (err r) (localAddr r) (senderAddr r).
End networkReadUDP.

(** The memory that holds the read and the write requests.  The issuer of
    a request allocates it, the actor mutates it through the pointer. *)
Record Memory := mkMemory {
  reads : gmap ptr networkReadUDP.t;
  writes : gmap ptr networkWriteUDP.t;
}.

Definition set_read (p : ptr) (r : networkReadUDP.t) (m : Memory) : Memory :=
  mkMemory (<[p := r]> (reads m)) (writes m).

Definition set_write (p : ptr) (w : networkWriteUDP.t) (m : Memory) : Memory :=
  mkMemory (reads m) (<[p := w]> (writes m)).

(** ** The network actor *)

(** [networkConnStateUDP] contains the state of an UDP connection. *)
Module networkConnStateUDP.
Record t := mk {
  blockedReads : list ptr;
  blockedWrites : list ptr;
}.
End networkConnStateUDP.

Module Network.

Import networkConnStateUDP.

(** [Network]: [closed] is the channel closed by [Close], [once] is the
    [sync.Once] (true once it has run), [udp] the map of the open conns.
    The request channels are the arguments of the handlers below. *)
Record t := mk {
  closed : bool;
  once : bool;
  udp : gmap AddrPort networkConnStateUDP.t;
}.

Definition set_udp (u : gmap AddrPort networkConnStateUDP.t) (n : t) : t :=
  mk (closed n) (once n) u.

(** [NewNetwork]: the channels are open and the map is empty. *)
Definition NewNetwork : t := mk false false ∅.

(** [Close]: the body runs under [once.Do]. *)
Definition Close (n : t) : option (t * option error) :=
  if once n then Some (n, None)
  else
    c ← close (closed n);
    Some (mk c true (udp n), None).

(** [onNewConnUDP]; the deferred [close(req.ack)] runs on both paths. *)
Definition onNewConnUDP (n : t) (req : networkNewConnUDP.t)
  : option (t * networkNewConnUDP.t) :=
  match udp n !! networkNewConnUDP.localAddr req with
  | Some _ =>
      a ← close (networkNewConnUDP.ack req);
      Some (n, networkNewConnUDP.mk a
                 (Some (Errno syscall.EADDRNOTAVAIL))
                 (networkNewConnUDP.localAddr req))
  | None =>
      let n' := set_udp (<[networkNewConnUDP.localAddr req :=
                            networkConnStateUDP.mk [] []]> (udp n)) n in
      a ← close (networkNewConnUDP.ack req);
      Some (n', networkNewConnUDP.mk a
                  (networkNewConnUDP.err req)
                  (networkNewConnUDP.localAddr req))
  end.

(** [finishReadWrite] finishes a read and a write. *)
Definition finishReadWrite (m : Memory) (read write : ptr) : option Memory :=
  r ← reads m !! read;
  w ← writes m !! write;
  (* read.count = copy(read.buffer, write.payload) *)
  let '(buf, cnt) := copy (networkReadUDP.buffer r) (networkWriteUDP.payload w) in
  let r := networkReadUDP.set_buffer_count buf cnt r in
  (* close(write.ack) *)
  wa ← close (networkWriteUDP.ack w);
  let w := networkWriteUDP.set_ack wa w in
  (* read.senderAddr = write.sourceAddr *)
  let r := networkReadUDP.set_senderAddr (networkWriteUDP.sourceAddr w) r in
  (* close(read.ack) *)
  ra ← close (networkReadUDP.ack r);
  let r := networkReadUDP.set_ack ra r in
  Some (set_read read r (set_write write w m)).

(** [onReadUDP]; [len(source.blockedWrites) <= 0] is the empty queue. *)
Definition onReadUDP (n : t) (m : Memory) (read : ptr) : option (t * Memory) :=
  r ← reads m !! read;
  match udp n !! networkReadUDP.localAddr r with
  | None =>
      let r := networkReadUDP.set_err (Some (Errno syscall.EBADF)) r in
      ra ← close (networkReadUDP.ack r);
      Some (n, set_read read (networkReadUDP.set_ack ra r) m)
  | Some source =>
      match blockedWrites source with
      | [] =>
          let source := networkConnStateUDP.mk
                          (blockedReads source ++ [read]) (blockedWrites source) in
          Some (set_udp (<[networkReadUDP.localAddr r := source]> (udp n)) n, m)
      | write :: rest =>
          let source := networkConnStateUDP.mk (blockedReads source) rest in
          let n := set_udp (<[networkReadUDP.localAddr r := source]> (udp n)) n in
          m ← finishReadWrite m read write;
          Some (n, m)
      end
  end.

(** [onWriteUDP]; [len(dest.blockedReads) <= 0] is the empty queue. *)
Definition onWriteUDP (n : t) (m : Memory) (write : ptr) : option (t * Memory) :=
  w ← writes m !! write;
  match udp n !! networkWriteUDP.destAddr w with
  | None =>
      wa ← close (networkWriteUDP.ack w);
      Some (n, set_write write (networkWriteUDP.set_ack wa w) m)
  | Some dest =>
      match blockedReads dest with
      | [] =>
          let dest := networkConnStateUDP.mk
                        (blockedReads dest) (blockedWrites dest ++ [write]) in
          Some (set_udp (<[networkWriteUDP.destAddr w := dest]> (udp n)) n, m)
      | read :: rest =>
          let dest := networkConnStateUDP.mk rest (blockedWrites dest) in
          let n := set_udp (<[networkWriteUDP.destAddr w := dest]> (udp n)) n in
          m ← finishReadWrite m read write;
          Some (n, m)
      end
  end.

(** [onDeleteConnUDP]; the deferred [close(req.ack)] runs on both paths. *)
Definition onDeleteConnUDP (n : t) (req : networkDeleteConnUDP.t)
  : option (t * networkDeleteConnUDP.t) :=
  match udp n !! networkDeleteConnUDP.localAddr req with
  | None =>
      a ← close (networkDeleteConnUDP.ack req);
      Some (n, networkDeleteConnUDP.mk a
                 (Some (Errno syscall.EBADF))
                 (networkDeleteConnUDP.localAddr req))
  | Some _ =>
      let n' := set_udp (delete (networkDeleteConnUDP.localAddr req) (udp n)) n in
      a ← close (networkDeleteConnUDP.ack req);
      Some (n', networkDeleteConnUDP.mk a
                  (networkDeleteConnUDP.err req)
                  (networkDeleteConnUDP.localAddr req))
  end.

End Network.

(** *** The main loop

    [loop] receives from four channels; a [message] is a value received
    from one of them.  The replies to a bind and to an unbind are written
    into the request, which the handlers return. *)
Inductive message :=
| newConnUDP (req : networkNewConnUDP.t)
| readUDP (req : ptr)
| writeUDP (req : ptr)
| deleteConnUDP (req : networkDeleteConnUDP.t).

(** One iteration of the [select] of [loop] that received [msg]. *)
Definition loop_case (n : Network.t) (m : Memory) (msg : message)
  : option (Network.t * Memory) :=
  match msg with
  | newConnUDP req => '(n, _) ← Network.onNewConnUDP n req; Some (n, m)
  | readUDP req => Network.onReadUDP n m req
  | writeUDP req => Network.onWriteUDP n m req
  | deleteConnUDP req => '(n, _) ← Network.onDeleteConnUDP n req; Some (n, m)
  end.

(** [loop] over the messages that arrive, in their order of arrival.  Once
    [closed] is closed the loop returns: its [select] then always has the
    [closed] case ready, so it never again parks as a receiver, and a
    request issued afterwards finds nobody to hand it to. *)
Fixpoint loop (n : Network.t) (m : Memory) (msgs : list message)
  : option (Network.t * Memory) :=
  if Network.closed n then Some (n, m)
  else
    match msgs with
    | [] => Some (n, m)
    | msg :: msgs => '(n, m) ← loop_case n m msg; loop n m msgs
    end.

(** ** Deadlines *)

Module time.
(** [time.Time] as an absolute instant; [None] is the zero [Time], which
    the [net.Conn] deadlines read as: no deadline. *)
Definition Time := option Z.
End time.

(** The deadline timer [pipeDeadline] (built by [makePipeDeadline], with
    the methods [set] and [wait]) is not among the sources; the module
    below follows what the specification says of it.  There it is a
    resettable single-fire wake-up source keyed by an absolute time: a
    timer set to a point in the past is already expired, the never value
    disables the timeout, and a reset affects the waits that are
    outstanding. *)
Module pipeDeadline.

(** Modelled from the spec: the missing type [pipeDeadline], as the
    absolute time that it is keyed by; the zero time is the never value. *)
Record t := mk { deadline : time.Time }.

(** Modelled from the spec: the missing [makePipeDeadline]; a new timer has
    no deadline. *)
Definition makePipeDeadline : t := mk None.

(** Modelled from the spec: the missing method [set], which resets the
    timer to the time [tm]. *)
Definition set (d : t) (tm : time.Time) : t := mk tm.

(** Modelled from the spec: the missing method [wait]; the result tells
    whether the channel that [wait] returns is closed at the time [now],
    that is whether the deadline is at [now] or in the past.  The deadline
    is read at the moment of the wait, so that a reset affects an
    outstanding wait. *)
Definition wait (d : t) (now : Z) : bool :=
  match deadline d with
  | Some t => bool_decide (t <= now)
  | None => false
  end.

End pipeDeadline.

(** ** Blocking calls *)

(** What a conn sees of the rest of the program: the network, the memory
    of the requests and the clock. *)
Record World := mkWorld {
  network : Network.t;
  memory : Memory;
  now : Z;
}.

(** How a call that may block ends: it returns, it is still waiting for
    the acknowledgement of its request, it panics, or the model ran out of
    fuel before the loop of the call ended. *)
Inductive outcome (R A : Type) :=
| Returns (w : World) (a : A)
| Waits (w : World) (req : R)
| Panics
| OutOfFuel.
Arguments Returns {R A} w a.
Arguments Waits {R A} w req.
Arguments Panics {R A}.
Arguments OutOfFuel {R A}.

(** A [select] without [default]: every ready case may be the one that
    runs. *)
Definition select {X : Type} (cases : list (bool * list X)) : list X :=
  concat (map (λ c : bool * list X, if c.1 then c.2 else []) cases).

(** A [select] whose cases are only receives from channels that get
    closed: it blocks, here on the request [req], while none is ready. *)
Definition select_or_wait {R A : Type} (w : World) (req : R)
    (cases : list (bool * list (outcome R A))) : list (outcome R A) :=
  match select cases with
  | [] => [Waits w req]
  | os => os
  end.

(** ** The UDP conn *)

Module UDPConn.

(** [UDPConn]; the field [network] is the network of the [World]. *)
Record t := mk {
  closed : bool;
  localAddr : AddrPort;
  once : bool;
  peerAddr : AddrPort;
  readDeadline : pipeDeadline.t;
  writeDeadline : pipeDeadline.t;
}.

Definition set_readDeadline (d : pipeDeadline.t) (c : t) : t :=
  mk (closed c) (localAddr c) (once c) (peerAddr c) d (writeDeadline c).

Definition set_writeDeadline (d : pipeDeadline.t) (c : t) : t :=
  mk (closed c) (localAddr c) (once c) (peerAddr c) (readDeadline c) d.

(** The inner [select] of [NewUDPConn]. *)
Definition NewUDPConn_ack (c : t) (w : World) (req : networkNewConnUDP.t)
  : list (outcome networkNewConnUDP.t (option t * option error)) :=
  select_or_wait w req [
    (Network.closed (network w), [Returns w (None, Some ErrClosed)]);
    (networkNewConnUDP.ack req, [Returns w (Some c, networkNewConnUDP.err req)])
  ].

(** [NewUDPConn]; the send on [network.newConnUDP] is ready while the
    loop of the network runs, and the loop then handles the request. *)
Definition NewUDPConn (w : World) (localAddr peerAddr : AddrPort)
  : list (outcome networkNewConnUDP.t (option t * option error)) :=
  let c := mk false localAddr false peerAddr
              pipeDeadline.makePipeDeadline pipeDeadline.makePipeDeadline in
  let req := networkNewConnUDP.mk false None localAddr in
  select [
    (Network.closed (network w), [Returns w (None, Some ErrClosed)]);
    (negb (Network.closed (network w)),
      match Network.onNewConnUDP (network w) req with
      | None => [Panics]
      | Some (n, req) => NewUDPConn_ack c (mkWorld n (memory w) (now w)) req
      end)
  ].

(** [LocalAddr] returns the local addr; the [net.Addr] is
    [net.UDPAddrFromAddrPort(c.localAddr)]. *)
Definition LocalAddr (c : t) : option AddrPort := Some (localAddr c).

(** [RemoteAddr] returns the possibly [nil] remote addr. *)
Definition RemoteAddr (c : t) : option AddrPort :=
  if negb (netip.IsValid (peerAddr c)) then None else Some (peerAddr c).

(** [SetReadDeadline]: a [select] with a [default]. *)
Definition SetReadDeadline (c : t) (tm : time.Time) : t * option error :=
  if closed c then (c, Some ErrClosed)
  else (set_readDeadline (pipeDeadline.set (readDeadline c) tm) c, None).

(** [SetWriteDeadline]. *)
Definition SetWriteDeadline (c : t) (tm : time.Time) : t * option error :=
  if closed c then (c, Some ErrClosed)
  else (set_writeDeadline (pipeDeadline.set (writeDeadline c) tm) c, None).

(** [SetDeadline] sets the read and the write deadlines. *)
Definition SetDeadline (c : t) (tm : time.Time) : t * option error :=
  match SetReadDeadline c tm with
  | (c, Some err) => (c, Some err)
  | (c, None) => SetWriteDeadline c tm
  end.

(** The inner [select] of [Close]: both cases do nothing. *)
Definition Close_ack (w : World) (req : networkDeleteConnUDP.t)
  : list (outcome networkDeleteConnUDP.t unit) :=
  select_or_wait w req [
    (Network.closed (network w), [Returns w ()]);
    (networkDeleteConnUDP.ack req, [Returns w ()])
  ].

(** The end of the function that [Close] runs once: [close(c.closed)]. *)
Definition Close_finish (c : t) (o : outcome networkDeleteConnUDP.t unit)
  : outcome networkDeleteConnUDP.t (t * option error) :=
  match o with
  | Returns w _ =>
      match close (closed c) with
      | None => Panics
      | Some cl =>
          Returns w (mk cl (localAddr c) true (peerAddr c)
                        (readDeadline c) (writeDeadline c), None)
      end
  | Waits w req => Waits w req
  | Panics => Panics
  | OutOfFuel => OutOfFuel
  end.

(** [Close] closes the connection; it returns [nil] on every path. *)
Definition Close (c : t) (w : World)
  : list (outcome networkDeleteConnUDP.t (t * option error)) :=
  if once c then [Returns w (c, None)]
  else
    let req := networkDeleteConnUDP.mk false None (localAddr c) in
    Close_finish c <$>
      select [
        (Network.closed (network w), [Returns w ()]);
        (negb (Network.closed (network w)),
          match Network.onDeleteConnUDP (network w) req with
          | None => [Panics]
          | Some (n, req) => Close_ack (mkWorld n (memory w) (now w)) req
          end)
      ].

(** *** Reading

    [commonRead] hands back its three results; the model adds the
    contents of the caller's buffer after the call, which the actor
    writes through [req.buffer]. *)
Definition read_result : Type := bytes * (Z * AddrPort * option error).

(** The inner [select] of [commonRead]: receive the ack. *)
Definition commonRead_ack (c : t) (w : World) (req : ptr)
  : list (outcome ptr read_result) :=
  match reads (memory w) !! req with
  | None => [Panics]
  | Some r =>
      let buf := networkReadUDP.buffer r in
      select_or_wait w req [
        (closed c, [Returns w (buf, (0, netip.zero, Some ErrClosed))]);
        (Network.closed (network w),
          [Returns w (buf, (0, netip.zero, Some ErrClosed))]);
        (pipeDeadline.wait (readDeadline c) (now w),
          [Returns w (buf, (0, netip.zero, Some ErrDeadlineExceeded))]);
        (networkReadUDP.ack r,
          [Returns w (buf, (networkReadUDP.count r,
                            networkReadUDP.senderAddr r,
                            networkReadUDP.err r))])
      ]
  end.

(** [commonRead] is the common code for reading.  The request gets a
    fresh pointer when it is sent; a request that is never sent is
    garbage and is not recorded in the memory. *)
Definition commonRead (c : t) (w : World) (buffer : bytes)
  : list (outcome ptr read_result) :=
  let req := networkReadUDP.mk false buffer 0 None (localAddr c) netip.zero in
  select [
    (closed c, [Returns w (buffer, (0, netip.zero, Some ErrClosed))]);
    (Network.closed (network w),
      [Returns w (buffer, (0, netip.zero, Some ErrClosed))]);
    (pipeDeadline.wait (readDeadline c) (now w),
      [Returns w (buffer, (0, netip.zero, Some ErrDeadlineExceeded))]);
    (negb (Network.closed (network w)),
      let p := fresh (dom (reads (memory w))) in
      match Network.onReadUDP (network w) (set_read p req (memory w)) p with
      | None => [Panics]
      | Some (n, m) => commonRead_ack c (mkWorld n m (now w)) p
      end)
  ].

(** The body of the loop of [Read] after [commonRead] came back with
    [o]; [k] is the next iteration. *)
Definition Read_next (c : t)
    (k : World → bytes → list (outcome ptr (bytes * (Z * option error))))
    (o : outcome ptr read_result)
  : list (outcome ptr (bytes * (Z * option error))) :=
  match o with
  | Returns w (buf, (count, source, err)) =>
      match err with
      | Some e => [Returns w (buf, (0, Some e))]
      | None =>
          if decide (source ≠ peerAddr c) then k w buf
          else [Returns w (buf, (count, None))]
      end
  | Waits w req => [Waits w req]
  | Panics => [Panics]
  | OutOfFuel => [OutOfFuel]
  end.

(** The [for] loop of [Read], for at most [fuel] iterations. *)
Fixpoint Read_loop (fuel : nat) (c : t) (w : World) (buffer : bytes)
  : list (outcome ptr (bytes * (Z * option error))) :=
  match fuel with
  | O => [OutOfFuel]
  | S fuel => o ← commonRead c w buffer; Read_next c (Read_loop fuel c) o
  end.

(** [Read] reads from a connected UDP socket. *)
Definition Read (fuel : nat) (c : t) (w : World) (buffer : bytes)
  : list (outcome ptr (bytes * (Z * option error))) :=
  if negb (netip.IsValid (peerAddr c))
  then [Returns w (buffer, (0, Some (Errno syscall.ENOTCONN)))]
  else Read_loop fuel c w buffer.

(** A [Read] that waits in [commonRead] on the request [req] goes on
    from the inner [select], in the world of that moment. *)
Definition Read_resume (fuel : nat) (c : t) (w : World) (req : ptr)
  : list (outcome ptr (bytes * (Z * option error))) :=
  o ← commonRead_ack c w req; Read_next c (Read_loop fuel c) o.

(** What [ReadFrom] makes of the results of [commonRead]; the [net.Addr]
    it returns is [nil] ([None]) or [net.UDPAddrFromAddrPort(source)]. *)
Definition ReadFrom_result (o : outcome ptr read_result)
  : outcome ptr (bytes * (Z * option AddrPort * option error)) :=
  match o with
  | Returns w (buf, (count, source, err)) =>
      match err with
      | Some e => Returns w (buf, (0, None, Some e))
      | None => Returns w (buf, (count, Some source, None))
      end
  | Waits w req => Waits w req
  | Panics => Panics
  | OutOfFuel => OutOfFuel
  end.

(** [ReadFrom] reads from a non-connected UDP socket. *)
Definition ReadFrom (c : t) (w : World) (buffer : bytes)
  : list (outcome ptr (bytes * (Z * option AddrPort * option error))) :=
  if netip.IsValid (peerAddr c)
  then [Returns w (buffer, (0, None, Some (Errno syscall.EISCONN)))]
  else ReadFrom_result <$> commonRead c w buffer.

(** *** Writing *)

(** The inner [select] of [commonWrite]: receive the ack.  [len] is
    [len(data)]. *)
Definition commonWrite_ack (c : t) (w : World) (len : Z) (req : ptr)
  : list (outcome ptr (Z * option error)) :=
  match writes (memory w) !! req with
  | None => [Panics]
  | Some r =>
      select_or_wait w req [
        (closed c, [Returns w (0, Some ErrClosed)]);
        (Network.closed (network w), [Returns w (0, Some ErrClosed)]);
        (pipeDeadline.wait (readDeadline c) (now w),
          [Returns w (0, Some ErrDeadlineExceeded)]);
        (networkWriteUDP.ack r, [Returns w (len, networkWriteUDP.err r)])
      ]
  end.

(** [commonWrite] is the common code for writing. *)
Definition commonWrite (c : t) (w : World) (data : bytes) (destAddr : AddrPort)
  : list (outcome ptr (Z * option error)) :=
  let req := networkWriteUDP.mk false destAddr None data (localAddr c) in
  select [
    (closed c, [Returns w (0, Some ErrClosed)]);
    (Network.closed (network w), [Returns w (0, Some ErrClosed)]);
    (pipeDeadline.wait (readDeadline c) (now w),
      [Returns w (0, Some ErrDeadlineExceeded)]);
    (negb (Network.closed (network w)),
      let p := fresh (dom (writes (memory w))) in
      match Network.onWriteUDP (network w) (set_write p req (memory w)) p with
      | None => [Panics]
      | Some (n, m) =>
          commonWrite_ack c (mkWorld n m (now w)) (Z.of_nat (length data)) p
      end)
  ].

(** [Write] writes data on a connected UDP socket. *)
Definition Write (c : t) (w : World) (data : bytes)
  : list (outcome ptr (Z * option error)) :=
  if negb (netip.IsValid (peerAddr c))
  then [Returns w (0, Some (Errno syscall.ENOTCONN))]
  else commonWrite c w data (peerAddr c).

(** [WriteTo] writes data on an unconnected UDP socket.  Of its [addr]
    argument the model takes [parsed], the result of
    [netip.ParseAddrPort(addr.String())]: [None] when that fails.  The
    [addr] is then not the [nil] interface; [WriteTo_addr] below has that
    case as well. *)
Definition WriteTo (c : t) (w : World) (data : bytes) (parsed : option AddrPort)
  : list (outcome ptr (Z * option error)) :=
  if netip.IsValid (peerAddr c)
  then [Returns w (0, Some (Errno syscall.EISCONN))]
  else
    match parsed with
    | None => [Returns w (0, Some (Errno syscall.EINVAL))]
    | Some destAddr => commonWrite c w data destAddr
    end.

(** [WriteTo] with its [addr] argument as the caller gives it: [None] is
    the [nil] interface, on which [addr.String()] panics once the conn is
    seen not to be connected; [Some parsed] is an address whose
    [String()] [netip.ParseAddrPort] turns into [parsed]. *)
Definition WriteTo_addr (c : t) (w : World) (data : bytes)
    (addr : option (option AddrPort)) : list (outcome ptr (Z * option error)) :=
  if netip.IsValid (peerAddr c)
  then [Returns w (0, Some (Errno syscall.EISCONN))]
  else
    match addr with
    | None => [Panics]
    | Some None => [Returns w (0, Some (Errno syscall.EINVAL))]
    | Some (Some destAddr) => commonWrite c w data destAddr
    end.

End UDPConn.

(** * Definitions for the properties *)

Import networkConnStateUDP.

(** ** Predicates on the state of the actor *)

(** At most one of the two queues of a conn state is non-empty. *)
Definition queues_exclusive (st : networkConnStateUDP.t) : Prop :=
  blockedReads st = [] ∨ blockedWrites st = [].

#[global] Instance queues_exclusive_dec st : Decision (queues_exclusive st).
Proof. unfold queues_exclusive. apply _. Defined.

(** The invariant holds of every address state that the actor holds. *)
Definition at_most_one_queue (n : Network.t) : Prop :=
  map_Forall (λ _ st, queues_exclusive st) (Network.udp n).

#[global] Instance at_most_one_queue_dec n : Decision (at_most_one_queue n).
Proof. unfold at_most_one_queue. apply _. Defined.

(** What receiving the read request [p] does to the conn state [st] of its
    address: match the oldest blocked write, or park. *)
Definition read_arrives (p : ptr) (st : networkConnStateUDP.t)
  : networkConnStateUDP.t :=
  match blockedWrites st with
  | [] => mk (blockedReads st ++ [p]) []
  | _ :: ws => mk (blockedReads st) ws
  end.

(** What receiving the write request [p] does to the conn state [st] of
    its destination: match the oldest blocked read, or park. *)
Definition write_arrives (p : ptr) (st : networkConnStateUDP.t)
  : networkConnStateUDP.t :=
  match blockedReads st with
  | [] => mk [] (blockedWrites st ++ [p])
  | _ :: rs => mk rs (blockedWrites st)
  end.

(** The read request [r] once it is matched with the write request [w]. *)
Definition matched_read (r : networkReadUDP.t) (w : networkWriteUDP.t)
  : networkReadUDP.t :=
  networkReadUDP.mk true
    (copy (networkReadUDP.buffer r) (networkWriteUDP.payload w)).1
    (copy (networkReadUDP.buffer r) (networkWriteUDP.payload w)).2
    (networkReadUDP.err r)
    (networkReadUDP.localAddr r)
    (networkWriteUDP.sourceAddr w).

(** The message is a request to unbind the address [a]. *)
Definition unbinds (a : AddrPort) (msg : message) : Prop :=
  match msg with
  | deleteConnUDP req => networkDeleteConnUDP.localAddr req = a
  | _ => False
  end.

(** The request [p] is in a queue of blocked reads (of blocked writes) of
    an address state that the actor holds. *)
Definition parked_read (n : Network.t) (p : ptr) : Prop :=
  map_Exists (λ _ st, p ∈ blockedReads st) (Network.udp n).

Definition parked_write (n : Network.t) (p : ptr) : Prop :=
  map_Exists (λ _ st, p ∈ blockedWrites st) (Network.udp n).

#[global] Instance parked_read_dec n p : Decision (parked_read n p).
Proof. unfold parked_read. apply _. Defined.

#[global] Instance parked_write_dec n p : Decision (parked_write n p).
Proof. unfold parked_write. apply _. Defined.

(** Both computations panic, or both end and their results are related. *)
Definition both {A : Type} (R : A → A → Prop) (x y : option A) : Prop :=
  match x, y with
  | Some a, Some b => R a b
  | None, None => True
  | _, _ => False
  end.

(** Two memories that hold the same read requests, and the same write
    requests but possibly for [p]. *)
Definition same_but_write (p : ptr) (m1 m2 : Memory) : Prop :=
  reads m1 = reads m2 ∧ ∀ q, q ≠ p → writes m1 !! q = writes m2 !! q.

(** A request parked at the address [a] is allocated, is for [a], and has
    not been acknowledged. *)
Definition parked_read_ok (m : Memory) (a : AddrPort) (p : ptr) : Prop :=
  match reads m !! p with
  | Some r => networkReadUDP.localAddr r = a ∧ networkReadUDP.ack r = false
  | None => False
  end.

Definition parked_write_ok (m : Memory) (a : AddrPort) (p : ptr) : Prop :=
  match writes m !! p with
  | Some w => networkWriteUDP.destAddr w = a ∧ networkWriteUDP.ack w = false
  | None => False
  end.

#[global] Instance parked_read_ok_dec m a p : Decision (parked_read_ok m a p).
Proof. unfold parked_read_ok. destruct (reads m !! p); apply _. Defined.

#[global] Instance parked_write_ok_dec m a p : Decision (parked_write_ok m a p).
Proof. unfold parked_write_ok. destruct (writes m !! p); apply _. Defined.

(** The queues of the address [a] hold no request twice, and only well
    formed requests. *)
Definition queues_ok (m : Memory) (a : AddrPort) (st : networkConnStateUDP.t) : Prop :=
  NoDup (blockedReads st) ∧ NoDup (blockedWrites st) ∧
  Forall (parked_read_ok m a) (blockedReads st) ∧
  Forall (parked_write_ok m a) (blockedWrites st).

#[global] Instance queues_ok_dec m a st : Decision (queues_ok m a st).
Proof. unfold queues_ok. apply _. Defined.

Definition parked_ok (n : Network.t) (m : Memory) : Prop :=
  map_Forall (queues_ok m) (Network.udp n).

#[global] Instance parked_ok_dec n m : Decision (parked_ok n m).
Proof. unfold parked_ok. apply _. Defined.

(** A request that arrives is allocated, not acknowledged and in no queue:
    its issuer has just made it. *)
Definition arrives_ok (n : Network.t) (m : Memory) (msg : message) : Prop :=
  match msg with
  | newConnUDP req => networkNewConnUDP.ack req = false
  | readUDP p =>
      ¬ parked_read n p ∧
      match reads m !! p with
      | Some r => networkReadUDP.ack r = false
      | None => False
      end
  | writeUDP p =>
      ¬ parked_write n p ∧
      match writes m !! p with
      | Some w => networkWriteUDP.ack w = false
      | None => False
      end
  | deleteConnUDP req => networkDeleteConnUDP.ack req = false
  end.

#[global] Instance arrives_ok_dec n m msg : Decision (arrives_ok n m msg).
Proof.
  destruct msg as [req|p|p|req]; simpl; [apply _| | |apply _].
  - destruct (reads m !! p); apply _.
  - destruct (writes m !! p); apply _.
Defined.

(** Every message of [msgs] is well formed when it arrives, and the actor
    handles it. *)
Fixpoint arrivals_ok (n : Network.t) (m : Memory) (msgs : list message) : Prop :=
  match msgs with
  | [] => True
  | msg :: msgs =>
      arrives_ok n m msg ∧
      match loop_case n m msg with
      | Some (n', m') => arrivals_ok n' m' msgs
      | None => False
      end
  end.

#[global] Instance arrivals_ok_dec n m msgs : Decision (arrivals_ok n m msgs).
Proof.
  revert n m. induction msgs as [|msg msgs IH]; intros n m; simpl; [apply _|].
  destruct (loop_case n m msg) as [[n' m']|]; apply _.
Defined.

(** The message is about another address than [a]: a bind or an unbind of
    another address, a read request of a conn at another address, a write
    request to another address. *)
Definition elsewhere (m : Memory) (a : AddrPort) (msg : message) : Prop :=
  match msg with
  | newConnUDP req => networkNewConnUDP.localAddr req ≠ a
  | readUDP p =>
      match reads m !! p with
      | Some r => networkReadUDP.localAddr r ≠ a
      | None => False
      end
  | writeUDP p =>
      match writes m !! p with
      | Some w => networkWriteUDP.destAddr w ≠ a
      | None => False
      end
  | deleteConnUDP req => networkDeleteConnUDP.localAddr req ≠ a
  end.

#[global] Instance elsewhere_dec m a msg : Decision (elsewhere m a msg).
Proof.
  destruct msg as [req|p|p|req]; simpl; [apply _| | |apply _].
  - destruct (reads m !! p); apply _.
  - destruct (writes m !! p); apply _.
Defined.

(** ** Conns and calls *)

(** The conn that [NewUDPConn] initialises. *)
Definition new_conn (localAddr peerAddr : AddrPort) : UDPConn.t :=
  UDPConn.mk false localAddr false peerAddr
    pipeDeadline.makePipeDeadline pipeDeadline.makePipeDeadline.

(** Nothing but the actor can end a call on the conn [c] in the world [w]:
    the conn and the network are open and the read deadline, the one that
    both [commonRead] and [commonWrite] wait on, has not fired. *)
Definition idle (c : UDPConn.t) (w : World) : Prop :=
  UDPConn.closed c = false ∧
  Network.closed (network w) = false ∧
  pipeDeadline.wait (UDPConn.readDeadline c) (now w) = false.

#[global] Instance idle_dec c w : Decision (idle c w).
Proof. unfold idle. apply _. Defined.

(** The request that [commonRead] builds. *)
Definition read_request (c : UDPConn.t) (buffer : bytes) : networkReadUDP.t :=
  networkReadUDP.mk false buffer 0 None (UDPConn.localAddr c) netip.zero.

(** The request that [commonWrite] builds. *)
Definition write_request (c : UDPConn.t) (data : bytes) (destAddr : AddrPort)
  : networkWriteUDP.t :=
  networkWriteUDP.mk false destAddr None data (UDPConn.localAddr c).

(** [Read] on a connected conn as the specification words it: perform the
    common receive again and again, discarding every datagram whose sender
    is not the peer, until a datagram of the peer comes, whose byte count
    is returned, or the common receive fails, whose error is returned with
    the count 0.  The call is stuck where the common receive is. *)
Inductive Read_spec (c : UDPConn.t)
  : World → bytes → outcome ptr (bytes * (Z * option error)) → Prop :=
| Read_spec_discard w buf w1 buf1 count source o :
    Returns w1 (buf1, (count, source, None)) ∈ UDPConn.commonRead c w buf →
    source ≠ UDPConn.peerAddr c →
    Read_spec c w1 buf1 o →
    Read_spec c w buf o
| Read_spec_datagram w buf w1 buf1 count :
    Returns w1 (buf1, (count, UDPConn.peerAddr c, None)) ∈ UDPConn.commonRead c w buf →
    Read_spec c w buf (Returns w1 (buf1, (count, None)))
| Read_spec_error w buf w1 buf1 count source e :
    Returns w1 (buf1, (count, source, Some e)) ∈ UDPConn.commonRead c w buf →
    Read_spec c w buf (Returns w1 (buf1, (0, Some e)))
| Read_spec_waits w buf w1 p :
    Waits w1 p ∈ UDPConn.commonRead c w buf →
    Read_spec c w buf (Waits w1 p)
| Read_spec_panics w buf :
    Panics ∈ UDPConn.commonRead c w buf →
    Read_spec c w buf Panics.

(** The write request [p] is allocated and does not come from the peer of
    the conn [c]. *)
Definition from_other (c : UDPConn.t) (m : Memory) (p : ptr) : Prop :=
  match writes m !! p with
  | Some w => networkWriteUDP.sourceAddr w ≠ UDPConn.peerAddr c
  | None => False
  end.

#[global] Instance from_other_dec c m p : Decision (from_other c m p).
Proof. unfold from_other. destruct (writes m !! p); apply _. Defined.

(** ** Example values *)

Definition addrA : AddrPort := netip.mkAddrPort (netip.IPv4 167772161) 5000.
Definition addrB : AddrPort := netip.mkAddrPort (netip.IPv4 167772162) 6000.
Definition addrC : AddrPort := netip.mkAddrPort (netip.IPv4 167772163) 7000.

Definition hello : bytes :=
  [Byte.x68; Byte.x65; Byte.x6c; Byte.x6c; Byte.x6f].
Definition world : bytes :=
  [Byte.x77; Byte.x6f; Byte.x72; Byte.x6c; Byte.x64].
Definition zeroes (k : nat) : bytes := replicate k Byte.x00.

(** A running network where [addrB] is bound and the write request [7],
    from [addrA] with payload [hello], is parked; the read request [9] for
    [addrB], with a buffer of 8 bytes, is about to arrive. *)
Definition ex_write : networkWriteUDP.t :=
  networkWriteUDP.mk false addrB None hello addrA.
Definition ex_read : networkReadUDP.t :=
  networkReadUDP.mk false (zeroes 8) 0 None addrB netip.zero.
Definition ex_network : Network.t :=
  Network.mk false false {[addrB := mk [] [7%nat]]}.
Definition ex_memory : Memory :=
  mkMemory {[9%nat := ex_read]} {[7%nat := ex_write]}.

(** The world of a new network: nothing bound, no request, time 0. *)
Definition world0 : World := mkWorld Network.NewNetwork (mkMemory ∅ ∅) 0.

(** [world0] after [addrA] is bound. *)
Definition worldA : World :=
  mkWorld (Network.mk false false {[addrA := mk [] []]}) (mkMemory ∅ ∅) 0.

(** The write request [8], to [addrC], arrives while [addrC] is not bound. *)
Definition ex_dropped : networkWriteUDP.t :=
  networkWriteUDP.mk false addrC None world addrA.

(** The unbind of [addrB], where the write request [7] is parked. *)
Definition ex_unbind : networkDeleteConnUDP.t :=
  networkDeleteConnUDP.mk false None addrB.

(** [addrB] is bound and idle; the write requests [1] ([hello], from
    [addrA], to [addrB]), [2] ([world], from [addrC], to [addrB]) and [5]
    ([hello], from [addrA], to [addrC]) and the read requests [3] (at
    [addrB], a buffer of 8 bytes), [4] (at [addrB], a buffer of 3 bytes)
    and [6] (at [addrC], a buffer of 8 bytes) are about to arrive, and so
    is the bind of [addrC]. *)
Definition fifo_network : Network.t :=
  Network.mk false false {[addrB := mk [] []]}.
Definition fifo_w1 : networkWriteUDP.t :=
  networkWriteUDP.mk false addrB None hello addrA.
Definition fifo_w2 : networkWriteUDP.t :=
  networkWriteUDP.mk false addrB None world addrC.
Definition fifo_w5 : networkWriteUDP.t :=
  networkWriteUDP.mk false addrC None hello addrA.
Definition fifo_r1 : networkReadUDP.t :=
  networkReadUDP.mk false (zeroes 8) 0 None addrB netip.zero.
Definition fifo_r2 : networkReadUDP.t :=
  networkReadUDP.mk false (zeroes 3) 0 None addrB netip.zero.
Definition fifo_r6 : networkReadUDP.t :=
  networkReadUDP.mk false (zeroes 8) 0 None addrC netip.zero.
Definition fifo_bind : networkNewConnUDP.t :=
  networkNewConnUDP.mk false None addrC.
Definition fifo_memory : Memory :=
  mkMemory {[3%nat := fifo_r1; 4%nat := fifo_r2; 6%nat := fifo_r6]}
           {[1%nat := fifo_w1; 2%nat := fifo_w2; 5%nat := fifo_w5]}.

(** [world0] after [addrA] and [addrB] are bound. *)
Definition worldAB : World :=
  mkWorld (Network.mk false false {[addrA := mk [] []; addrB := mk [] []]})
          (mkMemory ∅ ∅) 0.

(** The conn of [addrA] after [SetWriteDeadline] with an instant that is
    already in the past at time 0. *)
Definition late_writer : UDPConn.t :=
  UDPConn.mk false addrA false netip.zero
    pipeDeadline.makePipeDeadline (pipeDeadline.mk (Some (-5))).

(** The conn of [addrA] after [SetReadDeadline] with that instant. *)
Definition late_reader : UDPConn.t :=
  UDPConn.mk false addrA false netip.zero
    (pipeDeadline.mk (Some (-5))) pipeDeadline.makePipeDeadline.

(** [worldAB] once the write request [0] of [addrA] to [addrB], with the
    payload [hello], is parked at [addrB]. *)
Definition worldAB_parked : World :=
  mkWorld (Network.mk false false {[addrA := mk [] []; addrB := mk [] [0%nat]]})
          (mkMemory ∅ {[0%nat := networkWriteUDP.mk false addrB None hello addrA]}) 0.

(** [worldA] after the network is shut down. *)
Definition worldA_closed : World :=
  mkWorld (Network.mk true true {[addrA := mk [] []]}) (mkMemory ∅ ∅) 0.

(** [addrB] is bound and two datagrams are parked there: [world], from
    [addrC], then [hello], from [addrA]. *)
Definition read_world : World :=
  mkWorld (Network.mk false false {[addrB := mk [] [1%nat; 2%nat]]})
          (mkMemory ∅ {[1%nat := fifo_w2; 2%nat := fifo_w1]}) 0.

(** ** Worlds, conns and runs of the further properties *)

(** The world [w] at the later time [t]: only the clock has moved. *)
Definition at_time (t : Z) (w : World) : World :=
  mkWorld (network w) (memory w) t.

(** The world [w] once the actor has unbound the address [a]. *)
Definition unbound (a : AddrPort) (w : World) : World :=
  mkWorld (Network.set_udp (delete a (Network.udp (network w))) (network w))
          (memory w) (now w).

(** The conn [c] once its [Close] has run. *)
Definition closed_conn (c : UDPConn.t) : UDPConn.t :=
  UDPConn.mk true (UDPConn.localAddr c) true (UDPConn.peerAddr c)
    (UDPConn.readDeadline c) (UDPConn.writeDeadline c).

(** The outcome is a return: the call neither waits nor panics. *)
Definition returns {R A : Type} (o : outcome R A) : Prop :=
  match o with Returns _ _ => True | _ => False end.

(** What the actor may do to a write request: close its ack. *)
Definition write_evolves (w w' : networkWriteUDP.t) : Prop :=
  networkWriteUDP.destAddr w' = networkWriteUDP.destAddr w ∧
  networkWriteUDP.err w' = networkWriteUDP.err w ∧
  networkWriteUDP.payload w' = networkWriteUDP.payload w ∧
  networkWriteUDP.sourceAddr w' = networkWriteUDP.sourceAddr w ∧
  (networkWriteUDP.ack w = true → networkWriteUDP.ack w' = true).

(** What the actor may do to a read request: fill the buffer in place,
    set the count, the sender and the error, close the ack. *)
Definition read_evolves (r r' : networkReadUDP.t) : Prop :=
  networkReadUDP.localAddr r' = networkReadUDP.localAddr r ∧
  length (networkReadUDP.buffer r') = length (networkReadUDP.buffer r) ∧
  (networkReadUDP.ack r = true → networkReadUDP.ack r' = true).

(** The read requests and the write requests among the messages. *)
Definition read_ptrs (msgs : list message) : list ptr :=
  omap (λ msg, match msg with readUDP p => Some p | _ => None end) msgs.

Definition write_ptrs (msgs : list message) : list ptr :=
  omap (λ msg, match msg with writeUDP p => Some p | _ => None end) msgs.

(** Every request among [msgs] is sent once, and is as its issuer makes
    it: allocated, not acknowledged and in no queue of the actor. *)
Definition sent_once (n : Network.t) (m : Memory) (msgs : list message) : Prop :=
  NoDup (read_ptrs msgs) ∧ NoDup (write_ptrs msgs) ∧
  Forall (arrives_ok n m) msgs.

#[global] Instance sent_once_dec n m msgs : Decision (sent_once n m msgs).
Proof. unfold sent_once. apply _. Defined.

(** The set of the bound addresses after the actor has handled [msg]. *)
Definition bound_after (s : gset AddrPort) (msg : message) : gset AddrPort :=
  match msg with
  | newConnUDP req => {[networkNewConnUDP.localAddr req]} ∪ s
  | deleteConnUDP req => s ∖ {[networkDeleteConnUDP.localAddr req]}
  | _ => s
  end.

(** The results that a write may have, [len] being [len(data)]: all of
    the datagram was taken, or nothing was and the error is one of the
    five that the conn layer makes itself. *)
Definition write_result_ok (len : Z) (res : Z * option error) : Prop :=
  match res with
  | (k, None) => k = len
  | (k, Some e) =>
      k = 0 ∧
      (e = ErrClosed ∨ e = ErrDeadlineExceeded ∨ e = Errno syscall.ENOTCONN ∨
       e = Errno syscall.EISCONN ∨ e = Errno syscall.EINVAL)
  end.

(** The results that [ReadFrom] may have with a buffer of [len] bytes:
    a count within the buffer and the address of a sender, or the count 0,
    no address and one of four errors. *)
Definition read_result_ok (len : nat) (res : bytes * (Z * option AddrPort * option error))
  : Prop :=
  match res with
  | (buf, (k, addr, None)) =>
      length buf = len ∧ 0 ≤ k ≤ Z.of_nat len ∧ is_Some addr
  | (buf, (k, addr, Some e)) =>
      length buf = len ∧ k = 0 ∧ addr = None ∧
      (e = ErrClosed ∨ e = ErrDeadlineExceeded ∨ e = Errno syscall.EISCONN ∨
       e = Errno syscall.EBADF)
  end.

(** What holds of the request of a read with a buffer of [len] bytes,
    whatever the actor has done to it. *)
Definition read_request_ok (len : nat) (r : networkReadUDP.t) : Prop :=
  length (networkReadUDP.buffer r) = len ∧
  0 ≤ networkReadUDP.count r ≤ Z.of_nat len ∧
  (networkReadUDP.err r = None ∨
   networkReadUDP.err r = Some (Errno syscall.EBADF)).

(** [ex_network] and [ex_memory] after the read request [9] has taken the
    datagram of the write request [7]. *)
Definition done_network : Network.t :=
  Network.mk false false {[addrB := mk [] []]}.
Definition done_memory : Memory :=
  set_read 9%nat (matched_read ex_read ex_write)
    (set_write 7%nat (networkWriteUDP.set_ack true ex_write) ex_memory).

(** [done_memory] with two more requests that have not been sent: the
    write request [8] ([world], from [addrC], to [addrB]) and the read
    request [10] (at [addrB], a buffer of 3 bytes); and the memory after
    the actor has matched them. *)
Definition later_memory : Memory :=
  set_read 10%nat fifo_r2 (set_write 8%nat fifo_w2 done_memory).
Definition later_memory' : Memory :=
  set_read 10%nat (matched_read fifo_r2 fifo_w2)
    (set_write 8%nat (networkWriteUDP.set_ack true fifo_w2) later_memory).

(** The conn of [addrB] with the read deadline at the time 10. *)
Definition timed_reader : UDPConn.t :=
  UDPConn.mk false addrB false netip.zero
    (pipeDeadline.mk (Some 10)) pipeDeadline.makePipeDeadline.

(** * Properties *)

(** ** The invariant of the two queues *)

Lemma close_Some ch b : close ch = Some b → ch = false ∧ b = true.
Proof. unfold close. destruct ch; naive_solver. Qed.

Lemma close_open : close false = Some true.
Proof. reflexivity. Qed.

(** The map after a bind, whatever the request. *)
Lemma onNewConnUDP_udp n req n' req' :
  Network.onNewConnUDP n req = Some (n', req') →
  Network.udp n' =
    match Network.udp n !! networkNewConnUDP.localAddr req with
    | Some _ => Network.udp n
    | None => <[networkNewConnUDP.localAddr req := mk [] []]> (Network.udp n)
    end.
Proof.
  unfold Network.onNewConnUDP. intros H.
  destruct (Network.udp n !! _); simplify_option_eq; done.
Qed.

(** The map after an unbind, whatever the request. *)
Lemma onDeleteConnUDP_udp n req n' req' :
  Network.onDeleteConnUDP n req = Some (n', req') →
  Network.udp n' = delete (networkDeleteConnUDP.localAddr req) (Network.udp n).
Proof.
  unfold Network.onDeleteConnUDP. intros H.
  destruct (Network.udp n !! _) eqn:E; simplify_option_eq; [done|].
  by rewrite delete_id.
Qed.

(** The map after a read request: only the state of its address moves. *)
Lemma onReadUDP_udp n m p n' m' :
  Network.onReadUDP n m p = Some (n', m') →
  ∃ r, reads m !! p = Some r ∧
    Network.udp n' =
      match Network.udp n !! networkReadUDP.localAddr r with
      | None => Network.udp n
      | Some st => <[networkReadUDP.localAddr r := read_arrives p st]> (Network.udp n)
      end.
Proof.
  unfold Network.onReadUDP. intros H.
  destruct (reads m !! p) as [r|] eqn:Er; [|done]. simpl in H.
  exists r. split; [done|].
  destruct (Network.udp n !! _) as [st|] eqn:Est.
  - unfold read_arrives. destruct st as [rs [|w ws]]; simpl in *.
    + by simplify_eq.
    + destruct (Network.finishReadWrite m p w) eqn:E; simpl in H; by simplify_eq.
  - simplify_option_eq; done.
Qed.

(** The map after a write request: only the state of its destination moves. *)
Lemma onWriteUDP_udp n m p n' m' :
  Network.onWriteUDP n m p = Some (n', m') →
  ∃ w, writes m !! p = Some w ∧
    Network.udp n' =
      match Network.udp n !! networkWriteUDP.destAddr w with
      | None => Network.udp n
      | Some st => <[networkWriteUDP.destAddr w := write_arrives p st]> (Network.udp n)
      end.
Proof.
  unfold Network.onWriteUDP. intros H.
  destruct (writes m !! p) as [w|] eqn:Ew; [|done]. simpl in H.
  exists w. split; [done|].
  destruct (Network.udp n !! _) as [st|] eqn:Est.
  - unfold write_arrives. destruct st as [[|r rs] ws]; simpl in *.
    + by simplify_eq.
    + destruct (Network.finishReadWrite m r p) eqn:E; simpl in H; by simplify_eq.
  - simplify_option_eq; done.
Qed.

Lemma read_arrives_exclusive p st :
  queues_exclusive st → queues_exclusive (read_arrives p st).
Proof.
  unfold queues_exclusive, read_arrives.
  destruct st as [rs [|w ws]]; simpl; [by right|].
  intros [-> | ?]; [by left|done].
Qed.

Lemma write_arrives_exclusive p st :
  queues_exclusive st → queues_exclusive (write_arrives p st).
Proof.
  unfold queues_exclusive, write_arrives.
  destruct st as [[|r rs] ws]; simpl; [by left|].
  intros [? | ->]; [done|by right].
Qed.

Lemma NewNetwork_exclusive : at_most_one_queue Network.NewNetwork.
Proof. apply map_Forall_empty. Qed.

Lemma loop_case_exclusive n m msg n' m' :
  at_most_one_queue n →
  loop_case n m msg = Some (n', m') →
  at_most_one_queue n'.
Proof.
  unfold at_most_one_queue. intros Hinv Hstep.
  destruct msg as [req|p|p|req]; simpl in Hstep.
  - destruct (Network.onNewConnUDP n req) as [[n1 req1]|] eqn:E; simplify_eq/=.
    rewrite (onNewConnUDP_udp _ _ _ _ E).
    destruct (Network.udp n !! _); [done|].
    apply map_Forall_insert_2; [by left|done].
  - destruct (onReadUDP_udp _ _ _ _ _ Hstep) as (r & Hr & ->).
    destruct (Network.udp n !! _) as [st|] eqn:Est; [|done].
    apply map_Forall_insert_2; [|done].
    apply read_arrives_exclusive. by eapply Hinv.
  - destruct (onWriteUDP_udp _ _ _ _ _ Hstep) as (w & Hw & ->).
    destruct (Network.udp n !! _) as [st|] eqn:Est; [|done].
    apply map_Forall_insert_2; [|done].
    apply write_arrives_exclusive. by eapply Hinv.
  - destruct (Network.onDeleteConnUDP n req) as [[n1 req1]|] eqn:E; simplify_eq/=.
    rewrite (onDeleteConnUDP_udp _ _ _ _ E).
    by apply map_Forall_delete.
Qed.

Lemma loop_exclusive msgs : ∀ n m n' m',
  at_most_one_queue n →
  loop n m msgs = Some (n', m') →
  at_most_one_queue n'.
Proof.
  induction msgs as [|msg msgs IH]; intros n m n' m' Hinv Hrun; simpl in Hrun.
  - destruct (Network.closed n); by simplify_eq.
  - destruct (Network.closed n); [by simplify_eq|].
    destruct (loop_case n m msg) as [[n1 m1]|] eqn:E; [|done]. simpl in Hrun.
    eapply IH; [|done]. by eapply loop_case_exclusive.
Qed.

(** ** What a rendezvous writes *)

Lemma finishReadWrite_inv m p q m' :
  Network.finishReadWrite m p q = Some m' →
  ∃ r w, reads m !! p = Some r ∧ writes m !! q = Some w ∧
    networkReadUDP.ack r = false ∧ networkWriteUDP.ack w = false ∧
    m' = set_read p (matched_read r w)
           (set_write q (networkWriteUDP.set_ack true w) m).
Proof.
  unfold Network.finishReadWrite. intros H.
  destruct (reads m !! p) as [r|] eqn:Er; [|done].
  destruct (writes m !! q) as [w|] eqn:Ew; [|done].
  simpl in H.
  destruct (networkWriteUDP.ack w) eqn:Ewa; [done|].
  destruct (networkReadUDP.ack r) eqn:Era; [done|].
  simpl in H. simplify_eq. exists r, w. done.
Qed.

Lemma finishReadWrite_Some m p q r w :
  reads m !! p = Some r → writes m !! q = Some w →
  networkReadUDP.ack r = false → networkWriteUDP.ack w = false →
  Network.finishReadWrite m p q =
    Some (set_read p (matched_read r w)
            (set_write q (networkWriteUDP.set_ack true w) m)).
Proof.
  intros Hr Hw Hra Hwa. unfold Network.finishReadWrite.
  rewrite Hr, Hw. simpl. rewrite Hwa, Hra. done.
Qed.

Lemma copy_count (dst src : bytes) :
  (copy dst src).2 = Z.min (Z.of_nat (length src)) (Z.of_nat (length dst)).
Proof. unfold copy. simpl. lia. Qed.

Lemma copy_buffer (dst src : bytes) :
  (copy dst src).1 =
    take (Z.to_nat (copy dst src).2) src ++ drop (Z.to_nat (copy dst src).2) dst.
Proof. unfold copy. simpl. by rewrite Nat2Z.id. Qed.

Lemma copy_length (dst src : bytes) : length (copy dst src).1 = length dst.
Proof.
  unfold copy. simpl. rewrite length_app, length_take, length_drop. lia.
Qed.

(** A buffer that is large enough receives the whole payload. *)
Lemma copy_whole (dst src : bytes) :
  (length src ≤ length dst)%nat →
  copy dst src = (src ++ drop (length src) dst, Z.of_nat (length src)).
Proof.
  intros Hle. unfold copy. rewrite Nat.min_r by done.
  by rewrite firstn_all.
Qed.

(** A buffer that is too small receives a prefix, and is filled. *)
Lemma copy_truncated (dst src : bytes) :
  (length dst ≤ length src)%nat →
  copy dst src = (take (length dst) src, Z.of_nat (length dst)).
Proof.
  intros Hle. unfold copy. rewrite Nat.min_l by done.
  by rewrite drop_all, app_nil_r.
Qed.

Example copy_into_larger : copy (zeroes 8) hello = (hello ++ zeroes 3, 5).
Proof. reflexivity. Qed.

Example copy_into_smaller : copy (zeroes 3) hello = (take 3 hello, 3).
Proof. reflexivity. Qed.

Example select_ready_cases :
  select [(false, [1]); (true, [2]); (true, [3])] = [2; 3].
Proof. reflexivity. Qed.

Example close_twice_panics : close false ≫= close = None.
Proof. reflexivity. Qed.

(** ** The handlers, case by case *)

Lemma onNewConnUDP_eq n req :
  networkNewConnUDP.ack req = false →
  Network.onNewConnUDP n req =
    Some (match Network.udp n !! networkNewConnUDP.localAddr req with
          | None =>
              (Network.set_udp (<[networkNewConnUDP.localAddr req := mk [] []]>
                                  (Network.udp n)) n,
               networkNewConnUDP.mk true (networkNewConnUDP.err req)
                 (networkNewConnUDP.localAddr req))
          | Some _ =>
              (n, networkNewConnUDP.mk true (Some (Errno syscall.EADDRNOTAVAIL))
                    (networkNewConnUDP.localAddr req))
          end).
Proof.
  intros Hack. unfold Network.onNewConnUDP. rewrite Hack.
  by destruct (Network.udp n !! _).
Qed.

Lemma onDeleteConnUDP_eq n req :
  networkDeleteConnUDP.ack req = false →
  Network.onDeleteConnUDP n req =
    Some (match Network.udp n !! networkDeleteConnUDP.localAddr req with
          | None =>
              (n, networkDeleteConnUDP.mk true (Some (Errno syscall.EBADF))
                    (networkDeleteConnUDP.localAddr req))
          | Some _ =>
              (Network.set_udp (delete (networkDeleteConnUDP.localAddr req)
                                  (Network.udp n)) n,
               networkDeleteConnUDP.mk true (networkDeleteConnUDP.err req)
                 (networkDeleteConnUDP.localAddr req))
          end).
Proof.
  intros Hack. unfold Network.onDeleteConnUDP. rewrite Hack.
  by destruct (Network.udp n !! _).
Qed.

Lemma onReadUDP_unbound n m p r :
  reads m !! p = Some r →
  Network.udp n !! networkReadUDP.localAddr r = None →
  networkReadUDP.ack r = false →
  Network.onReadUDP n m p =
    Some (n, set_read p (networkReadUDP.set_ack true
                           (networkReadUDP.set_err (Some (Errno syscall.EBADF)) r)) m).
Proof.
  intros Hr Hn Hack. unfold Network.onReadUDP. rewrite Hr. simpl.
  rewrite Hn. simpl. by rewrite Hack.
Qed.

Lemma onReadUDP_park n m p r st :
  reads m !! p = Some r →
  Network.udp n !! networkReadUDP.localAddr r = Some st →
  blockedWrites st = [] →
  Network.onReadUDP n m p =
    Some (Network.set_udp (<[networkReadUDP.localAddr r :=
                              mk (blockedReads st ++ [p]) []]> (Network.udp n)) n, m).
Proof.
  intros Hr Hn Hq. unfold Network.onReadUDP. rewrite Hr. simpl.
  rewrite Hn, Hq. done.
Qed.

Lemma onReadUDP_match n m p r st q ws w :
  reads m !! p = Some r →
  Network.udp n !! networkReadUDP.localAddr r = Some st →
  blockedWrites st = q :: ws →
  writes m !! q = Some w →
  networkReadUDP.ack r = false → networkWriteUDP.ack w = false →
  Network.onReadUDP n m p =
    Some (Network.set_udp (<[networkReadUDP.localAddr r :=
                              mk (blockedReads st) ws]> (Network.udp n)) n,
          set_read p (matched_read r w)
            (set_write q (networkWriteUDP.set_ack true w) m)).
Proof.
  intros Hr Hn Hq Hw Hra Hwa. unfold Network.onReadUDP. rewrite Hr. simpl.
  rewrite Hn, Hq. by rewrite (finishReadWrite_Some _ _ _ r w).
Qed.

Lemma onWriteUDP_unbound n m p w :
  writes m !! p = Some w →
  Network.udp n !! networkWriteUDP.destAddr w = None →
  networkWriteUDP.ack w = false →
  Network.onWriteUDP n m p =
    Some (n, set_write p (networkWriteUDP.set_ack true w) m).
Proof.
  intros Hw Hn Hack. unfold Network.onWriteUDP. rewrite Hw. simpl.
  rewrite Hn. simpl. by rewrite Hack.
Qed.

Lemma onWriteUDP_park n m p w st :
  writes m !! p = Some w →
  Network.udp n !! networkWriteUDP.destAddr w = Some st →
  blockedReads st = [] →
  Network.onWriteUDP n m p =
    Some (Network.set_udp (<[networkWriteUDP.destAddr w :=
                              mk [] (blockedWrites st ++ [p])]> (Network.udp n)) n, m).
Proof.
  intros Hw Hn Hq. unfold Network.onWriteUDP. rewrite Hw. simpl.
  rewrite Hn, Hq. done.
Qed.

Lemma onWriteUDP_match n m p w st q rs r :
  writes m !! p = Some w →
  Network.udp n !! networkWriteUDP.destAddr w = Some st →
  blockedReads st = q :: rs →
  reads m !! q = Some r →
  networkReadUDP.ack r = false → networkWriteUDP.ack w = false →
  Network.onWriteUDP n m p =
    Some (Network.set_udp (<[networkWriteUDP.destAddr w :=
                              mk rs (blockedWrites st)]> (Network.udp n)) n,
          set_read q (matched_read r w)
            (set_write p (networkWriteUDP.set_ack true w) m)).
Proof.
  intros Hw Hn Hq Hr Hra Hwa. unfold Network.onWriteUDP. rewrite Hw. simpl.
  rewrite Hn, Hq. by rewrite (finishReadWrite_Some _ _ _ r w).
Qed.

(** ** Calls on an idle conn *)

Lemma commonRead_idle c w buffer :
  idle c w →
  UDPConn.commonRead c w buffer =
    let p := fresh (dom (reads (memory w))) in
    match Network.onReadUDP (network w)
            (set_read p (read_request c buffer) (memory w)) p with
    | None => [Panics]
    | Some (n, m) => UDPConn.commonRead_ack c (mkWorld n m (now w)) p
    end.
Proof.
  intros (Hc & Hn & Hd). unfold UDPConn.commonRead, select. simpl.
  rewrite Hc, Hn, Hd. simpl. by rewrite app_nil_r.
Qed.

Lemma commonRead_ack_idle c w p r :
  idle c w → reads (memory w) !! p = Some r →
  UDPConn.commonRead_ack c w p =
    if networkReadUDP.ack r
    then [Returns w (networkReadUDP.buffer r,
                     (networkReadUDP.count r, networkReadUDP.senderAddr r,
                      networkReadUDP.err r))]
    else [Waits w p].
Proof.
  intros (Hc & Hn & Hd) Hr. unfold UDPConn.commonRead_ack, select_or_wait, select.
  rewrite Hr. simpl. rewrite Hc, Hn, Hd. simpl.
  by destruct (networkReadUDP.ack r).
Qed.

Lemma commonWrite_idle c w data destAddr :
  idle c w →
  UDPConn.commonWrite c w data destAddr =
    let p := fresh (dom (writes (memory w))) in
    match Network.onWriteUDP (network w)
            (set_write p (write_request c data destAddr) (memory w)) p with
    | None => [Panics]
    | Some (n, m) =>
        UDPConn.commonWrite_ack c (mkWorld n m (now w)) (Z.of_nat (length data)) p
    end.
Proof.
  intros (Hc & Hn & Hd). unfold UDPConn.commonWrite, select. simpl.
  rewrite Hc, Hn, Hd. simpl. by rewrite app_nil_r.
Qed.

Lemma commonWrite_ack_idle c w len p r :
  idle c w → writes (memory w) !! p = Some r →
  UDPConn.commonWrite_ack c w len p =
    if networkWriteUDP.ack r
    then [Returns w (len, networkWriteUDP.err r)]
    else [Waits w p].
Proof.
  intros (Hc & Hn & Hd) Hr. unfold UDPConn.commonWrite_ack, select_or_wait, select.
  rewrite Hr. simpl. rewrite Hc, Hn, Hd. simpl.
  by destruct (networkWriteUDP.ack r).
Qed.

Lemma fresh_read_None (m : Memory) : reads m !! fresh (dom (reads m)) = None.
Proof. apply not_elem_of_dom, is_fresh. Qed.

Lemma fresh_write_None (m : Memory) : writes m !! fresh (dom (writes m)) = None.
Proof. apply not_elem_of_dom, is_fresh. Qed.

(** ** C2: the invariant of the two queues *)

(** C2. For every address state held by the network actor, at most one of
    its two queues is non-empty: every step of the actor (bind, unbind,
    send, receive) preserves the invariant, because a read request that
    arrives is matched with the oldest blocked write when there is one and
    joins the blocked reads only when there is none, and the same for a
    write request against the blocked reads. *)
Theorem actor_step_keeps_one_queue_empty
    (n : Network.t) (m : Memory) (msg : message) (n' : Network.t) (m' : Memory) :
  at_most_one_queue n →
  loop_case n m msg = Some (n', m') →
  at_most_one_queue n' ∧
  (∀ p r st, msg = readUDP p → reads m !! p = Some r →
     Network.udp n !! networkReadUDP.localAddr r = Some st →
     Network.udp n' !! networkReadUDP.localAddr r = Some (read_arrives p st)) ∧
  (∀ p w st, msg = writeUDP p → writes m !! p = Some w →
     Network.udp n !! networkWriteUDP.destAddr w = Some st →
     Network.udp n' !! networkWriteUDP.destAddr w = Some (write_arrives p st)).
Proof.
  intros Hinv Hstep. split; [by eapply loop_case_exclusive|]. split.
  - intros p r st -> Hr Hst. simpl in Hstep.
    destruct (onReadUDP_udp _ _ _ _ _ Hstep) as (r' & Hr' & ->).
    simplify_eq. rewrite Hst. apply lookup_insert_eq.
  - intros p w st -> Hw Hst. simpl in Hstep.
    destruct (onWriteUDP_udp _ _ _ _ _ Hstep) as (w' & Hw' & ->).
    simplify_eq. rewrite Hst. apply lookup_insert_eq.
Qed.

Lemma actor_step_keeps_one_queue_empty_witness :
  at_most_one_queue (Network.mk false false {[addrB := mk [] []]}).
Proof.
  refine (proj1 (actor_step_keeps_one_queue_empty ex_network ex_memory
                   (readUDP 9%nat) _
                   (mkMemory {[9%nat := matched_read ex_read ex_write]}
                             {[7%nat := networkWriteUDP.set_ack true ex_write]})
                   _ _)).
  - refine (bool_decide_unpack _ _). vm_compute. exact I.
  - vm_compute. reflexivity.
Defined.

(** ** C6: bind *)

Lemma loop_case_stays_bound a n m msg n' m' :
  is_Some (Network.udp n !! a) →
  ¬ unbinds a msg →
  loop_case n m msg = Some (n', m') →
  is_Some (Network.udp n' !! a).
Proof.
  intros Hb Hmsg Hstep. destruct msg as [req|p|p|req]; simpl in *.
  - destruct (Network.onNewConnUDP n req) as [[n1 req1]|] eqn:E; simplify_eq/=.
    rewrite (onNewConnUDP_udp _ _ _ _ E).
    destruct (Network.udp n !! networkNewConnUDP.localAddr req); [done|].
    rewrite lookup_insert_is_Some. destruct (decide (networkNewConnUDP.localAddr req = a)); auto.
  - destruct (onReadUDP_udp _ _ _ _ _ Hstep) as (r & Hr & ->).
    destruct (Network.udp n !! networkReadUDP.localAddr r); [|done].
    rewrite lookup_insert_is_Some. destruct (decide (networkReadUDP.localAddr r = a)); auto.
  - destruct (onWriteUDP_udp _ _ _ _ _ Hstep) as (w & Hw & ->).
    destruct (Network.udp n !! networkWriteUDP.destAddr w); [|done].
    rewrite lookup_insert_is_Some. destruct (decide (networkWriteUDP.destAddr w = a)); auto.
  - destruct (Network.onDeleteConnUDP n req) as [[n1 req1]|] eqn:E; simplify_eq/=.
    rewrite (onDeleteConnUDP_udp _ _ _ _ E). by rewrite lookup_delete_ne.
Qed.

Lemma loop_stays_bound a msgs : ∀ n m n' m',
  is_Some (Network.udp n !! a) →
  Forall (λ msg, ¬ unbinds a msg) msgs →
  loop n m msgs = Some (n', m') →
  is_Some (Network.udp n' !! a).
Proof.
  induction msgs as [|msg msgs IH]; intros n m n' m' Hb Hmsgs Hrun; simpl in Hrun.
  - destruct (Network.closed n); by simplify_eq.
  - destruct (Network.closed n); [by simplify_eq|].
    destruct (loop_case n m msg) as [[n1 m1]|] eqn:E; [|done]. simpl in Hrun.
    inversion Hmsgs; subst.
    eapply IH; [|done..]. by eapply loop_case_stays_bound.
Qed.

Lemma onNewConnUDP_bound n req n' req' :
  Network.onNewConnUDP n req = Some (n', req') →
  is_Some (Network.udp n' !! networkNewConnUDP.localAddr req).
Proof.
  intros H. rewrite (onNewConnUDP_udp _ _ _ _ H).
  destruct (Network.udp n !! _) eqn:E; [by rewrite E|].
  rewrite lookup_insert_eq. done.
Qed.

Lemma NewUDPConn_running w a peer :
  Network.closed (network w) = false →
  UDPConn.NewUDPConn w a peer =
    match Network.udp (network w) !! a with
    | None =>
        [Returns (mkWorld (Network.set_udp (<[a := mk [] []]> (Network.udp (network w)))
                             (network w)) (memory w) (now w))
                 (Some (new_conn a peer), None)]
    | Some _ =>
        [Returns w (Some (new_conn a peer), Some (Errno syscall.EADDRNOTAVAIL))]
    end.
Proof.
  intros Hopen. unfold UDPConn.NewUDPConn, select. simpl. rewrite Hopen. simpl.
  rewrite onNewConnUDP_eq by done. simpl.
  destruct (Network.udp (network w) !! a); simpl.
  - unfold UDPConn.NewUDPConn_ack, select_or_wait, select. simpl.
    rewrite Hopen. simpl. by destruct w.
  - unfold UDPConn.NewUDPConn_ack, select_or_wait, select. simpl.
    rewrite Hopen. done.
Qed.

(** C6, as the code has it. [Bind(addr)] creates an empty address state
    for [addr] when none exists and fails when one exists, with the error
    [syscall.EADDRNOTAVAIL] (address not available), which is not the
    address-in-use error [syscall.EADDRINUSE]; binding the same address
    twice without an unbind of it in between fails that way on the second
    attempt; [NewUDPConn] on a running network returns the error of the
    actor. *)
Theorem bind_creates_state_or_fails_EADDRNOTAVAIL :
  (∀ n req,
     networkNewConnUDP.ack req = false →
     Network.onNewConnUDP n req =
       Some (match Network.udp n !! networkNewConnUDP.localAddr req with
             | None =>
                 (Network.set_udp
                    (<[networkNewConnUDP.localAddr req := mk [] []]> (Network.udp n)) n,
                  networkNewConnUDP.mk true (networkNewConnUDP.err req)
                    (networkNewConnUDP.localAddr req))
             | Some _ =>
                 (n, networkNewConnUDP.mk true (Some (Errno syscall.EADDRNOTAVAIL))
                       (networkNewConnUDP.localAddr req))
             end)) ∧
  (∀ n req1 n1 req1' m msgs n2 m2 req2,
     Network.onNewConnUDP n req1 = Some (n1, req1') →
     Forall (λ msg, ¬ unbinds (networkNewConnUDP.localAddr req1) msg) msgs →
     loop n1 m msgs = Some (n2, m2) →
     networkNewConnUDP.localAddr req2 = networkNewConnUDP.localAddr req1 →
     networkNewConnUDP.ack req2 = false →
     Network.onNewConnUDP n2 req2 =
       Some (n2, networkNewConnUDP.mk true (Some (Errno syscall.EADDRNOTAVAIL))
                   (networkNewConnUDP.localAddr req1))) ∧
  (∀ w a peer,
     Network.closed (network w) = false →
     UDPConn.NewUDPConn w a peer =
       match Network.udp (network w) !! a with
       | None =>
           [Returns (mkWorld (Network.set_udp (<[a := mk [] []]> (Network.udp (network w)))
                                (network w)) (memory w) (now w))
                    (Some (new_conn a peer), None)]
       | Some _ =>
           [Returns w (Some (new_conn a peer), Some (Errno syscall.EADDRNOTAVAIL))]
       end) ∧
  Errno syscall.EADDRNOTAVAIL ≠ Errno syscall.EADDRINUSE.
Proof.
  split; [exact onNewConnUDP_eq|]. split; [|split; [exact NewUDPConn_running|done]].
  intros n req1 n1 req1' m msgs n2 m2 req2 H1 Hmsgs Hrun Haddr Hack.
  pose proof (onNewConnUDP_bound _ _ _ _ H1) as Hb.
  pose proof (loop_stays_bound _ _ _ _ _ _ Hb Hmsgs Hrun) as [st Hst].
  rewrite onNewConnUDP_eq by done. rewrite Haddr, Hst. done.
Qed.

Lemma bind_creates_state_or_fails_EADDRNOTAVAIL_witness :
  UDPConn.NewUDPConn world0 addrA netip.zero =
    [Returns worldA (Some (new_conn addrA netip.zero), None)] ∧
  UDPConn.NewUDPConn worldA addrA netip.zero =
    [Returns worldA (Some (new_conn addrA netip.zero),
                     Some (Errno syscall.EADDRNOTAVAIL))].
Proof.
  destruct bind_creates_state_or_fails_EADDRNOTAVAIL as (_ & _ & H & _).
  split.
  - rewrite (H world0 addrA netip.zero); [|reflexivity]. vm_compute. reflexivity.
  - rewrite (H worldA addrA netip.zero); [|reflexivity]. vm_compute. reflexivity.
Defined.

(** C6 as stated fails: the second bind of [addrA] does not fail with the
    address-in-use error. *)
Lemma second_bind_is_not_EADDRINUSE :
  UDPConn.NewUDPConn world0 addrA netip.zero =
    [Returns worldA (Some (new_conn addrA netip.zero), None)] ∧
  ¬ ∃ w c, Returns w (c, Some (Errno syscall.EADDRINUSE))
             ∈ UDPConn.NewUDPConn worldA addrA netip.zero.
Proof.
  split; [vm_compute; reflexivity|].
  intros (w & c & Hin).
  assert (UDPConn.NewUDPConn worldA addrA netip.zero =
            [Returns worldA (Some (new_conn addrA netip.zero),
                             Some (Errno syscall.EADDRNOTAVAIL))]) as E
    by (vm_compute; reflexivity).
  rewrite E in Hin. apply list_elem_of_singleton in Hin. discriminate Hin.
Qed.

(** ** C10: a request that fails changes nothing *)

(** C10. Every operation of the actor that fails leaves the address map
    unchanged: a bind that fails (the address is taken), a receive that
    fails with [EBADF] and an unbind that fails with [EBADF] each return
    their error without adding, removing or changing any address state or
    any queue; the receive writes to nothing but its own request.  A
    request fails when its [err], [nil] when it was issued, is set once
    it is handled. *)
Theorem failed_request_changes_nothing :
  (∀ n req n' req',
     networkNewConnUDP.err req = None →
     Network.onNewConnUDP n req = Some (n', req') →
     networkNewConnUDP.err req' ≠ None →
     n' = n ∧ networkNewConnUDP.err req' = Some (Errno syscall.EADDRNOTAVAIL)) ∧
  (∀ n m p r n' m' r',
     reads m !! p = Some r →
     networkReadUDP.err r = None →
     Network.onReadUDP n m p = Some (n', m') →
     reads m' !! p = Some r' →
     networkReadUDP.err r' ≠ None →
     n' = n ∧ m' = set_read p r' m ∧
     networkReadUDP.err r' = Some (Errno syscall.EBADF)) ∧
  (∀ n req n' req',
     networkDeleteConnUDP.err req = None →
     Network.onDeleteConnUDP n req = Some (n', req') →
     networkDeleteConnUDP.err req' ≠ None →
     n' = n ∧ networkDeleteConnUDP.err req' = Some (Errno syscall.EBADF)).
Proof.
  split; [|split].
  - intros n req n' req' Herr H Hfail. unfold Network.onNewConnUDP in H.
    destruct (Network.udp n !! _); simplify_option_eq; done.
  - intros n m p r n' m' r' Hr Herr H Hr' Hfail. unfold Network.onReadUDP in H.
    rewrite Hr in H. simpl in H.
    destruct (Network.udp n !! _) as [[rs [|q ws]]|]; simpl in H.
    + simplify_eq; congruence.
    + destruct (Network.finishReadWrite m p q) as [m1|] eqn:E; [|done].
      simpl in H. simplify_eq.
      apply finishReadWrite_inv in E as (r0 & w & Hr0 & Hw & _ & _ & ->).
      simpl in Hr'. rewrite lookup_insert_eq in Hr'.
      injection Hr' as <-. simpl in Hfail. congruence.
    + destruct (close _) as [a|] eqn:Ec; [|done]. simpl in H. simplify_eq.
      simpl in Hr'. rewrite lookup_insert_eq in Hr'.
      injection Hr' as <-. done.
  - intros n req n' req' Herr H Hfail. unfold Network.onDeleteConnUDP in H.
    destruct (Network.udp n !! _); simplify_option_eq; done.
Qed.

(** The read request [9] arrives while its address, [addrB], is not bound. *)
Lemma failed_request_changes_nothing_witness :
  Network.NewNetwork = Network.NewNetwork ∧
  mkMemory {[9%nat := networkReadUDP.set_ack true
                        (networkReadUDP.set_err (Some (Errno syscall.EBADF)) ex_read)]}
           {[7%nat := ex_write]}
  = set_read 9%nat
      (networkReadUDP.set_ack true
         (networkReadUDP.set_err (Some (Errno syscall.EBADF)) ex_read)) ex_memory ∧
  networkReadUDP.err
    (networkReadUDP.set_ack true
       (networkReadUDP.set_err (Some (Errno syscall.EBADF)) ex_read))
  = Some (Errno syscall.EBADF).
Proof.
  destruct failed_request_changes_nothing as (_ & H & _).
  apply (H Network.NewNetwork ex_memory 9%nat ex_read).
  - vm_compute. reflexivity.
  - reflexivity.
  - vm_compute. reflexivity.
  - vm_compute. reflexivity.
  - simpl. discriminate.
Defined.

(** ** Requests the actor cannot reach *)

Lemma onReadUDP_reads n m q n' m' p :
  Network.onReadUDP n m q = Some (n', m') →
  p ≠ q → reads m' !! p = reads m !! p.
Proof.
  unfold Network.onReadUDP. intros H Hne.
  destruct (reads m !! q) as [r|] eqn:Er; [|done]. simpl in H.
  destruct (Network.udp n !! _) as [[rs [|w ws]]|]; simpl in H.
  - by simplify_eq.
  - destruct (Network.finishReadWrite m q w) as [m1|] eqn:E; [|done].
    simpl in H. simplify_eq.
    apply finishReadWrite_inv in E as (r0 & w0 & _ & _ & _ & _ & ->).
    simpl. by rewrite lookup_insert_ne.
  - destruct (close _); [|done]. simpl in H. simplify_eq.
    simpl. by rewrite lookup_insert_ne.
Qed.

Lemma onReadUDP_writes n m q n' m' p :
  Network.onReadUDP n m q = Some (n', m') →
  ¬ parked_write n p → writes m' !! p = writes m !! p.
Proof.
  unfold Network.onReadUDP. intros H Hnp.
  destruct (reads m !! q) as [r|] eqn:Er; [|done]. simpl in H.
  destruct (Network.udp n !! _) as [[rs [|w ws]]|] eqn:Est; simpl in H.
  - by simplify_eq.
  - destruct (Network.finishReadWrite m q w) as [m1|] eqn:E; [|done].
    simpl in H. simplify_eq.
    apply finishReadWrite_inv in E as (r0 & w0 & _ & _ & _ & _ & ->).
    simpl. rewrite lookup_insert_ne; [done|].
    intros ->. apply Hnp. eexists _, _. split; [exact Est|]. simpl. left.
  - destruct (close _); [|done]. simpl in H. by simplify_eq.
Qed.

Lemma onWriteUDP_writes n m q n' m' p :
  Network.onWriteUDP n m q = Some (n', m') →
  p ≠ q → writes m' !! p = writes m !! p.
Proof.
  unfold Network.onWriteUDP. intros H Hne.
  destruct (writes m !! q) as [w|] eqn:Ew; [|done]. simpl in H.
  destruct (Network.udp n !! _) as [[[|r rs] ws]|]; simpl in H.
  - by simplify_eq.
  - destruct (Network.finishReadWrite m r q) as [m1|] eqn:E; [|done].
    simpl in H. simplify_eq.
    apply finishReadWrite_inv in E as (r0 & w0 & _ & _ & _ & _ & ->).
    simpl. by rewrite lookup_insert_ne.
  - destruct (close _); [|done]. simpl in H. simplify_eq.
    simpl. by rewrite lookup_insert_ne.
Qed.

Lemma onWriteUDP_reads n m q n' m' p :
  Network.onWriteUDP n m q = Some (n', m') →
  ¬ parked_read n p → reads m' !! p = reads m !! p.
Proof.
  unfold Network.onWriteUDP. intros H Hnp.
  destruct (writes m !! q) as [w|] eqn:Ew; [|done]. simpl in H.
  destruct (Network.udp n !! _) as [[[|r rs] ws]|] eqn:Est; simpl in H.
  - by simplify_eq.
  - destruct (Network.finishReadWrite m r q) as [m1|] eqn:E; [|done].
    simpl in H. simplify_eq.
    apply finishReadWrite_inv in E as (r0 & w0 & _ & _ & _ & _ & ->).
    simpl. rewrite lookup_insert_ne; [done|].
    intros ->. apply Hnp. eexists _, _. split; [exact Est|]. simpl. left.
  - destruct (close _); [|done]. simpl in H. by simplify_eq.
Qed.

(** A request gets into a queue only by arriving. *)
Lemma loop_case_parked_read p n m msg n' m' :
  loop_case n m msg = Some (n', m') →
  msg ≠ readUDP p →
  parked_read n' p → parked_read n p.
Proof.
  intros Hstep Hmsg (a & st & Hst & Hin).
  destruct msg as [req|q|q|req]; simpl in Hstep.
  - destruct (Network.onNewConnUDP n req) as [[n1 req1]|] eqn:E; simplify_eq/=.
    rewrite (onNewConnUDP_udp _ _ _ _ E) in Hst.
    destruct (Network.udp n !! networkNewConnUDP.localAddr req); [by exists a, st|].
    apply lookup_insert_Some in Hst as [[_ <-]|[_ Hst]]; [by inversion Hin|by exists a, st].
  - destruct (onReadUDP_udp _ _ _ _ _ Hstep) as (r & Hr & Hudp). rewrite Hudp in Hst.
    destruct (Network.udp n !! networkReadUDP.localAddr r) as [st0|] eqn:E0; [|by exists a, st].
    apply lookup_insert_Some in Hst as [[<- <-]|[_ Hst]]; [|by exists a, st].
    exists (networkReadUDP.localAddr r), st0. split; [done|].
    unfold read_arrives in Hin. destruct (blockedWrites st0); simpl in Hin; [|done].
    apply elem_of_app in Hin as [?|Hin]; [done|].
    apply list_elem_of_singleton in Hin. congruence.
  - destruct (onWriteUDP_udp _ _ _ _ _ Hstep) as (w & Hw & Hudp). rewrite Hudp in Hst.
    destruct (Network.udp n !! networkWriteUDP.destAddr w) as [st0|] eqn:E0; [|by exists a, st].
    apply lookup_insert_Some in Hst as [[<- <-]|[_ Hst]]; [|by exists a, st].
    exists (networkWriteUDP.destAddr w), st0. split; [done|].
    unfold write_arrives in Hin. destruct (blockedReads st0); simpl in Hin; [by inversion Hin|].
    by right.
  - destruct (Network.onDeleteConnUDP n req) as [[n1 req1]|] eqn:E; simplify_eq/=.
    rewrite (onDeleteConnUDP_udp _ _ _ _ E) in Hst.
    apply lookup_delete_Some in Hst as [_ Hst]. by exists a, st.
Qed.

Lemma loop_case_parked_write p n m msg n' m' :
  loop_case n m msg = Some (n', m') →
  msg ≠ writeUDP p →
  parked_write n' p → parked_write n p.
Proof.
  intros Hstep Hmsg (a & st & Hst & Hin).
  destruct msg as [req|q|q|req]; simpl in Hstep.
  - destruct (Network.onNewConnUDP n req) as [[n1 req1]|] eqn:E; simplify_eq/=.
    rewrite (onNewConnUDP_udp _ _ _ _ E) in Hst.
    destruct (Network.udp n !! networkNewConnUDP.localAddr req); [by exists a, st|].
    apply lookup_insert_Some in Hst as [[_ <-]|[_ Hst]]; [by inversion Hin|by exists a, st].
  - destruct (onReadUDP_udp _ _ _ _ _ Hstep) as (r & Hr & Hudp). rewrite Hudp in Hst.
    destruct (Network.udp n !! networkReadUDP.localAddr r) as [st0|] eqn:E0; [|by exists a, st].
    apply lookup_insert_Some in Hst as [[<- <-]|[_ Hst]]; [|by exists a, st].
    exists (networkReadUDP.localAddr r), st0. split; [done|].
    unfold read_arrives in Hin. destruct (blockedWrites st0); simpl in Hin; [by inversion Hin|].
    by right.
  - destruct (onWriteUDP_udp _ _ _ _ _ Hstep) as (w & Hw & Hudp). rewrite Hudp in Hst.
    destruct (Network.udp n !! networkWriteUDP.destAddr w) as [st0|] eqn:E0; [|by exists a, st].
    apply lookup_insert_Some in Hst as [[<- <-]|[_ Hst]]; [|by exists a, st].
    exists (networkWriteUDP.destAddr w), st0. split; [done|].
    unfold write_arrives in Hin. destruct (blockedReads st0); simpl in Hin; [|done].
    apply elem_of_app in Hin as [?|Hin]; [done|].
    apply list_elem_of_singleton in Hin. congruence.
  - destruct (Network.onDeleteConnUDP n req) as [[n1 req1]|] eqn:E; simplify_eq/=.
    rewrite (onDeleteConnUDP_udp _ _ _ _ E) in Hst.
    apply lookup_delete_Some in Hst as [_ Hst]. by exists a, st.
Qed.

(** The actor writes to no read request but the one that arrives and those
    it has parked; the same for the write requests. *)
Lemma loop_case_reads p n m msg n' m' :
  loop_case n m msg = Some (n', m') →
  msg ≠ readUDP p → ¬ parked_read n p →
  reads m' !! p = reads m !! p.
Proof.
  intros Hstep Hmsg Hnp. destruct msg as [req|q|q|req]; simpl in Hstep.
  - destruct (Network.onNewConnUDP n req) as [[n1 req1]|]; by simplify_eq/=.
  - eapply onReadUDP_reads; [done|congruence].
  - by eapply onWriteUDP_reads.
  - destruct (Network.onDeleteConnUDP n req) as [[n1 req1]|]; by simplify_eq/=.
Qed.

Lemma loop_case_writes p n m msg n' m' :
  loop_case n m msg = Some (n', m') →
  msg ≠ writeUDP p → ¬ parked_write n p →
  writes m' !! p = writes m !! p.
Proof.
  intros Hstep Hmsg Hnp. destruct msg as [req|q|q|req]; simpl in Hstep.
  - destruct (Network.onNewConnUDP n req) as [[n1 req1]|]; by simplify_eq/=.
  - by eapply onReadUDP_writes.
  - eapply onWriteUDP_writes; [done|congruence].
  - destruct (Network.onDeleteConnUDP n req) as [[n1 req1]|]; by simplify_eq/=.
Qed.

Lemma loop_reads p msgs : ∀ n m n' m',
  loop n m msgs = Some (n', m') →
  Forall (λ msg, msg ≠ readUDP p) msgs → ¬ parked_read n p →
  reads m' !! p = reads m !! p ∧ ¬ parked_read n' p.
Proof.
  induction msgs as [|msg msgs IH]; intros n m n' m' Hrun Hmsgs Hnp; simpl in Hrun.
  - destruct (Network.closed n); by simplify_eq.
  - destruct (Network.closed n); [by simplify_eq|].
    destruct (loop_case n m msg) as [[n1 m1]|] eqn:E; [|done]. simpl in Hrun.
    inversion Hmsgs; subst.
    destruct (IH n1 m1 n' m') as [-> ?]; [done..| |].
    + intros Hp. eapply Hnp, loop_case_parked_read; done.
    + split; [|done]. by eapply loop_case_reads.
Qed.

Lemma loop_writes p msgs : ∀ n m n' m',
  loop n m msgs = Some (n', m') →
  Forall (λ msg, msg ≠ writeUDP p) msgs → ¬ parked_write n p →
  writes m' !! p = writes m !! p ∧ ¬ parked_write n' p.
Proof.
  induction msgs as [|msg msgs IH]; intros n m n' m' Hrun Hmsgs Hnp; simpl in Hrun.
  - destruct (Network.closed n); by simplify_eq.
  - destruct (Network.closed n); [by simplify_eq|].
    destruct (loop_case n m msg) as [[n1 m1]|] eqn:E; [|done]. simpl in Hrun.
    inversion Hmsgs; subst.
    destruct (IH n1 m1 n' m') as [-> ?]; [done..| |].
    + intros Hp. eapply Hnp, loop_case_parked_write; done.
    + split; [|done]. by eapply loop_case_writes.
Qed.

(** ** A write request that no queue holds is seen by nobody *)

Lemma same_but_write_set_read p q r m1 m2 :
  same_but_write p m1 m2 →
  same_but_write p (set_read q r m1) (set_read q r m2).
Proof. intros [Hr Hw]. split; simpl; [by rewrite Hr|done]. Qed.

Lemma same_but_write_set_write p q w m1 m2 :
  same_but_write p m1 m2 →
  same_but_write p (set_write q w m1) (set_write q w m2).
Proof.
  intros [Hr Hw]. split; simpl; [done|]. intros q' Hq'.
  destruct (decide (q = q')) as [->|].
  - by rewrite !lookup_insert_eq.
  - rewrite !lookup_insert_ne by done. auto.
Qed.

Lemma finishReadWrite_without_write p m1 m2 q w :
  same_but_write p m1 m2 → w ≠ p →
  both (same_but_write p)
    (Network.finishReadWrite m1 q w) (Network.finishReadWrite m2 q w).
Proof.
  intros Hm Hne. pose proof Hm as [Hr Hw].
  unfold Network.finishReadWrite. rewrite Hr, (Hw w) by done.
  destruct (reads m2 !! q) as [r|]; [|done].
  destruct (writes m2 !! w) as [x|]; [|done]. simpl.
  destruct (networkWriteUDP.ack x); [done|].
  destruct (networkReadUDP.ack r); [done|]. simpl.
  by apply same_but_write_set_read, same_but_write_set_write.
Qed.

Lemma loop_case_without_write p n m1 m2 msg :
  same_but_write p m1 m2 → msg ≠ writeUDP p → ¬ parked_write n p →
  both (λ x y, x.1 = y.1 ∧ same_but_write p x.2 y.2)
    (loop_case n m1 msg) (loop_case n m2 msg).
Proof.
  intros Hm Hmsg Hnp. pose proof Hm as [Hr Hw].
  destruct msg as [req|q|q|req]; simpl.
  - by destruct (Network.onNewConnUDP n req) as [[n1 req1]|].
  - unfold Network.onReadUDP. rewrite Hr.
    destruct (reads m2 !! q) as [r|]; [|done]. simpl.
    destruct (Network.udp n !! _) as [[rs [|w ws]]|] eqn:Est; simpl.
    + done.
    + assert (w ≠ p) as Hne.
      { intros ->. apply Hnp. eexists _, _. split; [exact Est|]. left. }
      pose proof (finishReadWrite_without_write p m1 m2 q w Hm Hne) as Hf.
      destruct (Network.finishReadWrite m1 q w), (Network.finishReadWrite m2 q w);
        simpl in *; done.
    + destruct (close _); [|done]. simpl. split; [done|].
      by apply same_but_write_set_read.
  - assert (q ≠ p) as Hq by congruence.
    unfold Network.onWriteUDP. rewrite (Hw q) by done.
    destruct (writes m2 !! q) as [w|]; [|done]. simpl.
    destruct (Network.udp n !! _) as [[[|r rs] ws]|] eqn:Est; simpl.
    + done.
    + pose proof (finishReadWrite_without_write p m1 m2 r q Hm Hq) as Hf.
      destruct (Network.finishReadWrite m1 r q), (Network.finishReadWrite m2 r q);
        simpl in *; done.
    + destruct (close _); [|done]. simpl. split; [done|].
      by apply same_but_write_set_write.
  - by destruct (Network.onDeleteConnUDP n req) as [[n1 req1]|].
Qed.

Lemma loop_without_write p msgs : ∀ n m1 m2,
  same_but_write p m1 m2 →
  Forall (λ msg, msg ≠ writeUDP p) msgs → ¬ parked_write n p →
  both (λ x y, x.1 = y.1 ∧ same_but_write p x.2 y.2)
    (loop n m1 msgs) (loop n m2 msgs).
Proof.
  induction msgs as [|msg msgs IH]; intros n m1 m2 Hm Hmsgs Hnp; simpl.
  - by destruct (Network.closed n).
  - destruct (Network.closed n); [done|].
    inversion Hmsgs; subst.
    pose proof (loop_case_without_write p n m1 m2 msg Hm ltac:(done) Hnp) as Hc.
    destruct (loop_case n m1 msg) as [[n1 m1']|] eqn:E1,
             (loop_case n m2 msg) as [[n2 m2']|] eqn:E2; simpl in *; try done.
    destruct Hc as [-> Hm']. apply IH; [done..|].
    intros Hp. eapply Hnp, loop_case_parked_write; done.
Qed.

(** ** C5: a send to an address that is not bound *)

(** C5. For every send whose destination address has no address state,
    the send resolves at once and successfully (its ack is closed, its
    error is left [nil]), and the network (the address map and every
    queue) and every other request are left as they were; and no receive
    ever observes the payload: whatever arrives afterwards, the network
    and all the read requests end up exactly as in the run where the write
    request was never there.  For the caller, on an idle conn,
    [commonWrite] returns [len(data)] and no error, at once. *)
Theorem send_to_unbound_is_dropped :
  (∀ n m p w,
     writes m !! p = Some w →
     Network.udp n !! networkWriteUDP.destAddr w = None →
     networkWriteUDP.ack w = false →
     ¬ parked_write n p →
     Network.onWriteUDP n m p
       = Some (n, set_write p (networkWriteUDP.set_ack true w) m) ∧
     networkWriteUDP.err (networkWriteUDP.set_ack true w) = networkWriteUDP.err w ∧
     ∀ msgs, Forall (λ msg, msg ≠ writeUDP p) msgs →
       both (λ x y, x.1 = y.1 ∧ reads x.2 = reads y.2)
         (loop n (set_write p (networkWriteUDP.set_ack true w) m) msgs)
         (loop n (mkMemory (reads m) (delete p (writes m))) msgs)) ∧
  (∀ c w data destAddr,
     idle c w →
     Network.udp (network w) !! destAddr = None →
     UDPConn.commonWrite c w data destAddr =
       [Returns (mkWorld (network w)
                   (set_write (fresh (dom (writes (memory w))))
                      (networkWriteUDP.set_ack true (write_request c data destAddr))
                      (memory w))
                   (now w))
                (Z.of_nat (length data), None)]).
Proof.
  split.
  - intros n m p w Hw Hn Hack Hnp.
    split; [by apply onWriteUDP_unbound|]. split; [done|].
    intros msgs Hmsgs.
    pose proof (loop_without_write p msgs n
                  (set_write p (networkWriteUDP.set_ack true w) m)
                  (mkMemory (reads m) (delete p (writes m)))) as H.
    destruct (loop n (set_write p _ m) msgs) as [[n1 m1]|],
             (loop n (mkMemory _ _) msgs) as [[n2 m2]|]; simpl in *.
    + destruct H as [? [? _]]; try done.
      split; [done|]. intros q Hq. simpl.
      by rewrite lookup_insert_ne, lookup_delete_ne.
    + apply H; try done. split; [done|]. intros q Hq. simpl.
      by rewrite lookup_insert_ne, lookup_delete_ne.
    + apply H; try done. split; [done|]. intros q Hq. simpl.
      by rewrite lookup_insert_ne, lookup_delete_ne.
    + done.
  - intros c w data destAddr Hi Hn.
    rewrite commonWrite_idle by done. cbv zeta.
    set (p := fresh (dom (writes (memory w)))).
    rewrite (onWriteUDP_unbound _ _ p (write_request c data destAddr)); [| |done..].
    2:{ simpl. apply lookup_insert_eq. }
    rewrite (commonWrite_ack_idle c _ _ p
               (networkWriteUDP.set_ack true (write_request c data destAddr))).
    + simpl. do 3 f_equal. unfold set_write. simpl. by rewrite insert_insert_eq.
    + destruct Hi as (? & ? & ?). by split.
    + simpl. apply lookup_insert_eq.
Qed.

(** The write request [8], to [addrC], arrives while [addrC] is not bound. *)
Lemma send_to_unbound_is_dropped_witness :
  Network.onWriteUDP ex_network
    (set_write 8%nat ex_dropped ex_memory) 8%nat
  = Some (ex_network,
          set_write 8%nat (networkWriteUDP.set_ack true ex_dropped)
            (set_write 8%nat ex_dropped ex_memory)).
Proof.
  destruct send_to_unbound_is_dropped as [H _].
  refine (proj1 (H ex_network
                   (set_write 8%nat ex_dropped ex_memory) 8%nat ex_dropped
                   _ _ _ _)).
  - vm_compute. reflexivity.
  - vm_compute. reflexivity.
  - reflexivity.
  - refine (bool_decide_unpack _ _). vm_compute. exact I.
Defined.

(** ** The parked requests are well formed *)

Lemma queues_ok_frame m m' a st :
  queues_ok m a st →
  (∀ p, p ∈ blockedReads st → reads m' !! p = reads m !! p) →
  (∀ p, p ∈ blockedWrites st → writes m' !! p = writes m !! p) →
  queues_ok m' a st.
Proof.
  intros (Hr & Hw & Hrs & Hws) Hfr Hfw.
  split; [done|]. split; [done|]. split.
  - apply list.Forall_forall. intros p Hp. unfold parked_read_ok.
    rewrite Hfr by done. by eapply (proj1 (list.Forall_forall _ _) Hrs).
  - apply list.Forall_forall. intros p Hp. unfold parked_write_ok.
    rewrite Hfw by done. by eapply (proj1 (list.Forall_forall _ _) Hws).
Qed.

Lemma parked_ok_read_addr n m a st p r :
  parked_ok n m → Network.udp n !! a = Some st → p ∈ blockedReads st →
  reads m !! p = Some r →
  networkReadUDP.localAddr r = a ∧ networkReadUDP.ack r = false.
Proof.
  intros Hok Hst Hp Hr. destruct (Hok a st Hst) as (_ & _ & Hrs & _).
  pose proof (proj1 (list.Forall_forall _ _) Hrs p Hp) as H.
  unfold parked_read_ok in H. by rewrite Hr in H.
Qed.

Lemma parked_ok_write_addr n m a st p w :
  parked_ok n m → Network.udp n !! a = Some st → p ∈ blockedWrites st →
  writes m !! p = Some w →
  networkWriteUDP.destAddr w = a ∧ networkWriteUDP.ack w = false.
Proof.
  intros Hok Hst Hp Hw. destruct (Hok a st Hst) as (_ & _ & _ & Hws).
  pose proof (proj1 (list.Forall_forall _ _) Hws p Hp) as H.
  unfold parked_write_ok in H. by rewrite Hw in H.
Qed.

Lemma parked_ok_read_alloc n m a st p :
  parked_ok n m → Network.udp n !! a = Some st → p ∈ blockedReads st →
  ∃ r, reads m !! p = Some r ∧
    networkReadUDP.localAddr r = a ∧ networkReadUDP.ack r = false.
Proof.
  intros Hok Hst Hp. destruct (Hok a st Hst) as (_ & _ & Hrs & _).
  pose proof (proj1 (list.Forall_forall _ _) Hrs p Hp) as H.
  unfold parked_read_ok in H. destruct (reads m !! p) as [r|]; [|done].
  by exists r.
Qed.

Lemma parked_ok_write_alloc n m a st p :
  parked_ok n m → Network.udp n !! a = Some st → p ∈ blockedWrites st →
  ∃ w, writes m !! p = Some w ∧
    networkWriteUDP.destAddr w = a ∧ networkWriteUDP.ack w = false.
Proof.
  intros Hok Hst Hp. destruct (Hok a st Hst) as (_ & _ & _ & Hws).
  pose proof (proj1 (list.Forall_forall _ _) Hws p Hp) as H.
  unfold parked_write_ok in H. destruct (writes m !! p) as [w|]; [|done].
  by exists w.
Qed.

(** A well formed request is parked at one address only. *)
Lemma parked_read_once n m a st b st' p :
  parked_ok n m →
  Network.udp n !! a = Some st → p ∈ blockedReads st →
  Network.udp n !! b = Some st' → p ∈ blockedReads st' →
  a = b.
Proof.
  intros Hok Ha Hpa Hb Hpb.
  destruct (parked_ok_read_alloc _ _ _ _ _ Hok Ha Hpa) as (r & Hr & <- & _).
  by destruct (parked_ok_read_addr _ _ _ _ _ _ Hok Hb Hpb Hr) as [-> _].
Qed.

Lemma parked_write_once n m a st b st' p :
  parked_ok n m →
  Network.udp n !! a = Some st → p ∈ blockedWrites st →
  Network.udp n !! b = Some st' → p ∈ blockedWrites st' →
  a = b.
Proof.
  intros Hok Ha Hpa Hb Hpb.
  destruct (parked_ok_write_alloc _ _ _ _ _ Hok Ha Hpa) as (w & Hw & <- & _).
  by destruct (parked_ok_write_addr _ _ _ _ _ _ Hok Hb Hpb Hw) as [-> _].
Qed.

Lemma not_parked_read_neq n a st p x :
  ¬ parked_read n p → Network.udp n !! a = Some st → x ∈ blockedReads st → x ≠ p.
Proof. intros Hnp Hst Hx ->. apply Hnp. by exists a, st. Qed.

Lemma not_parked_write_neq n a st p x :
  ¬ parked_write n p → Network.udp n !! a = Some st → x ∈ blockedWrites st → x ≠ p.
Proof. intros Hnp Hst Hx ->. apply Hnp. by exists a, st. Qed.

Lemma onReadUDP_parked_ok n m p n' m' :
  parked_ok n m → arrives_ok n m (readUDP p) →
  Network.onReadUDP n m p = Some (n', m') →
  parked_ok n' m'.
Proof.
  intros Hok [Hnp Hack] Hstep.
  destruct (reads m !! p) as [r|] eqn:Hr; [|done].
  destruct (Network.udp n !! networkReadUDP.localAddr r) as [st|] eqn:Est.
  - destruct (Hok _ _ Est) as (Hnr & Hnw & Hrs & Hws).
    destruct (blockedWrites st) as [|q ws] eqn:Eq.
    + rewrite (onReadUDP_park _ _ _ r st) in Hstep by done. simplify_eq.
      intros b stb Hb. simpl in Hb.
      apply lookup_insert_Some in Hb as [[<- <-]|[Hne Hb]]; [|by apply Hok].
      split; [|split; [|split]]; simpl.
      * apply list.NoDup_app. split; [done|]. split; [|apply list.NoDup_singleton].
        intros x Hx Hx'. apply list_elem_of_singleton in Hx'.
        by eapply not_parked_read_neq.
      * apply base.NoDup_nil_2.
      * apply list.Forall_app. split; [done|]. apply list.Forall_singleton.
        unfold parked_read_ok. by rewrite Hr.
      * done.
    + destruct (parked_ok_write_alloc n m _ st q Hok Est) as (w & Hw & Hdst & Hwa).
      { rewrite Eq. left. }
      rewrite (onReadUDP_match _ _ _ r st q ws w) in Hstep by done. simplify_eq.
      apply list.NoDup_cons in Hnw as [Hq Hnw]. apply list.Forall_cons in Hws as [_ Hws].
      intros b stb Hb. simpl in Hb.
      apply lookup_insert_Some in Hb as [[<- <-]|[Hne Hb]].
      * apply (queues_ok_frame m); [done|..]; simpl.
        -- intros x Hx. rewrite lookup_insert_ne; [done|].
           apply not_eq_sym. by eapply not_parked_read_neq.
        -- intros x Hx. rewrite lookup_insert_ne; [done|]. by intros ->.
      * apply (queues_ok_frame m); [by apply Hok|..]; simpl.
        -- intros x Hx. rewrite lookup_insert_ne; [done|].
           apply not_eq_sym. by eapply not_parked_read_neq.
        -- intros x Hx. rewrite lookup_insert_ne; [done|]. intros ->.
           apply Hne. eapply (parked_write_once n m); [done|exact Est| |exact Hb|done].
           rewrite Eq. left.
  - rewrite (onReadUDP_unbound _ _ _ r) in Hstep by done. simplify_eq.
    intros b stb Hb. apply (queues_ok_frame m); [by apply Hok|..]; simpl.
    + intros x Hx. rewrite lookup_insert_ne; [done|].
      apply not_eq_sym. by eapply not_parked_read_neq.
    + done.
Qed.

Lemma onWriteUDP_parked_ok n m p n' m' :
  parked_ok n m → arrives_ok n m (writeUDP p) →
  Network.onWriteUDP n m p = Some (n', m') →
  parked_ok n' m'.
Proof.
  intros Hok [Hnp Hack] Hstep.
  destruct (writes m !! p) as [w|] eqn:Hw; [|done].
  destruct (Network.udp n !! networkWriteUDP.destAddr w) as [st|] eqn:Est.
  - destruct (Hok _ _ Est) as (Hnr & Hnw & Hrs & Hws).
    destruct (blockedReads st) as [|q rs] eqn:Eq.
    + rewrite (onWriteUDP_park _ _ _ w st) in Hstep by done. simplify_eq.
      intros b stb Hb. simpl in Hb.
      apply lookup_insert_Some in Hb as [[<- <-]|[Hne Hb]]; [|by apply Hok].
      split; [|split; [|split]]; simpl.
      * apply base.NoDup_nil_2.
      * apply list.NoDup_app. split; [done|]. split; [|apply list.NoDup_singleton].
        intros x Hx Hx'. apply list_elem_of_singleton in Hx'.
        by eapply not_parked_write_neq.
      * done.
      * apply list.Forall_app. split; [done|]. apply list.Forall_singleton.
        unfold parked_write_ok. by rewrite Hw.
    + destruct (parked_ok_read_alloc n m _ st q Hok Est) as (r & Hr & Hsrc & Hra).
      { rewrite Eq. left. }
      rewrite (onWriteUDP_match _ _ _ w st q rs r) in Hstep by done. simplify_eq.
      apply list.NoDup_cons in Hnr as [Hq Hnr]. apply list.Forall_cons in Hrs as [_ Hrs].
      intros b stb Hb. simpl in Hb.
      apply lookup_insert_Some in Hb as [[<- <-]|[Hne Hb]].
      * apply (queues_ok_frame m); [done|..]; simpl.
        -- intros x Hx. rewrite lookup_insert_ne; [done|]. by intros ->.
        -- intros x Hx. rewrite lookup_insert_ne; [done|].
           apply not_eq_sym. by eapply not_parked_write_neq.
      * apply (queues_ok_frame m); [by apply Hok|..]; simpl.
        -- intros x Hx. rewrite lookup_insert_ne; [done|]. intros ->.
           apply Hne. eapply (parked_read_once n m); [done|exact Est| |exact Hb|done].
           rewrite Eq. left.
        -- intros x Hx. rewrite lookup_insert_ne; [done|].
           apply not_eq_sym. by eapply not_parked_write_neq.
  - rewrite (onWriteUDP_unbound _ _ _ w) in Hstep by done. simplify_eq.
    intros b stb Hb. apply (queues_ok_frame m); [by apply Hok|..]; simpl.
    + done.
    + intros x Hx. rewrite lookup_insert_ne; [done|].
      apply not_eq_sym. by eapply not_parked_write_neq.
Qed.

(** The well-formedness of the parked requests is kept by every step. *)
Lemma loop_case_parked_ok n m msg n' m' :
  parked_ok n m → arrives_ok n m msg →
  loop_case n m msg = Some (n', m') →
  parked_ok n' m'.
Proof.
  intros Hok Harr Hstep. destruct msg as [req|p|p|req]; simpl in Hstep.
  - destruct (Network.onNewConnUDP n req) as [[n1 req1]|] eqn:E; simplify_eq/=.
    unfold parked_ok. rewrite (onNewConnUDP_udp _ _ _ _ E).
    destruct (Network.udp n !! _); [done|].
    apply map_Forall_insert_2; [|done].
    split; [apply base.NoDup_nil_2|]. split; [apply base.NoDup_nil_2|]. by split.
  - by eapply onReadUDP_parked_ok.
  - by eapply onWriteUDP_parked_ok.
  - destruct (Network.onDeleteConnUDP n req) as [[n1 req1]|] eqn:E; simplify_eq/=.
    unfold parked_ok. rewrite (onDeleteConnUDP_udp _ _ _ _ E).
    by apply map_Forall_delete.
Qed.

(** With well formed parked requests the actor does not panic. *)
Lemma loop_case_no_panic n m msg :
  parked_ok n m → arrives_ok n m msg → is_Some (loop_case n m msg).
Proof.
  intros Hok Harr. destruct msg as [req|p|p|req]; simpl in *.
  - rewrite onNewConnUDP_eq by done.
    destruct (Network.udp n !! _); simpl; eauto.
  - destruct Harr as [Hnp Hack].
    destruct (reads m !! p) as [r|] eqn:Hr; [|done].
    destruct (Network.udp n !! networkReadUDP.localAddr r) as [st|] eqn:Est.
    + destruct (blockedWrites st) as [|q ws] eqn:Eq.
      * by rewrite (onReadUDP_park _ _ _ r st).
      * destruct (parked_ok_write_alloc n m _ st q Hok Est) as (w & Hw & Hdst & Hwa).
        { rewrite Eq. left. }
        by rewrite (onReadUDP_match _ _ _ r st q ws w).
    + by rewrite (onReadUDP_unbound _ _ _ r).
  - destruct Harr as [Hnp Hack].
    destruct (writes m !! p) as [w|] eqn:Hw; [|done].
    destruct (Network.udp n !! networkWriteUDP.destAddr w) as [st|] eqn:Est.
    + destruct (blockedReads st) as [|q rs] eqn:Eq.
      * by rewrite (onWriteUDP_park _ _ _ w st).
      * destruct (parked_ok_read_alloc n m _ st q Hok Est) as (r & Hr & Hsrc & Hra).
        { rewrite Eq. left. }
        by rewrite (onWriteUDP_match _ _ _ w st q rs r).
    + by rewrite (onWriteUDP_unbound _ _ _ w).
  - rewrite onDeleteConnUDP_eq by done.
    destruct (Network.udp n !! _); simpl; eauto.
Qed.

(** A new network has no parked request, and a run of messages that arrive
    well formed keeps the parked requests well formed and does not panic. *)
Lemma NewNetwork_parked_ok m : parked_ok Network.NewNetwork m.
Proof. apply map_Forall_empty. Qed.

Lemma loop_parked_ok msgs : ∀ n m,
  parked_ok n m → arrivals_ok n m msgs →
  ∃ n' m', loop n m msgs = Some (n', m') ∧ parked_ok n' m'.
Proof.
  induction msgs as [|msg msgs IH]; intros n m Hok Harr; simpl.
  - destruct (Network.closed n); eauto.
  - destruct (Network.closed n); [eauto|].
    destruct Harr as [Harr Hrest].
    destruct (loop_case n m msg) as [[n1 m1]|] eqn:Hstep; [|done]. simpl.
    apply IH; [|done]. by eapply loop_case_parked_ok.
Qed.

(** ** Traffic at other addresses *)

Lemma loop_cons n m msg msgs n1 m1 :
  Network.closed n = false →
  loop_case n m msg = Some (n1, m1) →
  loop n m (msg :: msgs) = loop n1 m1 msgs.
Proof. intros Hopen Hstep. simpl. by rewrite Hopen, Hstep. Qed.

Lemma loop_nil n m : loop n m [] = Some (n, m).
Proof. simpl. by destruct (Network.closed n). Qed.

(** What a read request that arrives does to the memory. *)
Lemma onReadUDP_memory n m q n' m' :
  Network.onReadUDP n m q = Some (n', m') →
  ∃ r, reads m !! q = Some r ∧
    (m' = m ∨
     m' = set_read q (networkReadUDP.set_ack true
                        (networkReadUDP.set_err (Some (Errno syscall.EBADF)) r)) m ∨
     ∃ st x ws w,
       Network.udp n !! networkReadUDP.localAddr r = Some st ∧
       blockedWrites st = x :: ws ∧ writes m !! x = Some w ∧
       m' = set_read q (matched_read r w)
              (set_write x (networkWriteUDP.set_ack true w) m)).
Proof.
  unfold Network.onReadUDP. intros H.
  destruct (reads m !! q) as [r|] eqn:Er; [|done]. simpl in H.
  exists r. split; [done|].
  destruct (Network.udp n !! _) as [[rs [|x ws]]|] eqn:Est; simpl in H.
  - left. by simplify_eq.
  - destruct (Network.finishReadWrite m q x) as [m1|] eqn:E; [|done].
    simpl in H. simplify_eq.
    apply finishReadWrite_inv in E as (r0 & w0 & Hr0 & Hw0 & _ & _ & ->).
    right. right. exists (mk rs (x :: ws)), x, ws, w0. simplify_eq. done.
  - destruct (close _) as [b|] eqn:Ec; [|done]. simpl in H. simplify_eq.
    apply close_Some in Ec as [_ ->]. right. left. done.
Qed.

(** What a write request that arrives does to the memory. *)
Lemma onWriteUDP_memory n m q n' m' :
  Network.onWriteUDP n m q = Some (n', m') →
  ∃ w, writes m !! q = Some w ∧
    (m' = m ∨
     m' = set_write q (networkWriteUDP.set_ack true w) m ∨
     ∃ st x rs r,
       Network.udp n !! networkWriteUDP.destAddr w = Some st ∧
       blockedReads st = x :: rs ∧ reads m !! x = Some r ∧
       m' = set_read x (matched_read r w)
              (set_write q (networkWriteUDP.set_ack true w) m)).
Proof.
  unfold Network.onWriteUDP. intros H.
  destruct (writes m !! q) as [w|] eqn:Ew; [|done]. simpl in H.
  exists w. split; [done|].
  destruct (Network.udp n !! _) as [[[|x rs] ws]|] eqn:Est; simpl in H.
  - left. by simplify_eq.
  - destruct (Network.finishReadWrite m x q) as [m1|] eqn:E; [|done].
    simpl in H. simplify_eq.
    apply finishReadWrite_inv in E as (r0 & w0 & Hr0 & Hw0 & _ & _ & ->).
    right. right. exists (mk (x :: rs) ws), x, rs, r0. simplify_eq. done.
  - destruct (close _) as [b|] eqn:Ec; [|done]. simpl in H. simplify_eq.
    apply close_Some in Ec as [_ ->]. right. left. done.
Qed.

(** The actor never changes the address of a request. *)
Lemma loop_case_read_addr n m msg n' m' p r :
  loop_case n m msg = Some (n', m') →
  reads m !! p = Some r →
  ∃ r', reads m' !! p = Some r' ∧
        networkReadUDP.localAddr r' = networkReadUDP.localAddr r.
Proof.
  intros Hstep Hr. destruct msg as [req|q|q|req]; simpl in Hstep.
  - destruct (Network.onNewConnUDP n req) as [[n1 req1]|]; simplify_eq/=. eauto.
  - apply onReadUDP_memory in Hstep
      as (r0 & Hr0 & [->|[->|(st & x & ws & w & _ & _ & _ & ->)]]); [eauto|..].
    + simpl. destruct (decide (q = p)) as [->|].
      * rewrite lookup_insert_eq. simplify_eq. eauto.
      * rewrite lookup_insert_ne by done. eauto.
    + simpl. destruct (decide (q = p)) as [->|].
      * rewrite lookup_insert_eq. simplify_eq. eauto.
      * rewrite lookup_insert_ne by done. eauto.
  - apply onWriteUDP_memory in Hstep
      as (w0 & Hw0 & [->|[->|(st & x & rs & r0 & _ & _ & Hx & ->)]]); [eauto..|].
    simpl. destruct (decide (x = p)) as [->|].
    + rewrite lookup_insert_eq. simplify_eq. eauto.
    + rewrite lookup_insert_ne by done. eauto.
  - destruct (Network.onDeleteConnUDP n req) as [[n1 req1]|]; simplify_eq/=. eauto.
Qed.

Lemma loop_case_write_addr n m msg n' m' p w :
  loop_case n m msg = Some (n', m') →
  writes m !! p = Some w →
  ∃ w', writes m' !! p = Some w' ∧
        networkWriteUDP.destAddr w' = networkWriteUDP.destAddr w.
Proof.
  intros Hstep Hw. destruct msg as [req|q|q|req]; simpl in Hstep.
  - destruct (Network.onNewConnUDP n req) as [[n1 req1]|]; simplify_eq/=. eauto.
  - apply onReadUDP_memory in Hstep
      as (r0 & Hr0 & [->|[->|(st & x & ws & w0 & _ & _ & Hx & ->)]]); [eauto..|].
    simpl. destruct (decide (x = p)) as [->|].
    + rewrite lookup_insert_eq. simplify_eq. eauto.
    + rewrite lookup_insert_ne by done. eauto.
  - apply onWriteUDP_memory in Hstep
      as (w0 & Hw0 & [->|[->|(st & x & rs & r0 & _ & _ & _ & ->)]]); [eauto|..].
    + simpl. destruct (decide (q = p)) as [->|].
      * rewrite lookup_insert_eq. simplify_eq. eauto.
      * rewrite lookup_insert_ne by done. eauto.
    + simpl. destruct (decide (q = p)) as [->|].
      * rewrite lookup_insert_eq. simplify_eq. eauto.
      * rewrite lookup_insert_ne by done. eauto.
  - destruct (Network.onDeleteConnUDP n req) as [[n1 req1]|]; simplify_eq/=. eauto.
Qed.

(** A message that is about another address stays so. *)
Lemma loop_case_elsewhere_mono n m msg n' m' a msg2 :
  loop_case n m msg = Some (n', m') →
  elsewhere m a msg2 → elsewhere m' a msg2.
Proof.
  intros Hstep H2. destruct msg2 as [req|p|p|req]; simpl in *; [done| | |done].
  - destruct (reads m !! p) as [r|] eqn:Hr; [|done].
    destruct (loop_case_read_addr _ _ _ _ _ _ _ Hstep Hr) as (r' & -> & ->). done.
  - destruct (writes m !! p) as [w|] eqn:Hw; [|done].
    destruct (loop_case_write_addr _ _ _ _ _ _ _ Hstep Hw) as (w' & -> & ->). done.
Qed.

Lemma loop_case_closed n m msg n' m' :
  loop_case n m msg = Some (n', m') → Network.closed n' = Network.closed n.
Proof.
  intros Hstep. destruct msg as [req|q|q|req]; simpl in Hstep.
  - unfold Network.onNewConnUDP in Hstep.
    destruct (Network.udp n !! _); simplify_option_eq; done.
  - unfold Network.onReadUDP in Hstep.
    destruct (reads m !! q) as [r|]; [|done]. simpl in Hstep.
    destruct (Network.udp n !! _) as [[rs [|x ws]]|]; simplify_option_eq; done.
  - unfold Network.onWriteUDP in Hstep.
    destruct (writes m !! q) as [w|]; [|done]. simpl in Hstep.
    destruct (Network.udp n !! _) as [[[|x rs] ws]|]; simplify_option_eq; done.
  - unfold Network.onDeleteConnUDP in Hstep.
    destruct (Network.udp n !! _); simplify_option_eq; done.
Qed.

(** A message about another address leaves the state of [a] and the
    requests for [a] as they are. *)
Lemma loop_case_elsewhere n m msg n' m' a :
  parked_ok n m → elsewhere m a msg →
  loop_case n m msg = Some (n', m') →
  Network.udp n' !! a = Network.udp n !! a ∧
  (∀ p r, reads m !! p = Some r → networkReadUDP.localAddr r = a →
          reads m' !! p = Some r) ∧
  (∀ p w, writes m !! p = Some w → networkWriteUDP.destAddr w = a →
          writes m' !! p = Some w).
Proof.
  intros Hok Hmsg Hstep. destruct msg as [req|q|q|req]; simpl in *.
  - destruct (Network.onNewConnUDP n req) as [[n1 req1]|] eqn:E; simplify_eq/=.
    split; [|done]. rewrite (onNewConnUDP_udp _ _ _ _ E).
    destruct (Network.udp n !! networkNewConnUDP.localAddr req); [done|].
    by rewrite lookup_insert_ne.
  - destruct (onReadUDP_udp _ _ _ _ _ Hstep) as (r0 & Hr0 & Hudp).
    rewrite Hr0 in Hmsg. split; [|split].
    + rewrite Hudp. destruct (Network.udp n !! networkReadUDP.localAddr r0); [|done].
      by rewrite lookup_insert_ne.
    + intros p r Hr Ha. rewrite <- Hr. eapply onReadUDP_reads; [done|].
      intros ->. by simplify_eq.
    + intros p w Hw Ha.
      apply onReadUDP_memory in Hstep
        as (r1 & Hr1 & [->|[->|(st & x & ws & w0 & Hst & Hq & Hx & ->)]]); [done..|].
      simplify_eq. simpl. rewrite lookup_insert_ne; [done|]. intros ->.
      destruct (parked_ok_write_addr n m _ st p w Hok Hst) as [Hd _]; [|done|].
      * rewrite Hq. left.
      * congruence.
  - destruct (onWriteUDP_udp _ _ _ _ _ Hstep) as (w0 & Hw0 & Hudp).
    rewrite Hw0 in Hmsg. split; [|split].
    + rewrite Hudp. destruct (Network.udp n !! networkWriteUDP.destAddr w0); [|done].
      by rewrite lookup_insert_ne.
    + intros p r Hr Ha.
      apply onWriteUDP_memory in Hstep
        as (w1 & Hw1 & [->|[->|(st & x & rs & r0 & Hst & Hq & Hx & ->)]]); [done..|].
      simplify_eq. simpl. rewrite lookup_insert_ne; [done|]. intros ->.
      destruct (parked_ok_read_addr n m _ st p r Hok Hst) as [Hd _]; [|done|].
      * rewrite Hq. left.
      * congruence.
    + intros p w Hw Ha. rewrite <- Hw. eapply onWriteUDP_writes; [done|].
      intros ->. by simplify_eq.
  - destruct (Network.onDeleteConnUDP n req) as [[n1 req1]|] eqn:E; simplify_eq/=.
    split; [|done]. rewrite (onDeleteConnUDP_udp _ _ _ _ E).
    by rewrite lookup_delete_ne.
Qed.

(** The first of the messages that arrive well formed is handled, and
    the rest arrive well formed in the state that it leaves. *)
Lemma arrivals_ok_cons n m msg rest :
  parked_ok n m → Network.closed n = false →
  arrivals_ok n m (msg :: rest) →
  arrives_ok n m msg ∧
  ∃ n' m',
    loop_case n m msg = Some (n', m') ∧
    (∀ tail, loop n m (msg :: tail) = loop n' m' tail) ∧
    arrivals_ok n' m' rest ∧ parked_ok n' m' ∧ Network.closed n' = false ∧
    (∀ a msg2, elsewhere m a msg2 → elsewhere m' a msg2).
Proof.
  intros Hok Hopen [Harr Hrest]. split; [done|].
  destruct (loop_case n m msg) as [[n' m']|] eqn:Hstep; [|done].
  exists n', m'. split; [done|]. split.
  { intros tail. by apply loop_cons. }
  split; [done|]. split; [by eapply loop_case_parked_ok|]. split.
  - by rewrite (loop_case_closed _ _ _ _ _ Hstep).
  - intros a msg2. by eapply loop_case_elsewhere_mono.
Qed.

(** A run of messages about other addresses leaves the state of [a] and
    the requests for [a] as they are. *)
Lemma loop_elsewhere a xs : ∀ n m rest,
  parked_ok n m → Network.closed n = false →
  arrivals_ok n m (xs ++ rest) →
  Forall (elsewhere m a) xs →
  ∃ n' m',
    (∀ tail, loop n m (xs ++ tail) = loop n' m' tail) ∧
    arrivals_ok n' m' rest ∧ parked_ok n' m' ∧ Network.closed n' = false ∧
    Network.udp n' !! a = Network.udp n !! a ∧
    (∀ p r, reads m !! p = Some r → networkReadUDP.localAddr r = a →
            reads m' !! p = Some r) ∧
    (∀ p w, writes m !! p = Some w → networkWriteUDP.destAddr w = a →
            writes m' !! p = Some w) ∧
    (∀ msg, elsewhere m a msg → elsewhere m' a msg).
Proof.
  induction xs as [|x xs IH]; intros n m rest Hok Hopen Harr Hxs.
  - exists n, m. done.
  - apply list.Forall_cons in Hxs as [Hx Hxs].
    destruct (arrivals_ok_cons n m x (xs ++ rest) Hok Hopen Harr)
      as (_ & n1 & m1 & Hstep & Hloop & Harr1 & Hok1 & Hopen1 & Hmono).
    destruct (loop_case_elsewhere n m x n1 m1 a Hok Hx Hstep) as (Hudp & Hrs & Hws).
    destruct (IH n1 m1 rest Hok1 Hopen1 Harr1) as
      (n' & m' & Hloop' & Harr' & Hok' & Hopen' & Hudp' & Hrs' & Hws' & Hmono').
    { eapply list.Forall_impl; [exact Hxs|]. intros msg. apply Hmono. }
    exists n', m'. split.
    { intros tail. rewrite <- Hloop'. apply (Hloop (xs ++ tail)). }
    split; [done|]. split; [done|]. split; [done|]. split; [congruence|].
    split; [|split].
    + intros p r Hr Ha. apply Hrs'; [|done]. by apply Hrs.
    + intros p w Hw Ha. apply Hws'; [|done]. by apply Hws.
    + intros msg Hmsg. by apply Hmono', Hmono.
Qed.

(** ** C8: unbind *)

(** C8, as the code has it.  [Unbind(addr)] removes the address state of
    [addr], and fails with [EBADF] when there is none.  It resolves and
    wakes no request: the memory of the requests is untouched, so the
    requests parked in the queues of [addr] keep their open ack.  These
    requests leave the state of the actor with the address state: no queue
    holds them any more, and whatever arrives at the actor afterwards they
    are never matched and keep their open ack for good (only their issuers
    still hold them, until these give up on a deadline or a closure). *)
Theorem unbind_leaves_parked_requests
    (n : Network.t) (m : Memory) (req : networkDeleteConnUDP.t) :
  parked_ok n m →
  networkDeleteConnUDP.ack req = false →
  (Network.udp n !! networkDeleteConnUDP.localAddr req = None →
   Network.onDeleteConnUDP n req =
     Some (n, networkDeleteConnUDP.mk true (Some (Errno syscall.EBADF))
                (networkDeleteConnUDP.localAddr req))) ∧
  (∀ st, Network.udp n !! networkDeleteConnUDP.localAddr req = Some st →
     let n' := Network.set_udp
                 (delete (networkDeleteConnUDP.localAddr req) (Network.udp n)) n in
     Network.onDeleteConnUDP n req =
       Some (n', networkDeleteConnUDP.mk true (networkDeleteConnUDP.err req)
                   (networkDeleteConnUDP.localAddr req)) ∧
     loop_case n m (deleteConnUDP req) = Some (n', m) ∧
     (∀ p, p ∈ blockedReads st →
        ¬ parked_read n' p ∧
        ∃ r, reads m !! p = Some r ∧ networkReadUDP.ack r = false ∧
          ∀ msgs n'' m'', Forall (λ msg, msg ≠ readUDP p) msgs →
            loop n' m msgs = Some (n'', m'') →
            reads m'' !! p = Some r ∧ ¬ parked_read n'' p) ∧
     (∀ p, p ∈ blockedWrites st →
        ¬ parked_write n' p ∧
        ∃ w, writes m !! p = Some w ∧ networkWriteUDP.ack w = false ∧
          ∀ msgs n'' m'', Forall (λ msg, msg ≠ writeUDP p) msgs →
            loop n' m msgs = Some (n'', m'') →
            writes m'' !! p = Some w ∧ ¬ parked_write n'' p)).
Proof.
  intros Hok Hack. split.
  - intros Hn. rewrite onDeleteConnUDP_eq by done. by rewrite Hn.
  - intros st Hst n'.
    assert (Network.onDeleteConnUDP n req =
              Some (n', networkDeleteConnUDP.mk true (networkDeleteConnUDP.err req)
                          (networkDeleteConnUDP.localAddr req))) as Hdel.
    { rewrite onDeleteConnUDP_eq by done. by rewrite Hst. }
    split; [done|]. split; [simpl; by rewrite Hdel|]. split.
    + intros p Hp.
      assert (¬ parked_read n' p) as Hnp.
      { intros (b & stb & Hb & Hpb). simpl in Hb.
        apply lookup_delete_Some in Hb as [Hne Hb]. apply Hne.
        by eapply (parked_read_once n m). }
      split; [done|].
      destruct (parked_ok_read_alloc _ _ _ _ _ Hok Hst Hp) as (r & Hr & Haddr & Hra).
      exists r. split; [done|]. split; [done|].
      intros msgs n'' m'' Hmsgs Hrun. rewrite <- Hr.
      by eapply loop_reads.
    + intros p Hp.
      assert (¬ parked_write n' p) as Hnp.
      { intros (b & stb & Hb & Hpb). simpl in Hb.
        apply lookup_delete_Some in Hb as [Hne Hb]. apply Hne.
        by eapply (parked_write_once n m). }
      split; [done|].
      destruct (parked_ok_write_alloc _ _ _ _ _ Hok Hst Hp) as (w & Hw & Haddr & Hwa).
      exists w. split; [done|]. split; [done|].
      intros msgs n'' m'' Hmsgs Hrun. rewrite <- Hw.
      by eapply loop_writes.
Qed.

Lemma unbind_leaves_parked_requests_witness :
  loop_case ex_network ex_memory (deleteConnUDP ex_unbind)
  = Some (Network.mk false false ∅, ex_memory) ∧
  ∃ w, writes ex_memory !! 7%nat = Some w ∧ networkWriteUDP.ack w = false.
Proof.
  assert (parked_ok ex_network ex_memory) as Hok.
  { refine (bool_decide_unpack _ _). vm_compute. exact I. }
  destruct (unbind_leaves_parked_requests ex_network ex_memory ex_unbind Hok eq_refl)
    as [_ H].
  destruct (H (mk [] [7%nat])) as (_ & Hstep & _ & Hw).
  { vm_compute. reflexivity. }
  split.
  - rewrite Hstep. vm_compute. reflexivity.
  - destruct (Hw 7%nat) as (_ & w & Hw7 & Hack & _); [simpl; left|].
    exists w. done.
Defined.

(** C8 as stated fails in its last part: after the unbind of [addrB] the
    write request [7] that was parked there is in no queue of the actor,
    so it is not there to be matched later.  The network is not shut
    down; [addrB] is bound again and the read request [9] arrives for it:
    the read is parked instead of taking the datagram, and the write
    request still has its open ack. *)
Lemma unbound_parked_write_is_never_matched :
  ¬ parked_write (Network.mk false false ∅) 7%nat ∧
  loop ex_network ex_memory
    [deleteConnUDP ex_unbind;
     newConnUDP (networkNewConnUDP.mk false None addrB);
     readUDP 9%nat]
  = Some (Network.mk false false {[addrB := mk [9%nat] []]}, ex_memory) ∧
  reads ex_memory !! 9%nat = Some ex_read ∧
  writes ex_memory !! 7%nat = Some ex_write ∧
  networkReadUDP.ack ex_read = false ∧
  networkWriteUDP.ack ex_write = false.
Proof.
  split.
  - intros (a & st & Hst & _). simpl in Hst. by apply lookup_empty_Some in Hst.
  - split; [vm_compute; reflexivity|]. split; [vm_compute; reflexivity|].
    split; [vm_compute; reflexivity|]. done.
Qed.

(** ** C4: the writes are matched in their order of arrival *)

(** C4. Matching per destination address is strict FIFO: when the write
    requests [p1] then [p2] arrive for a bound address at which nothing
    is pending, before any read request for that address, then the next
    two read requests for that address, [q1] then [q2], resolve with the
    payload (and the source) of [p1] first and of [p2] second, whatever
    traffic about other addresses ([xs], [ys], [zs]) the actor handles in
    between. *)
Theorem writes_match_in_arrival_order
    (n : Network.t) (m : Memory) (a : AddrPort) (p1 p2 q1 q2 : ptr)
    (w1 w2 : networkWriteUDP.t) (r1 r2 : networkReadUDP.t)
    (xs ys zs : list message) :
  Network.closed n = false →
  parked_ok n m →
  Network.udp n !! a = Some (mk [] []) →
  writes m !! p1 = Some w1 → writes m !! p2 = Some w2 →
  networkWriteUDP.destAddr w1 = a → networkWriteUDP.destAddr w2 = a →
  reads m !! q1 = Some r1 → reads m !! q2 = Some r2 →
  networkReadUDP.localAddr r1 = a → networkReadUDP.localAddr r2 = a →
  Forall (elsewhere m a) xs → Forall (elsewhere m a) ys →
  Forall (elsewhere m a) zs →
  arrivals_ok n m
    (writeUDP p1 :: xs ++ writeUDP p2 :: ys ++ readUDP q1 :: zs ++ [readUDP q2]) →
  ∃ n' m',
    loop n m
      (writeUDP p1 :: xs ++ writeUDP p2 :: ys ++ readUDP q1 :: zs ++ [readUDP q2])
    = Some (n', m') ∧
    Network.udp n' !! a = Some (mk [] []) ∧
    reads m' !! q1 = Some (matched_read r1 w1) ∧
    reads m' !! q2 = Some (matched_read r2 w2) ∧
    networkReadUDP.buffer (matched_read r1 w1) =
      (copy (networkReadUDP.buffer r1) (networkWriteUDP.payload w1)).1 ∧
    networkReadUDP.buffer (matched_read r2 w2) =
      (copy (networkReadUDP.buffer r2) (networkWriteUDP.payload w2)).1.
Proof.
  intros Hopen Hok Ha Hw1 Hw2 Hd1 Hd2 Hr1 Hr2 Hl1 Hl2 Hxs Hys Hzs Harr.
  (* the write p1 parks *)
  destruct (arrivals_ok_cons _ _ _ _ Hok Hopen Harr)
    as ([Hnp1 Hack1] & n1 & m1 & Hstep1 & Hloop1 & Harr1 & Hok1 & Hopen1 & Hmono1).
  rewrite Hw1 in Hack1. simpl in Hstep1.
  rewrite (onWriteUDP_park n m p1 w1 (mk [] [])) in Hstep1 by (done || congruence).
  injection Hstep1 as En1 <-.
  assert (Network.udp n1 !! a = Some (mk [] [p1])) as Ha1.
  { rewrite <- En1. simpl. rewrite Hd1. apply lookup_insert_eq. }
  (* traffic elsewhere *)
  destruct (loop_elsewhere a xs _ _ _ Hok1 Hopen1 Harr1 Hxs)
    as (n2 & m2 & Hloop2 & Harr2 & Hok2 & Hopen2 & Hudp2 & Hrs2 & Hws2 & Hmono2).
  rewrite Ha1 in Hudp2.
  (* the write p2 parks behind p1 *)
  destruct (arrivals_ok_cons _ _ _ _ Hok2 Hopen2 Harr2)
    as ([Hnp2 Hack2] & n3 & m3 & Hstep3 & Hloop3 & Harr3 & Hok3 & Hopen3 & Hmono3).
  rewrite (Hws2 p2 w2 Hw2 Hd2) in Hack2.
  assert (p1 ≠ p2) as Hp.
  { intros <-. apply Hnp2. exists a, (mk [] [p1]). split; [done|]. left. }
  simpl in Hstep3.
  rewrite (onWriteUDP_park n2 m2 p2 w2 (mk [] [p1])) in Hstep3
    by (done || congruence || by apply Hws2).
  injection Hstep3 as En3 <-.
  assert (Network.udp n3 !! a = Some (mk [] [p1; p2])) as Ha3.
  { rewrite <- En3. simpl. rewrite Hd2. apply lookup_insert_eq. }
  (* traffic elsewhere *)
  destruct (loop_elsewhere a ys _ _ _ Hok3 Hopen3 Harr3)
    as (n4 & m4 & Hloop4 & Harr4 & Hok4 & Hopen4 & Hudp4 & Hrs4 & Hws4 & Hmono4).
  { eapply list.Forall_impl; [exact Hys|]. intros msg Hmsg.
    by apply Hmono3, Hmono2, Hmono1. }
  rewrite Ha3 in Hudp4.
  (* the read q1 takes p1 *)
  destruct (arrivals_ok_cons _ _ _ _ Hok4 Hopen4 Harr4)
    as ([Hnq1 Hrack1] & n5 & m5 & Hstep5 & Hloop5 & Harr5 & Hok5 & Hopen5 & Hmono5).
  assert (reads m4 !! q1 = Some r1) as Hr1' by (apply Hrs4; [apply Hrs2|]; done).
  assert (writes m4 !! p1 = Some w1) as Hw1' by (apply Hws4; [apply Hws2|]; done).
  assert (reads m4 !! q2 = Some r2) as Hr2' by (apply Hrs4; [apply Hrs2|]; done).
  assert (writes m4 !! p2 = Some w2) as Hw2' by (apply Hws4; [apply Hws2|]; done).
  rewrite Hr1' in Hrack1. simpl in Hstep5.
  rewrite (onReadUDP_match n4 m4 q1 r1 (mk [] [p1; p2]) p1 [p2] w1) in Hstep5
    by (done || congruence).
  injection Hstep5 as En5 Em5.
  assert (Network.udp n5 !! a = Some (mk [] [p2])) as Ha5.
  { rewrite <- En5. simpl. rewrite Hl1. apply lookup_insert_eq. }
  assert (reads m5 !! q1 = Some (matched_read r1 w1)) as Hq1
    by (rewrite <- Em5; simpl; apply lookup_insert_eq).
  assert (writes m5 !! p2 = Some w2) as Hw2''
    by (rewrite <- Em5; simpl; by rewrite lookup_insert_ne).
  (* traffic elsewhere *)
  destruct (loop_elsewhere a zs _ _ _ Hok5 Hopen5 Harr5)
    as (n6 & m6 & Hloop6 & Harr6 & Hok6 & Hopen6 & Hudp6 & Hrs6 & Hws6 & Hmono6).
  { eapply list.Forall_impl; [exact Hzs|]. intros msg Hmsg.
    by apply Hmono5, Hmono4, Hmono3, Hmono2, Hmono1. }
  rewrite Ha5 in Hudp6.
  (* the read q2 takes p2 *)
  destruct (arrivals_ok_cons _ _ _ _ Hok6 Hopen6 Harr6)
    as ([Hnq2 Hrack2] & n7 & m7 & Hstep7 & Hloop7 & _ & _ & _ & _).
  assert (reads m6 !! q1 = Some (matched_read r1 w1)) as Hq1' by (by apply Hrs6).
  assert (q1 ≠ q2) as Hq.
  { intros <-. rewrite Hq1' in Hrack2. done. }
  assert (reads m6 !! q2 = Some r2) as Hr2''.
  { apply Hrs6; [|done]. rewrite <- Em5. simpl. by rewrite lookup_insert_ne. }
  rewrite Hr2'' in Hrack2. simpl in Hstep7.
  rewrite (onReadUDP_match n6 m6 q2 r2 (mk [] [p2]) p2 [] w2) in Hstep7
    by (done || congruence || by apply Hws6).
  injection Hstep7 as En7 Em7.
  exists n7, m7. split.
  { rewrite Hloop1, Hloop2, Hloop3, Hloop4, Hloop5, Hloop6, Hloop7. apply loop_nil. }
  split; [rewrite <- En7; simpl; rewrite Hl2; apply lookup_insert_eq|].
  split; [|split; [|done]].
  - rewrite <- Em7. simpl. by rewrite lookup_insert_ne.
  - rewrite <- Em7. simpl. apply lookup_insert_eq.
Qed.

(** [addrB] is bound and idle.  The write requests [1] ([hello], from
    [addrA]) and [2] ([world], from [addrC]) arrive for it, then the read
    requests [3] (a buffer of 8 bytes) and [4] (a buffer of 3 bytes); in
    between, [addrC] is bound, the write request [5] for [addrC] arrives
    and the read request [6] of [addrC] takes it. *)
Lemma writes_match_in_arrival_order_witness :
  ∃ n' m',
    loop fifo_network fifo_memory
      (writeUDP 1%nat :: [newConnUDP fifo_bind] ++
       writeUDP 2%nat :: [writeUDP 5%nat] ++
       readUDP 3%nat :: [readUDP 6%nat] ++ [readUDP 4%nat]) = Some (n', m') ∧
    Network.udp n' !! addrB = Some (mk [] []) ∧
    reads m' !! 3%nat = Some (matched_read fifo_r1 fifo_w1) ∧
    reads m' !! 4%nat = Some (matched_read fifo_r2 fifo_w2) ∧
    networkReadUDP.buffer (matched_read fifo_r1 fifo_w1) = hello ++ zeroes 3 ∧
    networkReadUDP.buffer (matched_read fifo_r2 fifo_w2) = take 3 world.
Proof.
  apply (writes_match_in_arrival_order fifo_network fifo_memory addrB
           1%nat 2%nat 3%nat 4%nat fifo_w1 fifo_w2 fifo_r1 fifo_r2
           [newConnUDP fifo_bind] [writeUDP 5%nat] [readUDP 6%nat]);
    try (vm_compute; reflexivity);
    refine (bool_decide_unpack _ _); vm_compute; exact I.
Defined.

(** ** C3: what a matched pair exchanges *)

Lemma matched_read_fields r w :
  networkReadUDP.count (matched_read r w) =
    Z.min (Z.of_nat (length (networkWriteUDP.payload w)))
          (Z.of_nat (length (networkReadUDP.buffer r))) ∧
  networkReadUDP.buffer (matched_read r w) =
    take (Z.to_nat (networkReadUDP.count (matched_read r w))) (networkWriteUDP.payload w)
    ++ drop (Z.to_nat (networkReadUDP.count (matched_read r w))) (networkReadUDP.buffer r) ∧
  networkReadUDP.senderAddr (matched_read r w) = networkWriteUDP.sourceAddr w ∧
  networkReadUDP.ack (matched_read r w) = true ∧
  networkReadUDP.err (matched_read r w) = networkReadUDP.err r ∧
  networkWriteUDP.ack (networkWriteUDP.set_ack true w) = true ∧
  networkWriteUDP.err (networkWriteUDP.set_ack true w) = networkWriteUDP.err w.
Proof.
  split; [apply copy_count|]. split; [apply copy_buffer|]. done.
Qed.

(** A [WriteTo] to an idle bound address waits; the [ReadFrom] that
    follows at that address takes the datagram, and the writer is then
    released. *)
Lemma round_trip w cA cB (P buf : bytes) :
  idle cA w → idle cB w →
  netip.IsValid (UDPConn.peerAddr cA) = false →
  netip.IsValid (UDPConn.peerAddr cB) = false →
  Network.udp (network w) !! UDPConn.localAddr cB = Some (mk [] []) →
  ∃ pw w1 w2,
    UDPConn.WriteTo cA w P (Some (UDPConn.localAddr cB)) = [Waits w1 pw] ∧
    UDPConn.ReadFrom cB w1 buf =
      [Returns w2 ((copy buf P).1,
                   ((copy buf P).2, Some (UDPConn.localAddr cA), None))] ∧
    UDPConn.commonWrite_ack cA w2 (Z.of_nat (length P)) pw =
      [Returns w2 (Z.of_nat (length P), None)] ∧
    Network.udp (network w2) !! UDPConn.localAddr cB = Some (mk [] []).
Proof.
  intros HiA HiB HpA HpB HB.
  set (pw := fresh (dom (writes (memory w)))).
  set (pr := fresh (dom (reads (memory w)))).
  set (wreq := write_request cA P (UDPConn.localAddr cB)).
  set (rreq := read_request cB buf).
  set (m1 := set_write pw wreq (memory w)).
  set (n1 := Network.set_udp (<[UDPConn.localAddr cB := mk [] [pw]]>
                                (Network.udp (network w))) (network w)).
  set (w1 := mkWorld n1 m1 (now w)).
  set (m2 := set_read pr (matched_read rreq wreq)
               (set_write pw (networkWriteUDP.set_ack true wreq)
                  (set_read pr rreq m1))).
  set (n2 := Network.set_udp (<[UDPConn.localAddr cB := mk [] []]>
                                (Network.udp n1)) n1).
  set (w2 := mkWorld n2 m2 (now w)).
  assert (idle cA w1) as HiA1 by (destruct HiA as (? & ? & ?); by split).
  assert (idle cB w1) as HiB1 by (destruct HiB as (? & ? & ?); by split).
  assert (idle cA w2) as HiA2 by (destruct HiA as (? & ? & ?); by split).
  assert (idle cB w2) as HiB2 by (destruct HiB as (? & ? & ?); by split).
  exists pw, w1, w2. split; [|split; [|split]].
  - unfold UDPConn.WriteTo. rewrite HpA.
    rewrite commonWrite_idle by done. cbv zeta. fold pw wreq.
    rewrite (onWriteUDP_park _ _ pw wreq (mk [] [])); [| |done..].
    2:{ simpl. apply lookup_insert_eq. }
    fold m1 n1 w1.
    rewrite (commonWrite_ack_idle cA w1 _ pw wreq); [done|done|].
    simpl. apply lookup_insert_eq.
  - unfold UDPConn.ReadFrom. rewrite HpB.
    rewrite commonRead_idle by done. cbv zeta.
    change (fresh (dom (reads (memory w1)))) with pr. fold rreq.
    rewrite (onReadUDP_match n1 _ pr rreq (mk [] [pw]) pw [] wreq); [| | |done| |done..].
    2:{ simpl. apply lookup_insert_eq. }
    2:{ simpl. apply lookup_insert_eq. }
    2:{ simpl. apply lookup_insert_eq. }
    change (UDPConn.ReadFrom_result <$> UDPConn.commonRead_ack cB w2 pr = 
              [Returns w2 ((copy buf P).1,
                           ((copy buf P).2, Some (UDPConn.localAddr cA), None))]).
    rewrite (commonRead_ack_idle cB w2 pr (matched_read rreq wreq)); [|done|].
    2:{ simpl. apply lookup_insert_eq. }
    done.
  - rewrite (commonWrite_ack_idle cA w2 _ pw (networkWriteUDP.set_ack true wreq));
      [done|done|].
    simpl. apply lookup_insert_eq.
  - simpl. apply lookup_insert_eq.
Qed.

(** C3. For every matched pair of a write and a read request at a bound
    address, whichever arrives second, exactly [min(len(payload),
    len(buffer))] bytes of the payload are copied to the front of the
    buffer of the read, the source address of the write is recorded as the
    sender, and both requests are resolved without error.  In particular,
    with A and B bound, a [WriteTo] from A to B with the payload [P] of
    length n followed by a [ReadFrom] at B returns [(n, A)] with the first
    n bytes of the buffer equal to [P] when the buffer has at least n
    bytes, and [(len(buffer), A)] with the buffer holding a prefix of [P]
    when it is smaller; nothing of the datagram stays behind in the queues
    of B. *)
Theorem matched_pair_exchanges_the_datagram :
  (∀ n m p r st q ws w,
     reads m !! p = Some r →
     Network.udp n !! networkReadUDP.localAddr r = Some st →
     blockedWrites st = q :: ws →
     writes m !! q = Some w →
     networkReadUDP.ack r = false → networkWriteUDP.ack w = false →
     Network.onReadUDP n m p =
       Some (Network.set_udp (<[networkReadUDP.localAddr r :=
                                 mk (blockedReads st) ws]> (Network.udp n)) n,
             set_read p (matched_read r w)
               (set_write q (networkWriteUDP.set_ack true w) m))) ∧
  (∀ n m p w st q rs r,
     writes m !! p = Some w →
     Network.udp n !! networkWriteUDP.destAddr w = Some st →
     blockedReads st = q :: rs →
     reads m !! q = Some r →
     networkReadUDP.ack r = false → networkWriteUDP.ack w = false →
     Network.onWriteUDP n m p =
       Some (Network.set_udp (<[networkWriteUDP.destAddr w :=
                                 mk rs (blockedWrites st)]> (Network.udp n)) n,
             set_read q (matched_read r w)
               (set_write p (networkWriteUDP.set_ack true w) m))) ∧
  (∀ r w,
     networkReadUDP.count (matched_read r w) =
       Z.min (Z.of_nat (length (networkWriteUDP.payload w)))
             (Z.of_nat (length (networkReadUDP.buffer r))) ∧
     networkReadUDP.buffer (matched_read r w) =
       take (Z.to_nat (networkReadUDP.count (matched_read r w)))
            (networkWriteUDP.payload w)
       ++ drop (Z.to_nat (networkReadUDP.count (matched_read r w)))
               (networkReadUDP.buffer r) ∧
     networkReadUDP.senderAddr (matched_read r w) = networkWriteUDP.sourceAddr w ∧
     networkReadUDP.ack (matched_read r w) = true ∧
     networkReadUDP.err (matched_read r w) = networkReadUDP.err r ∧
     networkWriteUDP.ack (networkWriteUDP.set_ack true w) = true ∧
     networkWriteUDP.err (networkWriteUDP.set_ack true w) = networkWriteUDP.err w) ∧
  (∀ w cA cB (P buf : bytes),
     idle cA w → idle cB w →
     netip.IsValid (UDPConn.peerAddr cA) = false →
     netip.IsValid (UDPConn.peerAddr cB) = false →
     Network.udp (network w) !! UDPConn.localAddr cB = Some (mk [] []) →
     ∃ pw w1 w2 buf' n,
       UDPConn.WriteTo cA w P (Some (UDPConn.localAddr cB)) = [Waits w1 pw] ∧
       UDPConn.ReadFrom cB w1 buf =
         [Returns w2 (buf', (n, Some (UDPConn.localAddr cA), None))] ∧
       UDPConn.commonWrite_ack cA w2 (Z.of_nat (length P)) pw =
         [Returns w2 (Z.of_nat (length P), None)] ∧
       Network.udp (network w2) !! UDPConn.localAddr cB = Some (mk [] []) ∧
       ((length P ≤ length buf)%nat →
          n = Z.of_nat (length P) ∧ buf' = P ++ drop (length P) buf) ∧
       ((length buf ≤ length P)%nat →
          n = Z.of_nat (length buf) ∧ buf' = take (length buf) P)).
Proof.
  split; [exact onReadUDP_match|]. split; [exact onWriteUDP_match|].
  split; [exact matched_read_fields|].
  intros w cA cB P buf HiA HiB HpA HpB HB.
  destruct (round_trip w cA cB P buf HiA HiB HpA HpB HB)
    as (pw & w1 & w2 & Hw & Hr & Hack & Hq).
  exists pw, w1, w2, (copy buf P).1, (copy buf P).2.
  split; [done|]. split; [done|]. split; [done|]. split; [done|]. split.
  - intros Hle. by rewrite copy_whole.
  - intros Hle. by rewrite copy_truncated.
Qed.

Lemma matched_pair_exchanges_the_datagram_witness :
  UDPConn.NewUDPConn worldA addrB netip.zero =
    [Returns worldAB (Some (new_conn addrB netip.zero), None)] ∧
  ∃ pw w1 w2 buf' n,
    UDPConn.WriteTo (new_conn addrA netip.zero) worldAB hello (Some addrB)
      = [Waits w1 pw] ∧
    UDPConn.ReadFrom (new_conn addrB netip.zero) w1 (zeroes 3)
      = [Returns w2 (buf', (n, Some addrA, None))] ∧
    UDPConn.commonWrite_ack (new_conn addrA netip.zero) w2 5 pw
      = [Returns w2 (5, None)] ∧
    Network.udp (network w2) !! addrB = Some (mk [] []) ∧
    ((5 ≤ 3)%nat → n = 5 ∧ buf' = hello ++ drop 5 (zeroes 3)) ∧
    ((3 ≤ 5)%nat → n = 3 ∧ buf' = take 3 hello).
Proof.
  split; [vm_compute; reflexivity|].
  destruct matched_pair_exchanges_the_datagram as (_ & _ & _ & H).
  apply (H worldAB (new_conn addrA netip.zero) (new_conn addrB netip.zero)
           hello (zeroes 3)).
  - refine (bool_decide_unpack _ _). vm_compute. exact I.
  - refine (bool_decide_unpack _ _). vm_compute. exact I.
  - reflexivity.
  - reflexivity.
  - vm_compute. reflexivity.
Defined.

(** ** C1: the deadline that a write races *)

(** C1, where the code departs from it.  [commonWrite], and so [Write] and
    [WriteTo], waits on the read deadline in both of its [select]s: the
    write deadline, the one that [SetWriteDeadline] and [SetDeadline]
    update, has no effect on a write.  With a write deadline that has
    fired and no read deadline, a [WriteTo] to the bound address [addrB],
    where no read is pending, does not fail with the deadline error: it
    parks and waits.  With a read deadline that has fired and no write
    deadline, the same [WriteTo] fails with the deadline error, before or
    after its request is parked. *)
Theorem write_races_the_read_deadline :
  (∀ c w data destAddr d,
     UDPConn.commonWrite (UDPConn.set_writeDeadline d c) w data destAddr
     = UDPConn.commonWrite c w data destAddr) ∧
  (∀ c w len p d,
     UDPConn.commonWrite_ack (UDPConn.set_writeDeadline d c) w len p
     = UDPConn.commonWrite_ack c w len p) ∧
  UDPConn.SetWriteDeadline (new_conn addrA netip.zero) (Some (-5))
    = (late_writer, None) ∧
  pipeDeadline.wait (UDPConn.writeDeadline late_writer) (now worldAB) = true ∧
  UDPConn.WriteTo late_writer worldAB hello (Some addrB)
    = [Waits worldAB_parked 0%nat] ∧
  UDPConn.commonWrite_ack late_writer worldAB_parked 5 0%nat
    = [Waits worldAB_parked 0%nat] ∧
  UDPConn.SetReadDeadline (new_conn addrA netip.zero) (Some (-5))
    = (late_reader, None) ∧
  UDPConn.WriteTo late_reader worldAB hello (Some addrB)
    = [Returns worldAB (0, Some ErrDeadlineExceeded);
       Returns worldAB_parked (0, Some ErrDeadlineExceeded)].
Proof.
  split; [done|]. split; [done|].
  split; [reflexivity|]. split; [reflexivity|].
  split; [vm_compute; reflexivity|]. split; [vm_compute; reflexivity|].
  split; [reflexivity|]. vm_compute. reflexivity.
Qed.

(** ** C7: shutdown *)

Lemma loop_closed n m msgs : Network.closed n = true → loop n m msgs = Some (n, m).
Proof. intros H. destruct msgs; simpl; by rewrite H. Qed.

(** The outcomes of a read or of a write when the network is shut down:
    the send to the actor is not ready, the three other cases of the
    outer [select] are left. *)
Lemma commonRead_closed c w buffer :
  Network.closed (network w) = true →
  UDPConn.commonRead c w buffer =
    (if UDPConn.closed c
     then [Returns w (buffer, (0, netip.zero, Some ErrClosed))] else [])
    ++ [Returns w (buffer, (0, netip.zero, Some ErrClosed))]
    ++ (if pipeDeadline.wait (UDPConn.readDeadline c) (now w)
        then [Returns w (buffer, (0, netip.zero, Some ErrDeadlineExceeded))]
        else []).
Proof.
  intros Hn. unfold UDPConn.commonRead, select. simpl. rewrite Hn. simpl.
  by rewrite app_nil_r.
Qed.

Lemma commonWrite_closed c w data destAddr :
  Network.closed (network w) = true →
  UDPConn.commonWrite c w data destAddr =
    (if UDPConn.closed c then [Returns w (0, Some ErrClosed)] else [])
    ++ [Returns w (0, Some ErrClosed)]
    ++ (if pipeDeadline.wait (UDPConn.readDeadline c) (now w)
        then [Returns w (0, Some ErrDeadlineExceeded)] else []).
Proof.
  intros Hn. unfold UDPConn.commonWrite, select. simpl. rewrite Hn. simpl.
  by rewrite app_nil_r.
Qed.

(** C7, as the code has it.  The shutdown of the network is idempotent: a
    second [Close] does nothing and returns no error.  Once the network is
    shut down the actor handles no request; a bind fails with
    [ErrClosed]; a receive fails with [ErrClosed], or with the deadline
    error when the read deadline of the conn has fired as well; a send
    fails with [ErrClosed] or with the deadline error; both leave the
    world as it was; the unbind that the [Close] of a conn issues is
    skipped, and that [Close] closes the conn and returns no error. *)
Theorem shutdown_is_idempotent_and_final :
  (∀ n, Network.once n = Network.closed n →
     ∃ n1, Network.Close n = Some (n1, None) ∧
       Network.closed n1 = true ∧ Network.udp n1 = Network.udp n ∧
       Network.Close n1 = Some (n1, None)) ∧
  (∀ n m msgs, Network.closed n = true → loop n m msgs = Some (n, m)) ∧
  (∀ w a peer, Network.closed (network w) = true →
     UDPConn.NewUDPConn w a peer = [Returns w (None, Some ErrClosed)]) ∧
  (∀ c w buffer, Network.closed (network w) = true →
     Returns w (buffer, (0, netip.zero, Some ErrClosed))
       ∈ UDPConn.commonRead c w buffer ∧
     ∀ o, o ∈ UDPConn.commonRead c w buffer →
       o = Returns w (buffer, (0, netip.zero, Some ErrClosed)) ∨
       pipeDeadline.wait (UDPConn.readDeadline c) (now w) = true ∧
       o = Returns w (buffer, (0, netip.zero, Some ErrDeadlineExceeded))) ∧
  (∀ c w data destAddr, Network.closed (network w) = true →
     Returns w (0, Some ErrClosed) ∈ UDPConn.commonWrite c w data destAddr ∧
     ∀ o, o ∈ UDPConn.commonWrite c w data destAddr →
       o = Returns w (0, Some ErrClosed) ∨
       o = Returns w (0, Some ErrDeadlineExceeded)) ∧
  (∀ c w, Network.closed (network w) = true →
     UDPConn.once c = false → UDPConn.closed c = false →
     UDPConn.Close c w =
       [Returns w (UDPConn.mk true (UDPConn.localAddr c) true (UDPConn.peerAddr c)
                     (UDPConn.readDeadline c) (UDPConn.writeDeadline c), None)]).
Proof.
  split; [|split; [exact loop_closed|split; [|split; [|split]]]].
  - intros [cl on udp] Hon. simpl in Hon. subst on. unfold Network.Close. simpl.
    destruct cl; simpl; eauto.
  - intros w a peer Hn. unfold UDPConn.NewUDPConn, select. simpl.
    by rewrite Hn.
  - intros c w buffer Hn. rewrite commonRead_closed by done. split.
    + apply elem_of_app. right. left.
    + intros o Ho.
      apply elem_of_app in Ho as [Ho|Ho].
      { destruct (UDPConn.closed c); [|by inversion Ho].
        apply list_elem_of_singleton in Ho. by left. }
      apply elem_of_cons in Ho as [->|Ho]; [by left|].
      destruct (pipeDeadline.wait _ _); [|by inversion Ho].
      apply list_elem_of_singleton in Ho. by right.
  - intros c w data destAddr Hn. rewrite commonWrite_closed by done. split.
    + apply elem_of_app. right. left.
    + intros o Ho.
      apply elem_of_app in Ho as [Ho|Ho].
      { destruct (UDPConn.closed c); [|by inversion Ho].
        apply list_elem_of_singleton in Ho. by left. }
      apply elem_of_cons in Ho as [->|Ho]; [by left|].
      destruct (pipeDeadline.wait _ _); [|by inversion Ho].
      apply list_elem_of_singleton in Ho. by right.
  - intros c w Hn Honce Hcl. unfold UDPConn.Close, select. rewrite Honce. simpl.
    rewrite Hn. simpl. by rewrite Hcl.
Qed.

Lemma shutdown_is_idempotent_and_final_witness :
  Network.Close (network worldA) = Some (network worldA_closed, None) ∧
  Network.Close (network worldA_closed) = Some (network worldA_closed, None) ∧
  UDPConn.NewUDPConn worldA_closed addrB netip.zero
    = [Returns worldA_closed (None, Some ErrClosed)] ∧
  Returns worldA_closed (zeroes 8, (0, netip.zero, Some ErrClosed))
    ∈ UDPConn.commonRead (new_conn addrA netip.zero) worldA_closed (zeroes 8).
Proof.
  destruct shutdown_is_idempotent_and_final as (_ & _ & Hbind & Hread & _).
  split; [reflexivity|]. split; [reflexivity|]. split.
  - apply (Hbind worldA_closed addrB netip.zero). reflexivity.
  - apply (Hread (new_conn addrA netip.zero) worldA_closed (zeroes 8)). reflexivity.
Defined.

(** C7 as stated fails: after the shutdown, the unbind of [addrA] that the
    [Close] of its conn issues does not fail with [ErrClosed], the call
    returns [nil]; and a receive on a conn whose read deadline has fired
    can fail with the deadline error instead. *)
Lemma unbind_after_shutdown_returns_nil :
  Network.Close (network worldA) = Some (network worldA_closed, None) ∧
  UDPConn.Close (new_conn addrA netip.zero) worldA_closed
    = [Returns worldA_closed
         (UDPConn.mk true addrA true netip.zero
            pipeDeadline.makePipeDeadline pipeDeadline.makePipeDeadline, None)] ∧
  (¬ ∃ w c, Returns w (c, Some ErrClosed)
              ∈ UDPConn.Close (new_conn addrA netip.zero) worldA_closed) ∧
  Returns worldA_closed (zeroes 8, (0, netip.zero, Some ErrDeadlineExceeded))
    ∈ UDPConn.commonRead late_reader worldA_closed (zeroes 8).
Proof.
  split; [reflexivity|].
  assert (UDPConn.Close (new_conn addrA netip.zero) worldA_closed
    = [Returns worldA_closed
         (UDPConn.mk true addrA true netip.zero
            pipeDeadline.makePipeDeadline pipeDeadline.makePipeDeadline, None)]) as E
    by reflexivity.
  split; [exact E|]. split.
  - intros (w & c & Hin). rewrite E in Hin.
    apply list_elem_of_singleton in Hin. discriminate Hin.
  - assert (UDPConn.commonRead late_reader worldA_closed (zeroes 8) =
              [Returns worldA_closed (zeroes 8, (0, netip.zero, Some ErrClosed));
               Returns worldA_closed (zeroes 8, (0, netip.zero, Some ErrDeadlineExceeded))])
      as -> by reflexivity.
    right. left.
Qed.

(** ** C9: [Read] *)

Lemma Read_loop_S fuel c w buf o :
  o ∈ UDPConn.Read_loop (S fuel) c w buf ↔
  ∃ o1, o1 ∈ UDPConn.commonRead c w buf ∧
        o ∈ UDPConn.Read_next c (UDPConn.Read_loop fuel c) o1.
Proof.
  simpl. rewrite list_elem_of_bind. split; intros (o1 & ? & ?); by exists o1.
Qed.

Lemma Read_loop_spec c fuel : ∀ w buf o,
  o ∈ UDPConn.Read_loop fuel c w buf → o ≠ OutOfFuel → Read_spec c w buf o.
Proof.
  induction fuel as [|fuel IH]; intros w buf o Ho Hfuel.
  - simpl in Ho. apply list_elem_of_singleton in Ho. done.
  - apply Read_loop_S in Ho as (o1 & Ho1 & Ho).
    destruct o1 as [w1 [buf1 [[count source] [e|]]]|w1 p| |]; simpl in Ho.
    + apply list_elem_of_singleton in Ho as ->. by eapply Read_spec_error.
    + destruct (decide (source ≠ UDPConn.peerAddr c)) as [Hne|Heq].
      * eapply Read_spec_discard; [done..|]. by apply IH.
      * apply list_elem_of_singleton in Ho as ->.
        apply dec_stable in Heq. subst source. by eapply Read_spec_datagram.
    + apply list_elem_of_singleton in Ho as ->. by apply Read_spec_waits.
    + apply list_elem_of_singleton in Ho as ->. by apply Read_spec_panics.
    + apply list_elem_of_singleton in Ho. done.
Qed.

Lemma Read_spec_loop c w buf o :
  Read_spec c w buf o →
  o ≠ OutOfFuel ∧ ∃ fuel, o ∈ UDPConn.Read_loop fuel c w buf.
Proof.
  induction 1 as [w buf w1 buf1 count source o Hin Hne _ [Hfuel [fuel IH]]
                 |w buf w1 buf1 count Hin
                 |w buf w1 buf1 count source e Hin
                 |w buf w1 p Hin
                 |w buf Hin].
  - split; [done|]. exists (S fuel). apply Read_loop_S.
    eexists. split; [exact Hin|]. simpl. by rewrite decide_True.
  - split; [done|]. exists 1%nat. apply Read_loop_S.
    eexists. split; [exact Hin|]. simpl.
    rewrite decide_False by (intros ?; done). left.
  - split; [done|]. exists 1%nat. apply Read_loop_S.
    eexists. split; [exact Hin|]. simpl. left.
  - split; [done|]. exists 1%nat. apply Read_loop_S.
    eexists. split; [exact Hin|]. simpl. left.
  - split; [done|]. exists 1%nat. apply Read_loop_S.
    eexists. split; [exact Hin|]. simpl. left.
Qed.

Lemma not_allocated_not_parked_read n m p :
  parked_ok n m → reads m !! p = None → ¬ parked_read n p.
Proof.
  intros Hok Hp (a & st & Hst & Hin).
  destruct (parked_ok_read_alloc _ _ _ _ _ Hok Hst Hin) as (r & Hr & _).
  congruence.
Qed.

Lemma not_allocated_not_parked_write n m p :
  parked_ok n m → writes m !! p = None → ¬ parked_write n p.
Proof.
  intros Hok Hp (a & st & Hst & Hin).
  destruct (parked_ok_write_alloc _ _ _ _ _ Hok Hst Hin) as (w & Hw & _).
  congruence.
Qed.

(** Allocating a request leaves the parked requests well formed. *)
Lemma parked_ok_alloc_read n m p r :
  parked_ok n m → reads m !! p = None → parked_ok n (set_read p r m).
Proof.
  intros Hok Hp a st Hst. apply (queues_ok_frame m); [by apply Hok|..]; simpl.
  - intros x Hx. rewrite lookup_insert_ne; [done|]. intros <-.
    by eapply (not_allocated_not_parked_read n m p); [..|exists a, st].
  - done.
Qed.

Lemma parked_ok_alloc_write n m p w :
  parked_ok n m → writes m !! p = None → parked_ok n (set_write p w m).
Proof.
  intros Hok Hp a st Hst. apply (queues_ok_frame m); [by apply Hok|..]; simpl.
  - done.
  - intros x Hx. rewrite lookup_insert_ne; [done|]. intros <-.
    by eapply (not_allocated_not_parked_write n m p); [..|exists a, st].
Qed.

(** One [commonRead] on an idle conn at whose address the write request
    [d] is the oldest parked one: the read takes it. *)
Lemma commonRead_takes_oldest c w buf rs d rest wd :
  idle c w → parked_ok (network w) (memory w) →
  Network.udp (network w) !! UDPConn.localAddr c = Some (mk rs (d :: rest)) →
  writes (memory w) !! d = Some wd →
  ∃ w1,
    UDPConn.commonRead c w buf =
      [Returns w1 ((copy buf (networkWriteUDP.payload wd)).1,
                   ((copy buf (networkWriteUDP.payload wd)).2,
                    networkWriteUDP.sourceAddr wd, None))] ∧
    idle c w1 ∧ parked_ok (network w1) (memory w1) ∧
    Network.udp (network w1) !! UDPConn.localAddr c = Some (mk rs rest) ∧
    ∀ p, p ≠ d → writes (memory w1) !! p = writes (memory w) !! p.
Proof.
  intros Hi Hok Hst Hd.
  set (p := fresh (dom (reads (memory w)))).
  set (req := read_request c buf).
  set (m0 := set_read p req (memory w)).
  assert (reads (memory w) !! p = None) as Hp by apply fresh_read_None.
  assert (parked_ok (network w) m0) as Hok0 by by apply parked_ok_alloc_read.
  destruct (parked_ok_write_addr _ _ _ _ d wd Hok Hst ltac:(left) Hd) as [_ Hwa].
  assert (Network.onReadUDP (network w) m0 p =
            Some (Network.set_udp (<[UDPConn.localAddr c := mk rs rest]>
                                     (Network.udp (network w))) (network w),
                  set_read p (matched_read req wd)
                    (set_write d (networkWriteUDP.set_ack true wd) m0))) as Hstep.
  { apply (onReadUDP_match _ _ _ req (mk rs (d :: rest)) d rest wd); try done.
    simpl. apply lookup_insert_eq. }
  eexists (mkWorld _ _ (now w)). split; [|split; [|split; [|split]]].
  - rewrite commonRead_idle by done. cbv zeta. fold p req m0. rewrite Hstep.
    rewrite (commonRead_ack_idle c _ p (matched_read req wd)).
    + done.
    + destruct Hi as (? & ? & ?). by split.
    + simpl. apply lookup_insert_eq.
  - destruct Hi as (? & ? & ?). by split.
  - eapply (onReadUDP_parked_ok (network w) m0 p); [done| |exact Hstep].
    split; [by apply (not_allocated_not_parked_read _ (memory w))|].
    unfold m0. simpl. by rewrite lookup_insert_eq.
  - simpl. apply lookup_insert_eq.
  - intros q Hq. simpl. by rewrite lookup_insert_ne.
Qed.

(** One [commonRead] on an idle conn at whose address no write request is
    parked: the read parks and the call waits. *)
Lemma commonRead_parks c w buf rs :
  idle c w →
  Network.udp (network w) !! UDPConn.localAddr c = Some (mk rs []) →
  let p := fresh (dom (reads (memory w))) in
  UDPConn.commonRead c w buf =
    [Waits (mkWorld (Network.set_udp (<[UDPConn.localAddr c := mk (rs ++ [p]) []]>
                                        (Network.udp (network w))) (network w))
                    (set_read p (read_request c buf) (memory w)) (now w)) p].
Proof.
  intros Hi Hst p.
  rewrite commonRead_idle by done. cbv zeta. fold p.
  rewrite (onReadUDP_park _ _ p (read_request c buf) (mk rs [])); [| |done..].
  2:{ simpl. apply lookup_insert_eq. }
  rewrite (commonRead_ack_idle c _ p (read_request c buf)).
  - done.
  - destruct Hi as (? & ? & ?). by split.
  - simpl. apply lookup_insert_eq.
Qed.

(** The loop of [Read] goes through the datagrams that are not from the
    peer, one iteration each. *)
Lemma Read_loop_discards c ds : ∀ w buf rs rest,
  idle c w → parked_ok (network w) (memory w) →
  Network.udp (network w) !! UDPConn.localAddr c = Some (mk rs (ds ++ rest)) →
  Forall (from_other c (memory w)) ds →
  ∃ w1 buf1,
    (∀ fuel, UDPConn.Read_loop (length ds + fuel) c w buf
             = UDPConn.Read_loop fuel c w1 buf1) ∧
    idle c w1 ∧ parked_ok (network w1) (memory w1) ∧
    Network.udp (network w1) !! UDPConn.localAddr c = Some (mk rs rest) ∧
    length buf1 = length buf ∧
    ∀ p, p ∈ rest → writes (memory w1) !! p = writes (memory w) !! p.
Proof.
  induction ds as [|d ds IH]; intros w buf rs rest Hi Hok Hst Hds.
  - exists w, buf. done.
  - apply list.Forall_cons in Hds as [Hd Hds].
    unfold from_other in Hd.
    destruct (writes (memory w) !! d) as [wd|] eqn:Ewd; [|done].
    destruct (commonRead_takes_oldest c w buf rs d (ds ++ rest) wd Hi Hok Hst Ewd)
      as (w1 & Hread & Hi1 & Hok1 & Hst1 & Hframe).
    destruct (Hok _ _ Hst) as (_ & Hnd & _). simpl in Hnd.
    apply list.NoDup_cons in Hnd as [Hd_notin _].
    destruct (IH w1 (copy buf (networkWriteUDP.payload wd)).1 rs rest Hi1 Hok1 Hst1)
      as (w2 & buf2 & Hloop & Hi2 & Hok2 & Hst2 & Hlen & Hframe2).
    { apply list.Forall_forall. intros x Hx. unfold from_other.
      rewrite Hframe.
      - by apply (proj1 (list.Forall_forall _ _) Hds).
      - intros ->. apply Hd_notin, elem_of_app. by left. }
    exists w2, buf2. split; [|split; [done|split; [done|split; [done|split]]]].
    + intros fuel. rewrite <- Hloop.
      change (length (d :: ds) + fuel)%nat with (S (length ds + fuel)).
      simpl UDPConn.Read_loop at 1. rewrite Hread. simpl.
      rewrite decide_True by done. by rewrite app_nil_r.
    + by rewrite Hlen, copy_length.
    + intros p Hp. rewrite Hframe2 by done. apply Hframe.
      intros ->. apply Hd_notin, elem_of_app. by right.
Qed.

(** C9. [Read] on a conn with no peer fails with [ENOTCONN] and leaves
    the world as it is: the actor is not contacted.  On a connected conn
    the outcomes of [Read] are those of performing the common receive
    repeatedly, discarding every datagram whose recorded sender differs
    from the peer, and returning the byte count of the first datagram
    whose sender is the peer, or the error of the common receive (the
    deadline fired, the conn or the network is closed).  With datagrams
    parked at the address of an idle conn, the first of which from the
    peer comes after [length ds] datagrams of others, [Read] returns the
    byte count of that datagram, which is in the buffer, as soon as it has
    fuel for [length ds + 1] iterations; and when only datagrams of others
    are parked, [Read] consumes them all and waits. *)
Theorem Read_returns_first_datagram_of_peer :
  (∀ fuel c w buf,
     netip.IsValid (UDPConn.peerAddr c) = false →
     UDPConn.Read fuel c w buf = [Returns w (buf, (0, Some (Errno syscall.ENOTCONN)))]) ∧
  (∀ c w buf o,
     netip.IsValid (UDPConn.peerAddr c) = true →
     Read_spec c w buf o ↔
     o ≠ OutOfFuel ∧ ∃ fuel, o ∈ UDPConn.Read fuel c w buf) ∧
  (∀ c w buf rs ds pw rest wp,
     netip.IsValid (UDPConn.peerAddr c) = true →
     idle c w → parked_ok (network w) (memory w) →
     Network.udp (network w) !! UDPConn.localAddr c = Some (mk rs (ds ++ pw :: rest)) →
     Forall (from_other c (memory w)) ds →
     writes (memory w) !! pw = Some wp →
     networkWriteUDP.sourceAddr wp = UDPConn.peerAddr c →
     let n := Z.min (Z.of_nat (length (networkWriteUDP.payload wp)))
                    (Z.of_nat (length buf)) in
     ∃ w' buf',
       (∀ fuel, (length ds < fuel)%nat →
          UDPConn.Read fuel c w buf = [Returns w' (buf', (n, None))]) ∧
       take (Z.to_nat n) buf' = take (Z.to_nat n) (networkWriteUDP.payload wp) ∧
       Network.udp (network w') !! UDPConn.localAddr c = Some (mk rs rest)) ∧
  (∀ c w buf rs ds,
     netip.IsValid (UDPConn.peerAddr c) = true →
     idle c w → parked_ok (network w) (memory w) →
     Network.udp (network w) !! UDPConn.localAddr c = Some (mk rs ds) →
     Forall (from_other c (memory w)) ds →
     ∃ w' p,
       (∀ fuel, (length ds < fuel)%nat →
          UDPConn.Read fuel c w buf = [Waits w' p]) ∧
       Network.udp (network w') !! UDPConn.localAddr c = Some (mk (rs ++ [p]) [])).
Proof.
  split; [|split; [|split]].
  - intros fuel c w buf Hpeer. unfold UDPConn.Read. by rewrite Hpeer.
  - intros c w buf o Hpeer. unfold UDPConn.Read. rewrite Hpeer. simpl. split.
    + apply Read_spec_loop.
    + intros (Hfuel & fuel & Ho). by eapply Read_loop_spec.
  - intros c w buf rs ds pw rest wp Hpeer Hi Hok Hst Hds Hpw Hsrc n.
    destruct (Read_loop_discards c ds w buf rs (pw :: rest) Hi Hok Hst Hds)
      as (w1 & buf1 & Hloop & Hi1 & Hok1 & Hst1 & Hlen & Hframe).
    assert (writes (memory w1) !! pw = Some wp) as Hpw1
      by (rewrite Hframe; [done|left]).
    destruct (commonRead_takes_oldest c w1 buf1 rs pw rest wp Hi1 Hok1 Hst1 Hpw1)
      as (w2 & Hread & _ & _ & Hst2 & _).
    assert ((copy buf1 (networkWriteUDP.payload wp)).2 = n) as Hn
      by (rewrite copy_count, Hlen; done).
    rewrite Hn, Hsrc in Hread.
    exists w2, (copy buf1 (networkWriteUDP.payload wp)).1.
    split; [|split; [|done]].
    + intros fuel Hfuel. unfold UDPConn.Read. rewrite Hpeer. simpl.
      replace fuel with (length ds + S (fuel - S (length ds)))%nat by lia.
      rewrite Hloop. simpl. rewrite Hread. simpl.
      by rewrite decide_False by (intros Hne; by apply Hne).
    + rewrite copy_buffer, Hn. apply take_app_length'.
      rewrite length_take. lia.
  - intros c w buf rs ds Hpeer Hi Hok Hst Hds.
    rewrite <- (app_nil_r ds) in Hst.
    destruct (Read_loop_discards c ds w buf rs [] Hi Hok Hst Hds)
      as (w1 & buf1 & Hloop & Hi1 & Hok1 & Hst1 & Hlen & Hframe).
    pose proof (commonRead_parks c w1 buf1 rs Hi1 Hst1) as Hread.
    cbv zeta in Hread.
    eexists _, _. split.
    + intros fuel Hfuel. unfold UDPConn.Read. rewrite Hpeer. simpl.
      replace fuel with (length ds + S (fuel - S (length ds)))%nat by lia.
      rewrite Hloop. simpl. rewrite Hread. simpl. done.
    + simpl. apply lookup_insert_eq.
Qed.

Lemma Read_returns_first_datagram_of_peer_witness :
  ∃ w' buf',
    (∀ fuel, (1 < fuel)%nat →
       UDPConn.Read fuel (new_conn addrB addrA) read_world (zeroes 8)
       = [Returns w' (buf', (5, None))]) ∧
    take 5 buf' = hello ∧
    Network.udp (network w') !! addrB = Some (mk [] []).
Proof.
  destruct Read_returns_first_datagram_of_peer as (_ & _ & H & _).
  apply (H (new_conn addrB addrA) read_world (zeroes 8) [] [1%nat] 2%nat [] fifo_w1).
  - reflexivity.
  - refine (bool_decide_unpack _ _). vm_compute. exact I.
  - refine (bool_decide_unpack _ _). vm_compute. exact I.
  - vm_compute. reflexivity.
  - refine (bool_decide_unpack _ _). vm_compute. exact I.
  - vm_compute. reflexivity.
  - reflexivity.
Defined.

(** * Further properties of the code *)

(** ** The mode of a conn *)

(** X1. The peer address decides which calls a conn accepts, before
    anything else is looked at.  On an unconnected conn, the one whose
    [RemoteAddr] is [nil], [Read] and [Write] fail with [ENOTCONN] and
    [WriteTo] with an address that does not parse fails with [EINVAL];
    on a connected conn [ReadFrom] and [WriteTo] fail with [EISCONN],
    whatever the address.  None of these failures touches the world. *)
Theorem conn_mode_selects_the_calls
    (c : UDPConn.t) (w : World) (fuel : nat) (buf data : bytes)
    (parsed : option AddrPort) :
  match UDPConn.RemoteAddr c with
  | None =>
      UDPConn.Read fuel c w buf =
        [Returns w (buf, (0, Some (Errno syscall.ENOTCONN)))] ∧
      UDPConn.Write c w data = [Returns w (0, Some (Errno syscall.ENOTCONN))] ∧
      UDPConn.WriteTo c w data None = [Returns w (0, Some (Errno syscall.EINVAL))] ∧
      UDPConn.ReadFrom c w buf =
        UDPConn.ReadFrom_result <$> UDPConn.commonRead c w buf ∧
      ∀ dest, UDPConn.WriteTo c w data (Some dest) = UDPConn.commonWrite c w data dest
  | Some peer =>
      peer = UDPConn.peerAddr c ∧ peer ≠ netip.zero ∧
      UDPConn.ReadFrom c w buf =
        [Returns w (buf, (0, None, Some (Errno syscall.EISCONN)))] ∧
      UDPConn.WriteTo c w data parsed = [Returns w (0, Some (Errno syscall.EISCONN))] ∧
      UDPConn.Write c w data = UDPConn.commonWrite c w data peer ∧
      UDPConn.Read fuel c w buf = UDPConn.Read_loop fuel c w buf
  end.
Proof.
  unfold UDPConn.RemoteAddr, UDPConn.Read, UDPConn.Write, UDPConn.WriteTo,
    UDPConn.ReadFrom.
  destruct (netip.IsValid (UDPConn.peerAddr c)) eqn:E; simpl; [|done].
  repeat split; try done. intros H. by rewrite H in E.
Qed.

(** ** Closing a conn *)

Lemma set_udp_id n : Network.set_udp (Network.udp n) n = n.
Proof. by destruct n. Qed.

(** [Close] on an open conn while the network runs: the actor handles the
    unbind at once, and its answer is not looked at. *)
Lemma Close_running c w :
  Network.closed (network w) = false →
  UDPConn.once c = false → UDPConn.closed c = false →
  UDPConn.Close c w = [Returns (unbound (UDPConn.localAddr c) w) (closed_conn c, None)].
Proof.
  intros Hn Ho Hc. unfold UDPConn.Close. rewrite Ho, Hn.
  rewrite onDeleteConnUDP_eq by done. simpl.
  unfold unbound, closed_conn.
  destruct (Network.udp (network w) !! UDPConn.localAddr c) eqn:E.

  all: unfold UDPConn.Close_ack, select_or_wait, select; simpl;
    rewrite ?Hn; simpl; rewrite ?Hc; simpl.
  - done.
  - rewrite delete_id, set_udp_id by done. by destruct w.
Qed.

(** X2. [Close] on an open conn of a running network has one outcome: it
    returns [nil], the conn is closed, and the actor holds no state for
    the local address any more, also when it held none before (the
    [EBADF] of the actor is dropped).  The other addresses and the
    requests in the memory are untouched, and a second [Close] does
    nothing, in whatever world. *)
Theorem Close_unbinds_and_runs_once (c : UDPConn.t) (w : World) :
  Network.closed (network w) = false →
  UDPConn.once c = false → UDPConn.closed c = false →
  ∃ w' c',
    UDPConn.Close c w = [Returns w' (c', None)] ∧
    UDPConn.closed c' = true ∧
    UDPConn.LocalAddr c' = UDPConn.LocalAddr c ∧
    UDPConn.RemoteAddr c' = UDPConn.RemoteAddr c ∧
    Network.udp (network w') !! UDPConn.localAddr c = None ∧
    (∀ a, a ≠ UDPConn.localAddr c →
       Network.udp (network w') !! a = Network.udp (network w) !! a) ∧
    Network.closed (network w') = false ∧
    memory w' = memory w ∧
    ∀ w2, UDPConn.Close c' w2 = [Returns w2 (c', None)].
Proof.
  intros Hn Ho Hc. exists (unbound (UDPConn.localAddr c) w), (closed_conn c).
  split; [by apply Close_running|].
  repeat split; try done.
  - simpl. apply lookup_delete_eq.
  - intros a Ha. simpl. by rewrite lookup_delete_ne.
Qed.

(** The conn of [addrB] is closed in [worldAB]: [addrA] stays bound. *)
Lemma Close_unbinds_and_runs_once_witness :
  ∃ w' c',
    UDPConn.Close (new_conn addrB netip.zero) worldAB = [Returns w' (c', None)] ∧
    UDPConn.closed c' = true ∧
    UDPConn.LocalAddr c' = UDPConn.LocalAddr (new_conn addrB netip.zero) ∧
    UDPConn.RemoteAddr c' = UDPConn.RemoteAddr (new_conn addrB netip.zero) ∧
    Network.udp (network w') !! addrB = None ∧
    (∀ a, a ≠ addrB →
       Network.udp (network w') !! a = Network.udp (network worldAB) !! a) ∧
    Network.closed (network w') = false ∧
    memory w' = memory worldAB ∧
    ∀ w2, UDPConn.Close c' w2 = [Returns w2 (c', None)].
Proof.
  apply (Close_unbinds_and_runs_once (new_conn addrB netip.zero) worldAB);
    reflexivity.
Defined.

(** X3. Binding an address that is free and closing the conn that comes
    back is a round trip: the world is again the one before the bind, in which
    the address is free. *)
Theorem bind_then_Close_restores_the_world
    (w : World) (a peer : AddrPort) :
  Network.closed (network w) = false →
  Network.udp (network w) !! a = None →
  ∃ c w1,
    UDPConn.NewUDPConn w a peer = [Returns w1 (Some c, None)] ∧
    UDPConn.LocalAddr c = Some a ∧
    Network.udp (network w1) !! a = Some (mk [] []) ∧
    UDPConn.Close c w1 = [Returns w (closed_conn c, None)].
Proof.
  intros Hn Ha. rewrite NewUDPConn_running by done. rewrite Ha.
  eexists _, _. split; [reflexivity|]. split; [done|].
  split; [simpl; apply lookup_insert_eq|].
  rewrite Close_running by done. unfold unbound. simpl.
  rewrite delete_insert_id by done.
  destruct w as [[cl on u] m t]. done.
Qed.

Lemma bind_then_Close_restores_the_world_witness :
  ∃ c w1,
    UDPConn.NewUDPConn worldA addrB addrA = [Returns w1 (Some c, None)] ∧
    UDPConn.LocalAddr c = Some addrB ∧
    Network.udp (network w1) !! addrB = Some (mk [] []) ∧
    UDPConn.Close c w1 = [Returns worldA (closed_conn c, None)].
Proof.
  apply (bind_then_Close_restores_the_world worldA addrB addrA);
    vm_compute; reflexivity.
Defined.

Lemma idle_unbound c a w : idle c w → idle c (unbound a w).
Proof. done. Qed.

(** A read at an address that the actor does not know fails with
    [EBADF]. *)
Lemma commonRead_unbound c w buf :
  idle c w →
  Network.udp (network w) !! UDPConn.localAddr c = None →
  ∃ w1,
    UDPConn.commonRead c w buf =
      [Returns w1 (buf, (0, netip.zero, Some (Errno syscall.EBADF)))] ∧
    network w1 = network w.
Proof.
  intros Hidle Ha. rewrite commonRead_idle by done. simpl.
  rewrite (onReadUDP_unbound _ _ _ (read_request c buf))
    by (done || apply lookup_insert_eq).
  erewrite commonRead_ack_idle; [|done|apply lookup_insert_eq]. simpl.
  eexists. split; reflexivity.
Qed.

(** X4. [NewUDPConn] hands back a conn also when the bind fails with
    [EADDRNOTAVAIL].  Closing that conn unbinds the address, which
    belongs to the conn that bound it first: the next [ReadFrom] of the
    owner fails with [EBADF]. *)
Theorem Close_of_the_rejected_conn_unbinds_the_owner
    (w : World) (c1 : UDPConn.t) (peer : AddrPort) (buf : bytes) :
  idle c1 w →
  netip.IsValid (UDPConn.peerAddr c1) = false →
  is_Some (Network.udp (network w) !! UDPConn.localAddr c1) →
  ∃ c2 w1 w2,
    UDPConn.NewUDPConn w (UDPConn.localAddr c1) peer =
      [Returns w (Some c2, Some (Errno syscall.EADDRNOTAVAIL))] ∧
    UDPConn.Close c2 w = [Returns w1 (closed_conn c2, None)] ∧
    Network.udp (network w1) !! UDPConn.localAddr c1 = None ∧
    UDPConn.ReadFrom c1 w1 buf =
      [Returns w2 (buf, (0, None, Some (Errno syscall.EBADF)))].
Proof.
  intros Hidle Hpeer [st Hst].
  pose proof Hidle as (Hc & Hn & Hd).
  destruct (commonRead_unbound c1 (unbound (UDPConn.localAddr c1) w) buf)
    as (w2 & Hread & _); [done|apply lookup_delete_eq|].
  exists (new_conn (UDPConn.localAddr c1) peer),
    (unbound (UDPConn.localAddr c1) w), w2.
  split; [by rewrite NewUDPConn_running, Hst|].
  split; [by apply (Close_running (new_conn (UDPConn.localAddr c1) peer))|].
  split; [apply lookup_delete_eq|].
  unfold UDPConn.ReadFrom. rewrite Hpeer, Hread. done.
Qed.

(** [addrA] is bound in [worldA]; a second conn is made for it. *)
Lemma Close_of_the_rejected_conn_unbinds_the_owner_witness :
  ∃ c2 w1 w2,
    UDPConn.NewUDPConn worldA addrA addrB =
      [Returns worldA (Some c2, Some (Errno syscall.EADDRNOTAVAIL))] ∧
    UDPConn.Close c2 worldA = [Returns w1 (closed_conn c2, None)] ∧
    Network.udp (network w1) !! addrA = None ∧
    UDPConn.ReadFrom (new_conn addrA netip.zero) w1 (zeroes 8) =
      [Returns w2 (zeroes 8, (0, None, Some (Errno syscall.EBADF)))].
Proof.
  apply (Close_of_the_rejected_conn_unbinds_the_owner
           worldA (new_conn addrA netip.zero) addrB (zeroes 8)).
  - refine (bool_decide_unpack _ _). vm_compute. exact I.
  - reflexivity.
  - refine (bool_decide_unpack _ _). vm_compute. exact I.
Defined.

(** ** Closing while a call is blocked *)

(** A write to a bound address where no read is blocked parks. *)
Lemma commonWrite_parks c w data dest ws :
  idle c w →
  Network.udp (network w) !! dest = Some (mk [] ws) →
  let p := fresh (dom (writes (memory w))) in
  UDPConn.commonWrite c w data dest =
    [Waits (mkWorld (Network.set_udp (<[dest := mk [] (ws ++ [p])]>
                                        (Network.udp (network w))) (network w))
                    (set_write p (write_request c data dest) (memory w)) (now w)) p].
Proof.
  intros Hidle Ha p. rewrite commonWrite_idle by done. cbv zeta. fold p.
  rewrite (onWriteUDP_park _ _ p (write_request c data dest) (mk [] ws));
    [| |done..].
  2:{ simpl. apply lookup_insert_eq. }
  rewrite (commonWrite_ack_idle c _ _ p (write_request c data dest)).
  - done.
  - destruct Hidle as (? & ? & ?). by split.
  - simpl. apply lookup_insert_eq.
Qed.

(** X5. A read that is blocked is released with [ErrClosed], its buffer
    untouched, by the [Close] of its conn and by the [Close] of the
    network.  After the [Close] of the network the request is still in
    the queue of the actor. *)
Theorem closing_releases_a_blocked_read
    (c : UDPConn.t) (w : World) (buf : bytes) (rs : list ptr) :
  idle c w →
  UDPConn.once c = false → Network.once (network w) = false →
  Network.udp (network w) !! UDPConn.localAddr c = Some (mk rs []) →
  ∃ p w1,
    UDPConn.commonRead c w buf = [Waits w1 p] ∧
    (∃ w2 c',
       UDPConn.Close c w1 = [Returns w2 (c', None)] ∧
       UDPConn.commonRead_ack c' w2 p =
         [Returns w2 (buf, (0, netip.zero, Some ErrClosed))]) ∧
    (∃ n2,
       Network.Close (network w1) = Some (n2, None) ∧
       UDPConn.commonRead_ack c (mkWorld n2 (memory w1) (now w1)) p =
         [Returns (mkWorld n2 (memory w1) (now w1))
                  (buf, (0, netip.zero, Some ErrClosed))] ∧
       parked_read n2 p).
Proof.
  intros Hidle Ho Hon Ha. pose proof Hidle as (Hc & Hn & Hd).
  eexists _, _. split; [by apply (commonRead_parks c w buf rs)|].
  split.
  - eexists _, _. split; [by apply Close_running|].
    unfold UDPConn.commonRead_ack. simpl. rewrite lookup_insert_eq.
    unfold select_or_wait, select. simpl. by rewrite Hn, Hd.
  - unfold Network.Close. simpl. rewrite Hon, Hn. simpl.
    eexists. split; [reflexivity|]. split.
    + unfold UDPConn.commonRead_ack. simpl. rewrite lookup_insert_eq.
      unfold select_or_wait, select. simpl. by rewrite Hc, Hd.
    + eexists _, _. split; [apply lookup_insert_eq|].
      simpl. apply elem_of_app. right. left.
Qed.

Lemma closing_releases_a_blocked_read_witness :
  ∃ p w1,
    UDPConn.commonRead (new_conn addrA netip.zero) worldA (zeroes 8) = [Waits w1 p] ∧
    (∃ w2 c',
       UDPConn.Close (new_conn addrA netip.zero) w1 = [Returns w2 (c', None)] ∧
       UDPConn.commonRead_ack c' w2 p =
         [Returns w2 (zeroes 8, (0, netip.zero, Some ErrClosed))]) ∧
    (∃ n2,
       Network.Close (network w1) = Some (n2, None) ∧
       UDPConn.commonRead_ack (new_conn addrA netip.zero)
         (mkWorld n2 (memory w1) (now w1)) p =
         [Returns (mkWorld n2 (memory w1) (now w1))
                  (zeroes 8, (0, netip.zero, Some ErrClosed))] ∧
       parked_read n2 p).
Proof.
  apply (closing_releases_a_blocked_read
           (new_conn addrA netip.zero) worldA (zeroes 8) []).
  - refine (bool_decide_unpack _ _). vm_compute. exact I.
  - reflexivity.
  - reflexivity.
  - vm_compute. reflexivity.
Defined.

(** X6. A write that is blocked is released with the count 0 and
    [ErrClosed] by the [Close] of its conn and by the [Close] of the
    network; the datagram stays in the queue of its destination. *)
Theorem closing_releases_a_blocked_write
    (c : UDPConn.t) (w : World) (data : bytes) (dest : AddrPort) (ws : list ptr) :
  idle c w →
  UDPConn.once c = false → Network.once (network w) = false →
  UDPConn.localAddr c ≠ dest →
  Network.udp (network w) !! dest = Some (mk [] ws) →
  ∃ p w1,
    UDPConn.commonWrite c w data dest = [Waits w1 p] ∧
    (∃ w2 c',
       UDPConn.Close c w1 = [Returns w2 (c', None)] ∧
       UDPConn.commonWrite_ack c' w2 (Z.of_nat (length data)) p =
         [Returns w2 (0, Some ErrClosed)] ∧
       Network.udp (network w2) !! dest = Some (mk [] (ws ++ [p]))) ∧
    (∃ n2,
       Network.Close (network w1) = Some (n2, None) ∧
       UDPConn.commonWrite_ack c (mkWorld n2 (memory w1) (now w1))
         (Z.of_nat (length data)) p =
         [Returns (mkWorld n2 (memory w1) (now w1)) (0, Some ErrClosed)] ∧
       Network.udp n2 !! dest = Some (mk [] (ws ++ [p]))).
Proof.
  intros Hidle Ho Hon Hne Ha. pose proof Hidle as (Hc & Hn & Hd).
  eexists _, _. split; [by apply (commonWrite_parks c w data dest ws)|].
  split.
  - eexists _, _. split; [by apply Close_running|]. split.
    + unfold UDPConn.commonWrite_ack. simpl. rewrite lookup_insert_eq.
      unfold select_or_wait, select. simpl. by rewrite Hn, Hd.
    + simpl. rewrite lookup_delete_ne by done. apply lookup_insert_eq.
  - unfold Network.Close. simpl. rewrite Hon, Hn. simpl.
    eexists. split; [reflexivity|]. split.
    + unfold UDPConn.commonWrite_ack. simpl. rewrite lookup_insert_eq.
      unfold select_or_wait, select. simpl. by rewrite Hc, Hd.
    + simpl. apply lookup_insert_eq.
Qed.

Lemma closing_releases_a_blocked_write_witness :
  ∃ p w1,
    UDPConn.commonWrite (new_conn addrA netip.zero) worldAB hello addrB
      = [Waits w1 p] ∧
    (∃ w2 c',
       UDPConn.Close (new_conn addrA netip.zero) w1 = [Returns w2 (c', None)] ∧
       UDPConn.commonWrite_ack c' w2 (Z.of_nat (length hello)) p =
         [Returns w2 (0, Some ErrClosed)] ∧
       Network.udp (network w2) !! addrB = Some (mk [] ([] ++ [p]))) ∧
    (∃ n2,
       Network.Close (network w1) = Some (n2, None) ∧
       UDPConn.commonWrite_ack (new_conn addrA netip.zero)
         (mkWorld n2 (memory w1) (now w1)) (Z.of_nat (length hello)) p =
         [Returns (mkWorld n2 (memory w1) (now w1)) (0, Some ErrClosed)] ∧
       Network.udp n2 !! addrB = Some (mk [] ([] ++ [p]))).
Proof.
  apply (closing_releases_a_blocked_write
           (new_conn addrA netip.zero) worldAB hello addrB []).
  - refine (bool_decide_unpack _ _). vm_compute. exact I.
  - reflexivity.
  - reflexivity.
  - done.
  - vm_compute. reflexivity.
Defined.

(** ** Calls that cannot block *)

(** In a world whose queues are well formed the actor takes the fresh
    request of a read, and of a write. *)
Lemma onReadUDP_fresh n m r :
  parked_ok n m → networkReadUDP.ack r = false →
  let p := fresh (dom (reads m)) in
  ∃ n' m' r',
    Network.onReadUDP n (set_read p r m) p = Some (n', m') ∧
    reads m' !! p = Some r' ∧ Network.closed n' = Network.closed n.
Proof.
  intros Hok Hack p.
  pose proof (fresh_read_None m) as Hp. fold p in Hp.
  assert (parked_ok n (set_read p r m)) as Hok' by by apply parked_ok_alloc_read.
  assert (arrives_ok n (set_read p r m) (readUDP p)) as Harr.
  { split; [by apply (not_allocated_not_parked_read n m)|].
    simpl. by rewrite lookup_insert_eq. }
  destruct (loop_case_no_panic _ _ _ Hok' Harr) as [[n' m'] Hstep].
  destruct (loop_case_read_addr _ _ _ _ _ p r Hstep) as (r' & Hr' & _);
    [simpl; apply lookup_insert_eq|].
  exists n', m', r'. split; [exact Hstep|]. split; [done|].
  by apply (loop_case_closed _ _ _ _ _ Hstep).
Qed.

Lemma onWriteUDP_fresh n m r :
  parked_ok n m → networkWriteUDP.ack r = false →
  let p := fresh (dom (writes m)) in
  ∃ n' m' r',
    Network.onWriteUDP n (set_write p r m) p = Some (n', m') ∧
    writes m' !! p = Some r' ∧ Network.closed n' = Network.closed n.
Proof.
  intros Hok Hack p.
  pose proof (fresh_write_None m) as Hp. fold p in Hp.
  assert (parked_ok n (set_write p r m)) as Hok' by by apply parked_ok_alloc_write.
  assert (arrives_ok n (set_write p r m) (writeUDP p)) as Harr.
  { split; [by apply (not_allocated_not_parked_write n m)|].
    simpl. by rewrite lookup_insert_eq. }
  destruct (loop_case_no_panic _ _ _ Hok' Harr) as [[n' m'] Hstep].
  destruct (loop_case_write_addr _ _ _ _ _ p r Hstep) as (r' & Hr' & _);
    [simpl; apply lookup_insert_eq|].
  exists n', m', r'. split; [exact Hstep|]. split; [done|].
  by apply (loop_case_closed _ _ _ _ _ Hstep).
Qed.

Ltac outcome_cases H :=
  repeat (apply elem_of_cons in H as [-> | H]); try (by left);
  try (by apply elem_of_nil in H).

(** [commonRead] in a well-formed world returns, or waits; it waits only
    when the conn is idle. *)
Lemma commonRead_outcomes c w buf o :
  parked_ok (network w) (memory w) →
  o ∈ UDPConn.commonRead c w buf →
  returns o ∨ idle c w ∧ ∃ w1 p, o = Waits w1 p.
Proof.
  intros Hok Ho.
  destruct (Network.closed (network w)) eqn:Hn.
  { rewrite commonRead_closed in Ho by done.
    destruct (UDPConn.closed c), (pipeDeadline.wait _ _); simpl in Ho;
      outcome_cases Ho. }
  destruct (onReadUDP_fresh (network w) (memory w)
              (networkReadUDP.mk false buf 0 None (UDPConn.localAddr c) netip.zero)
              Hok eq_refl) as (n' & m' & r' & Hstep & Hr' & Hn').
  unfold UDPConn.commonRead, select in Ho. rewrite Hn in Ho. simpl in Ho.
  rewrite Hstep in Ho. unfold UDPConn.commonRead_ack in Ho. simpl in Ho.
  rewrite Hr' in Ho. unfold select_or_wait, select in Ho. simpl in Ho.
  rewrite Hn', Hn in Ho. unfold idle. rewrite Hn.
  destruct (UDPConn.closed c), (pipeDeadline.wait _ _),
    (networkReadUDP.ack r'); simpl in Ho; outcome_cases Ho.
  right. split; [done|]. by eexists _, _.
Qed.

Lemma commonWrite_outcomes c w data dest o :
  parked_ok (network w) (memory w) →
  o ∈ UDPConn.commonWrite c w data dest →
  returns o ∨ idle c w ∧ ∃ w1 p, o = Waits w1 p.
Proof.
  intros Hok Ho.
  destruct (Network.closed (network w)) eqn:Hn.
  { rewrite commonWrite_closed in Ho by done.
    destruct (UDPConn.closed c), (pipeDeadline.wait _ _); simpl in Ho;
      outcome_cases Ho. }
  destruct (onWriteUDP_fresh (network w) (memory w)
              (networkWriteUDP.mk false dest None data (UDPConn.localAddr c))
              Hok eq_refl) as (n' & m' & r' & Hstep & Hr' & Hn').
  unfold UDPConn.commonWrite, select in Ho. rewrite Hn in Ho. simpl in Ho.
  rewrite Hstep in Ho. unfold UDPConn.commonWrite_ack in Ho. simpl in Ho.
  rewrite Hr' in Ho. unfold select_or_wait, select in Ho. simpl in Ho.
  rewrite Hn', Hn in Ho. unfold idle. rewrite Hn.
  destruct (UDPConn.closed c), (pipeDeadline.wait _ _),
    (networkWriteUDP.ack r'); simpl in Ho; outcome_cases Ho.
  right. split; [done|]. by eexists _, _.
Qed.

(** A call on a conn that is not idle does not wait. *)
Lemma commonRead_not_idle c w buf :
  parked_ok (network w) (memory w) → ¬ idle c w →
  Forall returns (UDPConn.commonRead c w buf).
Proof.
  intros Hok Hni. apply list.Forall_forall. intros o Ho.
  destruct (commonRead_outcomes _ _ _ _ Hok Ho) as [?|[? _]]; done.
Qed.

Lemma commonWrite_not_idle c w data dest :
  parked_ok (network w) (memory w) → ¬ idle c w →
  Forall returns (UDPConn.commonWrite c w data dest).
Proof.
  intros Hok Hni. apply list.Forall_forall. intros o Ho.
  destruct (commonWrite_outcomes _ _ _ _ _ Hok Ho) as [?|[? _]]; done.
Qed.

(** The first [select] of a call has the fired deadline, and the closed
    conn, among its ready cases. *)
Lemma commonRead_deadline c w buf :
  pipeDeadline.wait (UDPConn.readDeadline c) (now w) = true →
  Returns w (buf, (0, netip.zero, Some ErrDeadlineExceeded))
    ∈ UDPConn.commonRead c w buf.
Proof.
  intros Hd. unfold UDPConn.commonRead, select. simpl. rewrite Hd.
  destruct (UDPConn.closed c), (Network.closed (network w)); simpl;
    repeat (first [by left | right]).
Qed.

Lemma commonWrite_deadline c w data dest :
  pipeDeadline.wait (UDPConn.readDeadline c) (now w) = true →
  Returns w (0, Some ErrDeadlineExceeded) ∈ UDPConn.commonWrite c w data dest.
Proof.
  intros Hd. unfold UDPConn.commonWrite, select. simpl. rewrite Hd.
  destruct (UDPConn.closed c), (Network.closed (network w)); simpl;
    repeat (first [by left | right]).
Qed.

Lemma commonRead_conn_closed c w buf :
  UDPConn.closed c = true →
  Returns w (buf, (0, netip.zero, Some ErrClosed)) ∈ UDPConn.commonRead c w buf.
Proof.
  intros Hc. unfold UDPConn.commonRead, select. simpl. rewrite Hc. left.
Qed.

Lemma commonWrite_conn_closed c w data dest :
  UDPConn.closed c = true →
  Returns w (0, Some ErrClosed) ∈ UDPConn.commonWrite c w data dest.
Proof.
  intros Hc. unfold UDPConn.commonWrite, select. simpl. rewrite Hc. left.
Qed.

(** X7. Once [SetDeadline], or [SetReadDeadline], has set a deadline that
    is not in the future, no read and no write of the conn blocks: every
    outcome is a return, and the failure with [DeadlineExceeded] that
    leaves the world untouched is one of them.  The world only has to
    have well-formed queues. *)
Theorem expired_deadline_never_blocks
    (c c' : UDPConn.t) (w : World) (t : Z) (buf data : bytes) (dest : AddrPort) :
  parked_ok (network w) (memory w) →
  UDPConn.SetDeadline c (Some t) = (c', None) ∨
  UDPConn.SetReadDeadline c (Some t) = (c', None) →
  t ≤ now w →
  Forall returns (UDPConn.commonRead c' w buf) ∧
  Forall returns (UDPConn.commonWrite c' w data dest) ∧
  Returns w (buf, (0, netip.zero, Some ErrDeadlineExceeded))
    ∈ UDPConn.commonRead c' w buf ∧
  Returns w (0, Some ErrDeadlineExceeded) ∈ UDPConn.commonWrite c' w data dest.
Proof.
  intros Hok Hset Ht.
  assert (pipeDeadline.wait (UDPConn.readDeadline c') (now w) = true) as Hd.
  { unfold UDPConn.SetDeadline, UDPConn.SetReadDeadline,
      UDPConn.SetWriteDeadline in Hset.
    destruct (UDPConn.closed c) eqn:Hc; simpl in Hset.
    - by destruct Hset.
    - rewrite Hc in Hset.
      destruct Hset as [Hset|Hset]; injection Hset as <-; simpl;
        unfold pipeDeadline.wait; simpl; by apply bool_decide_eq_true. }
  assert (¬ idle c' w) as Hni by (intros (_ & _ & Hd'); congruence).
  split; [by apply commonRead_not_idle|].
  split; [by apply commonWrite_not_idle|].
  split; [by apply commonRead_deadline|by apply commonWrite_deadline].
Qed.

(** The conn of [addrA] gets the deadline [-5] in [worldAB_parked], at the
    time 0. *)
Lemma expired_deadline_never_blocks_witness :
  Forall returns
    (UDPConn.commonRead
       (UDPConn.mk false addrA false netip.zero
          (pipeDeadline.mk (Some (-5))) (pipeDeadline.mk (Some (-5))))
       worldAB_parked (zeroes 8)) ∧
  Forall returns
    (UDPConn.commonWrite
       (UDPConn.mk false addrA false netip.zero
          (pipeDeadline.mk (Some (-5))) (pipeDeadline.mk (Some (-5))))
       worldAB_parked hello addrB) ∧
  Returns worldAB_parked (zeroes 8, (0, netip.zero, Some ErrDeadlineExceeded))
    ∈ UDPConn.commonRead
        (UDPConn.mk false addrA false netip.zero
           (pipeDeadline.mk (Some (-5))) (pipeDeadline.mk (Some (-5))))
        worldAB_parked (zeroes 8) ∧
  Returns worldAB_parked (0, Some ErrDeadlineExceeded)
    ∈ UDPConn.commonWrite
        (UDPConn.mk false addrA false netip.zero
           (pipeDeadline.mk (Some (-5))) (pipeDeadline.mk (Some (-5))))
        worldAB_parked hello addrB.
Proof.
  apply (expired_deadline_never_blocks (new_conn addrA netip.zero) _
           worldAB_parked (-5) (zeroes 8) hello addrB).
  - refine (bool_decide_unpack _ _). vm_compute. exact I.
  - left. reflexivity.
  - vm_compute. discriminate.
Defined.

(** X8. After [Close] has returned, the setters of the deadlines fail with
    [ErrClosed] and leave the deadlines as they are, and no read and no
    write of the conn blocks, in whatever well-formed world: every
    outcome is a return, and the failure with [ErrClosed] that leaves the
    world untouched is one of them. *)
Theorem closed_conn_never_blocks
    (c c' : UDPConn.t) (w w' w2 : World) (tm : time.Time)
    (buf data : bytes) (dest : AddrPort) :
  UDPConn.once c = UDPConn.closed c →
  Returns w' (c', None) ∈ UDPConn.Close c w →
  parked_ok (network w2) (memory w2) →
  UDPConn.SetReadDeadline c' tm = (c', Some ErrClosed) ∧
  UDPConn.SetWriteDeadline c' tm = (c', Some ErrClosed) ∧
  UDPConn.SetDeadline c' tm = (c', Some ErrClosed) ∧
  Forall returns (UDPConn.commonRead c' w2 buf) ∧
  Forall returns (UDPConn.commonWrite c' w2 data dest) ∧
  Returns w2 (buf, (0, netip.zero, Some ErrClosed)) ∈ UDPConn.commonRead c' w2 buf ∧
  Returns w2 (0, Some ErrClosed) ∈ UDPConn.commonWrite c' w2 data dest.
Proof.
  intros Hinv Hclose Hok.
  assert (UDPConn.closed c' = true) as Hc.
  { unfold UDPConn.Close in Hclose.
    destruct (UDPConn.once c) eqn:Ho.
    - apply list_elem_of_singleton in Hclose. injection Hclose as _ ->.
      by symmetry.
    - apply list_elem_of_fmap in Hclose as (o & Ho' & _).
      unfold UDPConn.Close_finish in Ho'. rewrite <- Hinv in Ho'.
      destruct o; try done. simpl in Ho'. injection Ho' as _ Hc'.
      by subst c'. }
  assert (¬ idle c' w2) as Hni by (intros (Hc' & _); congruence).
  unfold UDPConn.SetDeadline, UDPConn.SetReadDeadline, UDPConn.SetWriteDeadline.
  rewrite Hc. repeat split; try done.
  - by apply commonRead_not_idle.
  - by apply commonWrite_not_idle.
  - by apply commonRead_conn_closed.
  - by apply commonWrite_conn_closed.
Qed.

Lemma closed_conn_never_blocks_witness :
  UDPConn.SetReadDeadline (closed_conn (new_conn addrA netip.zero)) (Some 7)
    = (closed_conn (new_conn addrA netip.zero), Some ErrClosed) ∧
  UDPConn.SetWriteDeadline (closed_conn (new_conn addrA netip.zero)) (Some 7)
    = (closed_conn (new_conn addrA netip.zero), Some ErrClosed) ∧
  UDPConn.SetDeadline (closed_conn (new_conn addrA netip.zero)) (Some 7)
    = (closed_conn (new_conn addrA netip.zero), Some ErrClosed) ∧
  Forall returns
    (UDPConn.commonRead (closed_conn (new_conn addrA netip.zero))
       worldAB_parked (zeroes 8)) ∧
  Forall returns
    (UDPConn.commonWrite (closed_conn (new_conn addrA netip.zero))
       worldAB_parked hello addrB) ∧
  Returns worldAB_parked (zeroes 8, (0, netip.zero, Some ErrClosed))
    ∈ UDPConn.commonRead (closed_conn (new_conn addrA netip.zero))
        worldAB_parked (zeroes 8) ∧
  Returns worldAB_parked (0, Some ErrClosed)
    ∈ UDPConn.commonWrite (closed_conn (new_conn addrA netip.zero))
        worldAB_parked hello addrB.
Proof.
  apply (closed_conn_never_blocks (new_conn addrA netip.zero) _
           worldAB (unbound addrA worldAB) worldAB_parked (Some 7)
           (zeroes 8) hello addrB).
  - reflexivity.
  - vm_compute. left.
  - refine (bool_decide_unpack _ _). vm_compute. exact I.
Defined.

(** ** Runs of the actor *)

(** A request that is as its issuer made it stays so while the actor
    handles other messages. *)
Lemma arrives_ok_step n m msg n' m' msg2 :
  loop_case n m msg = Some (n', m') →
  arrives_ok n m msg2 →
  (∀ p, msg = readUDP p → msg2 ≠ readUDP p) →
  (∀ p, msg = writeUDP p → msg2 ≠ writeUDP p) →
  arrives_ok n' m' msg2.
Proof.
  intros Hstep Harr Hr Hw. destruct msg2 as [req|p|p|req]; simpl in *; try done.
  - destruct Harr as [Hnp Hack].
    assert (msg ≠ readUDP p) as Hne by (intros ->; by eapply Hr).
    split.
    + intros Hp. apply Hnp. by eapply loop_case_parked_read.
    + by rewrite (loop_case_reads p _ _ _ _ _ Hstep).
  - destruct Harr as [Hnp Hack].
    assert (msg ≠ writeUDP p) as Hne by (intros ->; by eapply Hw).
    split.
    + intros Hp. apply Hnp. by eapply loop_case_parked_write.
    + by rewrite (loop_case_writes p _ _ _ _ _ Hstep).
Qed.

Lemma sent_once_cons n m msg msgs n' m' :
  sent_once n m (msg :: msgs) →
  loop_case n m msg = Some (n', m') →
  sent_once n' m' msgs.
Proof.
  intros (Hr & Hw & Harr) Hstep.
  apply list.Forall_cons in Harr as [_ Harr].
  split; [|split].
  - destruct msg; simpl in Hr; try done. by apply list.NoDup_cons in Hr as [_ ?].
  - destruct msg; simpl in Hw; try done. by apply list.NoDup_cons in Hw as [_ ?].
  - apply list.Forall_forall. intros msg2 Hin.
    eapply arrives_ok_step; [exact Hstep| | |].
    + by eapply list.Forall_forall in Harr.
    + intros p -> ->. simpl in Hr. apply list.NoDup_cons in Hr as [Hp _].
      apply Hp. apply list_elem_of_omap. by exists (readUDP p).
    + intros p -> ->. simpl in Hw. apply list.NoDup_cons in Hw as [Hp _].
      apply Hp. apply list_elem_of_omap. by exists (writeUDP p).
Qed.

Lemma loop_sent_once msgs : ∀ n m,
  parked_ok n m → sent_once n m msgs →
  ∃ n' m', loop n m msgs = Some (n', m') ∧ parked_ok n' m'.
Proof.
  induction msgs as [|msg msgs IH]; intros n m Hok Hsent.
  { exists n, m. by rewrite loop_nil. }
  destruct (Network.closed n) eqn:Hn.
  { exists n, m. by rewrite loop_closed. }
  pose proof Hsent as (_ & _ & Harr).
  apply list.Forall_cons in Harr as [Harr _].
  destruct (loop_case_no_panic _ _ _ Hok Harr) as [[n1 m1] Hstep].
  rewrite (loop_cons _ _ _ _ _ _ Hn Hstep).
  apply IH.
  - by eapply loop_case_parked_ok.
  - by eapply sent_once_cons.
Qed.

(** X9. The actor does not panic: in a state whose queues are well
    formed, whatever binds, unbinds, reads and writes arrive, in whatever
    order, as long as every read and every write request is sent once and
    is as its issuer makes it, the loop handles them all (no channel is
    closed twice, no request is missing), and it ends in a state whose
    queues are well formed, with at most one non-empty queue per address
    if that held at the start. *)
Theorem actor_never_panics
    (n : Network.t) (m : Memory) (msgs : list message) :
  parked_ok n m → sent_once n m msgs →
  ∃ n' m',
    loop n m msgs = Some (n', m') ∧
    parked_ok n' m' ∧
    (at_most_one_queue n → at_most_one_queue n').
Proof.
  intros Hok Hsent.
  destruct (loop_sent_once msgs n m Hok Hsent) as (n' & m' & Hloop & Hok').
  exists n', m'. split; [done|]. split; [done|].
  intros Hex. by eapply loop_exclusive.
Qed.

(** The traffic of the example of the order of the matches, with the read
    [3] before the writes. *)
Lemma actor_never_panics_witness :
  ∃ n' m',
    loop fifo_network fifo_memory
      [readUDP 3%nat; writeUDP 1%nat; newConnUDP fifo_bind; writeUDP 5%nat;
       deleteConnUDP ex_unbind; writeUDP 2%nat; readUDP 4%nat; readUDP 6%nat]
      = Some (n', m') ∧
    parked_ok n' m' ∧
    (at_most_one_queue fifo_network → at_most_one_queue n').
Proof.
  apply (actor_never_panics fifo_network fifo_memory);
    refine (bool_decide_unpack _ _); vm_compute; exact I.
Defined.

(** One step of the actor and the write requests that are allocated. *)
Lemma loop_case_write_evolves n m msg n' m' p w :
  loop_case n m msg = Some (n', m') → writes m !! p = Some w →
  ∃ w', writes m' !! p = Some w' ∧ write_evolves w w'.
Proof.
  intros Hstep Hw.
  assert (write_evolves w w) as Hrefl by done.
  assert (write_evolves w (networkWriteUDP.set_ack true w)) as Hack by done.
  destruct msg as [req|q|q|req]; simpl in Hstep.
  - destruct (Network.onNewConnUDP n req) as [[? ?]|]; simplify_eq/=. eauto.
  - destruct (onReadUDP_memory _ _ _ _ _ Hstep)
      as (r & Hr & [-> | [-> | (st & x & ws & w0 & _ & _ & Hx & ->)]]);
      simpl; eauto.
    destruct (decide (p = x)) as [-> | Hne].
    + rewrite lookup_insert_eq. simplify_eq. eauto.
    + rewrite lookup_insert_ne by done. eauto.
  - destruct (onWriteUDP_memory _ _ _ _ _ Hstep)
      as (w0 & Hq & [-> | [-> | (st & x & rs & r & _ & _ & _ & ->)]]);
      simpl; eauto.
    all: destruct (decide (p = q)) as [-> | Hne];
      [rewrite lookup_insert_eq; simplify_eq; eauto
      |rewrite lookup_insert_ne by done; eauto].
  - destruct (Network.onDeleteConnUDP n req) as [[? ?]|]; simplify_eq/=. eauto.
Qed.

(** One step of the actor and the read requests that are allocated. *)
Lemma loop_case_read_evolves n m msg n' m' p r :
  loop_case n m msg = Some (n', m') → reads m !! p = Some r →
  ∃ r', reads m' !! p = Some r' ∧ read_evolves r r'.
Proof.
  intros Hstep Hr.
  assert (read_evolves r r) as Hrefl by done.
  assert (∀ e, read_evolves r (networkReadUDP.set_ack true
                                 (networkReadUDP.set_err e r))) as Herr by done.
  assert (∀ w, read_evolves r (matched_read r w)) as Hm.
  { intros w. split; [done|]. split; [apply copy_length|done]. }
  destruct msg as [req|q|q|req]; simpl in Hstep.
  - destruct (Network.onNewConnUDP n req) as [[? ?]|]; simplify_eq/=. eauto.
  - destruct (onReadUDP_memory _ _ _ _ _ Hstep)
      as (r0 & Hq & [-> | [-> | (st & x & ws & w0 & _ & _ & _ & ->)]]);
      simpl; eauto.
    all: destruct (decide (p = q)) as [-> | Hne];
      [rewrite lookup_insert_eq; simplify_eq; eauto
      |rewrite lookup_insert_ne by done; eauto].
  - destruct (onWriteUDP_memory _ _ _ _ _ Hstep)
      as (w0 & Hq & [-> | [-> | (st & x & rs & r0 & _ & _ & Hx & ->)]]);
      simpl; eauto.
    destruct (decide (p = x)) as [-> | Hne].
    + rewrite lookup_insert_eq. simplify_eq. eauto.
    + rewrite lookup_insert_ne by done. eauto.
  - destruct (Network.onDeleteConnUDP n req) as [[? ?]|]; simplify_eq/=. eauto.
Qed.

Lemma write_evolves_trans w1 w2 w3 :
  write_evolves w1 w2 → write_evolves w2 w3 → write_evolves w1 w3.
Proof.
  intros (? & ? & ? & ? & ?) (? & ? & ? & ? & ?).
  repeat split; try congruence. auto.
Qed.

Lemma read_evolves_trans r1 r2 r3 :
  read_evolves r1 r2 → read_evolves r2 r3 → read_evolves r1 r3.
Proof.
  intros (? & ? & ?) (? & ? & ?). repeat split; try congruence. auto.
Qed.

Lemma loop_write_evolves msgs : ∀ n m n' m' p w,
  loop n m msgs = Some (n', m') → writes m !! p = Some w →
  ∃ w', writes m' !! p = Some w' ∧ write_evolves w w'.
Proof.
  induction msgs as [|msg msgs IH]; intros n m n' m' p w Hloop Hw.
  { rewrite loop_nil in Hloop. simplify_eq. by exists w. }
  destruct (Network.closed n) eqn:Hn.
  { rewrite loop_closed in Hloop by done. simplify_eq. by exists w. }
  destruct (loop_case n m msg) as [[n1 m1]|] eqn:Hstep.
  - rewrite (loop_cons _ _ _ _ _ _ Hn Hstep) in Hloop.
    destruct (loop_case_write_evolves _ _ _ _ _ _ _ Hstep Hw) as (w1 & Hw1 & He1).
    destruct (IH _ _ _ _ _ _ Hloop Hw1) as (w' & Hw' & He').
    exists w'. split; [done|]. by eapply write_evolves_trans.
  - simpl in Hloop. by rewrite Hn, Hstep in Hloop.
Qed.

Lemma loop_read_evolves msgs : ∀ n m n' m' p r,
  loop n m msgs = Some (n', m') → reads m !! p = Some r →
  ∃ r', reads m' !! p = Some r' ∧ read_evolves r r'.
Proof.
  induction msgs as [|msg msgs IH]; intros n m n' m' p r Hloop Hr.
  { rewrite loop_nil in Hloop. simplify_eq. by exists r. }
  destruct (Network.closed n) eqn:Hn.
  { rewrite loop_closed in Hloop by done. simplify_eq. by exists r. }
  destruct (loop_case n m msg) as [[n1 m1]|] eqn:Hstep.
  - rewrite (loop_cons _ _ _ _ _ _ Hn Hstep) in Hloop.
    destruct (loop_case_read_evolves _ _ _ _ _ _ _ Hstep Hr) as (r1 & Hr1 & He1).
    destruct (IH _ _ _ _ _ _ Hloop Hr1) as (r' & Hr' & He').
    exists r'. split; [done|]. by eapply read_evolves_trans.
  - simpl in Hloop. by rewrite Hn, Hstep in Hloop.
Qed.



(** X11. Whatever the actor handles, a read request stays allocated and
    stays a request of the same address, its buffer keeps its length (the
    actor writes in place, never beyond the end), and an ack that is
    closed stays closed. *)
Theorem actor_fills_a_read_buffer_in_place
    (n : Network.t) (m : Memory) (msgs : list message)
    (n' : Network.t) (m' : Memory) (p : ptr) (r : networkReadUDP.t) :
  loop n m msgs = Some (n', m') →
  reads m !! p = Some r →
  ∃ r',
    reads m' !! p = Some r' ∧
    networkReadUDP.localAddr r' = networkReadUDP.localAddr r ∧
    length (networkReadUDP.buffer r') = length (networkReadUDP.buffer r) ∧
    (networkReadUDP.ack r = true → networkReadUDP.ack r' = true).
Proof. apply loop_read_evolves. Qed.

Lemma actor_fills_a_read_buffer_in_place_witness :
  ∃ r',
    reads (set_read 9%nat (matched_read ex_read ex_write)
             (set_write 7%nat (networkWriteUDP.set_ack true ex_write) ex_memory))
      !! 9%nat = Some r' ∧
    networkReadUDP.localAddr r' = networkReadUDP.localAddr ex_read ∧
    length (networkReadUDP.buffer r') = length (networkReadUDP.buffer ex_read) ∧
    (networkReadUDP.ack ex_read = true → networkReadUDP.ack r' = true).
Proof.
  apply (actor_fills_a_read_buffer_in_place ex_network ex_memory [readUDP 9%nat]
           (Network.mk false false {[addrB := mk [] []]}));
    vm_compute; reflexivity.
Defined.

(** X12. What the actor has written into a request that it has
    acknowledged is final: while the request is not sent again, nothing
    that the actor handles later changes the count, the sender, the error
    and the address of an acknowledged read, nor the length of its
    buffer, and nothing changes the addresses and the error of an
    acknowledged write; the ack stays closed.  The bytes are left out:
    the buffer and the payload are slices of the callers, and a caller
    that uses the same slice for another call lets that call change
    them. *)
Theorem acknowledged_request_is_final
    (n : Network.t) (m : Memory) (msgs : list message)
    (n' : Network.t) (m' : Memory) :
  parked_ok n m →
  loop n m msgs = Some (n', m') →
  (∀ p r, reads m !! p = Some r → networkReadUDP.ack r = true →
     Forall (λ msg, msg ≠ readUDP p) msgs →
     ∃ r', reads m' !! p = Some r' ∧
       networkReadUDP.ack r' = true ∧
       networkReadUDP.count r' = networkReadUDP.count r ∧
       networkReadUDP.senderAddr r' = networkReadUDP.senderAddr r ∧
       networkReadUDP.err r' = networkReadUDP.err r ∧
       networkReadUDP.localAddr r' = networkReadUDP.localAddr r ∧
       length (networkReadUDP.buffer r') = length (networkReadUDP.buffer r)) ∧
  (∀ p w, writes m !! p = Some w → networkWriteUDP.ack w = true →
     Forall (λ msg, msg ≠ writeUDP p) msgs →
     ∃ w', writes m' !! p = Some w' ∧
       networkWriteUDP.ack w' = true ∧
       networkWriteUDP.destAddr w' = networkWriteUDP.destAddr w ∧
       networkWriteUDP.sourceAddr w' = networkWriteUDP.sourceAddr w ∧
       networkWriteUDP.err w' = networkWriteUDP.err w).
Proof.
  intros Hok Hloop. split.
  - intros p r Hr Hack Hmsgs.
    assert (¬ parked_read n p) as Hnp.
    { intros (a & st & Hst & Hin).
      destruct (parked_ok_read_addr _ _ _ _ _ _ Hok Hst Hin Hr). congruence. }
    destruct (loop_reads p msgs _ _ _ _ Hloop Hmsgs Hnp) as [Hp _].
    exists r. rewrite Hp. done.
  - intros p w Hw Hack Hmsgs.
    assert (¬ parked_write n p) as Hnp.
    { intros (a & st & Hst & Hin).
      destruct (parked_ok_write_addr _ _ _ _ _ _ Hok Hst Hin Hw). congruence. }
    destruct (loop_writes p msgs _ _ _ _ Hloop Hmsgs Hnp) as [Hp _].
    exists w. rewrite Hp. done.
Qed.

(** The read request [9] has taken the datagram of the write request [7],
    and both are acknowledged; then [addrC] is bound, the write request
    [8] for [addrB] parks and the read request [10] at [addrB] takes it. *)
Lemma acknowledged_request_is_final_witness :
  (∀ p r, reads later_memory !! p = Some r → networkReadUDP.ack r = true →
     Forall (λ msg, msg ≠ readUDP p)
       [newConnUDP fifo_bind; writeUDP 8%nat; readUDP 10%nat] →
     ∃ r', reads later_memory' !! p = Some r' ∧
       networkReadUDP.ack r' = true ∧
       networkReadUDP.count r' = networkReadUDP.count r ∧
       networkReadUDP.senderAddr r' = networkReadUDP.senderAddr r ∧
       networkReadUDP.err r' = networkReadUDP.err r ∧
       networkReadUDP.localAddr r' = networkReadUDP.localAddr r ∧
       length (networkReadUDP.buffer r') = length (networkReadUDP.buffer r)) ∧
  (∀ p w, writes later_memory !! p = Some w → networkWriteUDP.ack w = true →
     Forall (λ msg, msg ≠ writeUDP p)
       [newConnUDP fifo_bind; writeUDP 8%nat; readUDP 10%nat] →
     ∃ w', writes later_memory' !! p = Some w' ∧
       networkWriteUDP.ack w' = true ∧
       networkWriteUDP.destAddr w' = networkWriteUDP.destAddr w ∧
       networkWriteUDP.sourceAddr w' = networkWriteUDP.sourceAddr w ∧
       networkWriteUDP.err w' = networkWriteUDP.err w).
Proof.
  apply (acknowledged_request_is_final done_network later_memory
           [newConnUDP fifo_bind; writeUDP 8%nat; readUDP 10%nat]
           (Network.mk false false {[addrB := mk [] []; addrC := mk [] []]})
           later_memory').
  - refine (bool_decide_unpack _ _). vm_compute. exact I.
  - vm_compute. reflexivity.
Defined.

Lemma dom_absorb (a : AddrPort) (s : gset AddrPort) : a ∈ s → s = {[a]} ∪ s.
Proof.
  intros Ha. apply set_eq. intros x.
  rewrite elem_of_union, elem_of_singleton.
  split; [by right|]. by intros [-> | ?].
Qed.

(** X13. The addresses that are bound after a run are those that the
    binds and the unbinds of the run leave, in their order, whatever
    reads and writes come in between: a read or a write never creates and
    never removes the state of an address. *)
Theorem bound_addresses_follow_binds_and_unbinds
    (n : Network.t) (m : Memory) (msgs : list message)
    (n' : Network.t) (m' : Memory) :
  Network.closed n = false →
  loop n m msgs = Some (n', m') →
  dom (Network.udp n') = foldl bound_after (dom (Network.udp n)) msgs.
Proof.
  revert n m. induction msgs as [|msg msgs IH]; intros n m Hn Hloop.
  { rewrite loop_nil in Hloop. by simplify_eq. }
  destruct (loop_case n m msg) as [[n1 m1]|] eqn:Hstep.
  2:{ simpl in Hloop. by rewrite Hn, Hstep in Hloop. }
  rewrite (loop_cons _ _ _ _ _ _ Hn Hstep) in Hloop.
  pose proof (loop_case_closed _ _ _ _ _ Hstep) as Hn1. rewrite Hn in Hn1.
  rewrite (IH _ _ Hn1 Hloop). simpl. f_equal.
  destruct msg as [req|p|p|req]; simpl in Hstep |- *.
  - destruct (Network.onNewConnUDP n req) as [[n2 req2]|] eqn:E; simplify_eq/=.
    rewrite (onNewConnUDP_udp _ _ _ _ E).
    destruct (Network.udp n !! networkNewConnUDP.localAddr req) eqn:Ea.
    + apply elem_of_dom_2 in Ea. by apply dom_absorb.
    + by rewrite dom_insert_L.
  - destruct (onReadUDP_udp _ _ _ _ _ Hstep) as (r & _ & ->).
    destruct (Network.udp n !! networkReadUDP.localAddr r) eqn:Ea; [|done].
    rewrite dom_insert_L. apply elem_of_dom_2 in Ea. symmetry.
    by apply dom_absorb.
  - destruct (onWriteUDP_udp _ _ _ _ _ Hstep) as (w & _ & ->).
    destruct (Network.udp n !! networkWriteUDP.destAddr w) eqn:Ea; [|done].
    rewrite dom_insert_L. apply elem_of_dom_2 in Ea. symmetry.
    by apply dom_absorb.
  - destruct (Network.onDeleteConnUDP n req) as [[n2 req2]|] eqn:E; simplify_eq/=.
    rewrite (onDeleteConnUDP_udp _ _ _ _ E). by rewrite dom_delete_L.
Qed.

Lemma bound_addresses_follow_binds_and_unbinds_witness :
  dom (Network.udp (Network.mk false false {[addrC := mk [] []]})) =
    foldl bound_after (dom (Network.udp fifo_network))
      [newConnUDP fifo_bind; writeUDP 1%nat; deleteConnUDP ex_unbind].
Proof.
  apply (bound_addresses_follow_binds_and_unbinds fifo_network fifo_memory
           [newConnUDP fifo_bind; writeUDP 1%nat; deleteConnUDP ex_unbind]
           (Network.mk false false {[addrC := mk [] []]}) fifo_memory).
  - reflexivity.
  - vm_compute. reflexivity.
Defined.

(** ** The results of a write and of a read *)

(** The inner [select] of a write whose request has no error. *)
Lemma commonWrite_ack_results c w len p r o :
  writes (memory w) !! p = Some r → networkWriteUDP.err r = None →
  o ∈ UDPConn.commonWrite_ack c w len p →
  match o with
  | Returns _ res => write_result_ok len res
  | Waits w1 q => q = p ∧ w1 = w
  | _ => False
  end.
Proof.
  intros Hr He Ho. unfold UDPConn.commonWrite_ack in Ho. rewrite Hr, He in Ho.
  unfold select_or_wait, select in Ho.
  destruct (UDPConn.closed c), (Network.closed (network w)),
    (pipeDeadline.wait _ _), (networkWriteUDP.ack r); simpl in Ho;
    repeat (apply elem_of_cons in Ho as [-> | Ho]); simpl; auto;
    by apply elem_of_nil in Ho.
Qed.

Lemma commonWrite_results c w data dest o :
  parked_ok (network w) (memory w) →
  o ∈ UDPConn.commonWrite c w data dest →
  match o with
  | Returns _ res => write_result_ok (Z.of_nat (length data)) res
  | Waits w1 p =>
      ∃ r, writes (memory w1) !! p = Some r ∧ networkWriteUDP.err r = None
  | _ => False
  end.
Proof.
  intros Hok Ho.
  destruct (Network.closed (network w)) eqn:Hn.
  { rewrite commonWrite_closed in Ho by done.
    destruct (UDPConn.closed c), (pipeDeadline.wait _ _); simpl in Ho;
      repeat (apply elem_of_cons in Ho as [-> | Ho]); simpl; auto;
      by apply elem_of_nil in Ho. }
  set (req := networkWriteUDP.mk false dest None data (UDPConn.localAddr c)).
  set (p := fresh (dom (writes (memory w)))).
  destruct (onWriteUDP_fresh (network w) (memory w) req Hok eq_refl)
    as (n' & m' & r' & Hstep & Hr' & Hn').
  fold p in Hstep, Hr'.
  destruct (loop_case_write_evolves (network w) _ (writeUDP p) _ _ p req Hstep)
    as (r2 & Hr2 & _ & He & _); [simpl; apply lookup_insert_eq|].
  rewrite Hr' in Hr2. injection Hr2 as <-. simpl in He.
  unfold UDPConn.commonWrite, select in Ho. rewrite Hn in Ho. simpl in Ho.
  fold req p in Ho. rewrite Hstep in Ho.
  assert (∀ o, o ∈ UDPConn.commonWrite_ack c (mkWorld n' m' (now w))
                     (Z.of_nat (length data)) p →
            match o with
            | Returns _ res => write_result_ok (Z.of_nat (length data)) res
            | Waits w1 p =>
                ∃ r, writes (memory w1) !! p = Some r ∧ networkWriteUDP.err r = None
            | _ => False
            end) as Hack.
  { intros o' Ho'.
    apply (commonWrite_ack_results _ _ _ _ r') in Ho'; [|done..].
    destruct o' as [| w1 q | |]; try done. destruct Ho' as [-> ->]. eauto. }
  destruct (UDPConn.closed c), (pipeDeadline.wait _ _); simpl in Ho;
    rewrite ?app_nil_r in Ho;
    repeat (apply elem_of_cons in Ho as [-> | Ho]); simpl; auto;
    by apply Hack.
Qed.

(** X14. A write takes all of the datagram or nothing: whatever the conn,
    the address and the well-formed world, [WriteTo] and [Write] return
    [len(data)] and no error, or 0 and one of [ErrClosed],
    [DeadlineExceeded], [ENOTCONN], [EISCONN] and [EINVAL], or they wait;
    and a write that waits ends in the same way, whatever the actor
    handles in the meantime.  The actor never makes a write fail: a
    datagram for an address that nobody reads from is not an error.  The
    one panic is that of [WriteTo] on a conn that is not connected when
    its address is the [nil] interface, which [addr.String()] raises. *)
Theorem write_takes_all_or_fails
    (c : UDPConn.t) (w : World) (data : bytes) (addr : option (option AddrPort))
    (o : outcome ptr (Z * option error)) :
  parked_ok (network w) (memory w) →
  o ∈ UDPConn.WriteTo_addr c w data addr ∨ o ∈ UDPConn.Write c w data →
  match o with
  | Returns _ res => write_result_ok (Z.of_nat (length data)) res
  | Waits w1 p =>
      ∀ c' msgs n' m' t o',
        loop (network w1) (memory w1) msgs = Some (n', m') →
        o' ∈ UDPConn.commonWrite_ack c' (mkWorld n' m' t)
               (Z.of_nat (length data)) p →
        match o' with
        | Returns _ res => write_result_ok (Z.of_nat (length data)) res
        | Waits _ q => q = p
        | _ => False
        end
  | Panics =>
      addr = None ∧ UDPConn.RemoteAddr c = None ∧
      o ∈ UDPConn.WriteTo_addr c w data addr
  | OutOfFuel => False
  end ∧
  (UDPConn.RemoteAddr c = None → UDPConn.WriteTo_addr c w data None = [Panics]).
Proof.
  intros Hok Ho. split.
  2:{ unfold UDPConn.RemoteAddr, UDPConn.WriteTo_addr.
      by destruct (netip.IsValid (UDPConn.peerAddr c)). }
  assert (∃ dest, o ∈ UDPConn.commonWrite c w data dest ∨
            (∃ e, o = Returns w (0, Some (Errno e)) ∧
                  (e = syscall.ENOTCONN ∨ e = syscall.EISCONN ∨ e = syscall.EINVAL)) ∨
            o = Panics ∧ addr = None ∧ UDPConn.RemoteAddr c = None ∧
            o ∈ UDPConn.WriteTo_addr c w data addr)
    as (dest & [Hc | [(e & -> & He) | (-> & Hpanic)]]).
  { pose proof Ho as Ho0.
    unfold UDPConn.WriteTo_addr, UDPConn.Write, UDPConn.RemoteAddr in Ho |- *.
    destruct (netip.IsValid (UDPConn.peerAddr c)) eqn:Hv; simpl in Ho.
    - destruct Ho as [Ho | Ho]; [|eauto].
      apply list_elem_of_singleton in Ho. exists netip.zero. right. left. eauto.
    - destruct Ho as [Ho | Ho].
      + destruct addr as [[dest|]|]; [eauto| |].
        * apply list_elem_of_singleton in Ho. exists netip.zero. right. left.
          eauto 6.
        * apply list_elem_of_singleton in Ho. exists netip.zero. right. right.
          subst o. repeat split. simpl. left.
      + apply list_elem_of_singleton in Ho. exists netip.zero. right. left. eauto. }
  - pose proof (commonWrite_results _ _ _ _ _ Hok Hc) as Hres.
    destruct o as [| w1 p | |]; try done.
    destruct Hres as (r & Hr & He).
    intros c' msgs n' m' t o' Hloop Ho'.
    destruct (loop_write_evolves _ _ _ _ _ _ _ Hloop Hr) as (r' & Hr' & _ & He' & _).
    apply (commonWrite_ack_results _ _ _ _ r') in Ho'; [|done|congruence].
    destruct o'; try done. by destruct Ho'.
  - simpl. split; [done|]. destruct He as [-> | [-> | ->]]; auto.
  - exact Hpanic.
Qed.

(** The write of [hello] from [addrA] to [addrC], which is not bound in
    [worldA], returns at once; with the [nil] address it panics. *)
Lemma write_takes_all_or_fails_witness :
  write_result_ok (Z.of_nat (length hello)) (5, None) ∧
  (UDPConn.RemoteAddr (new_conn addrA netip.zero) = None →
   UDPConn.WriteTo_addr (new_conn addrA netip.zero) worldA hello None = [Panics]).
Proof.
  apply (write_takes_all_or_fails (new_conn addrA netip.zero) worldA hello
           (Some (Some addrC))
           (Returns (mkWorld (network worldA)
                       (mkMemory ∅ {[0%nat := networkWriteUDP.mk true addrC None
                                                hello addrA]}) 0)
                    (5, None))).
  - refine (bool_decide_unpack _ _). vm_compute. exact I.
  - left. vm_compute. left.
Defined.

(** One step of the actor and what holds of a read request. *)
Lemma loop_case_read_request_ok n m msg n' m' p r len :
  loop_case n m msg = Some (n', m') →
  reads m !! p = Some r → read_request_ok len r →
  ∃ r', reads m' !! p = Some r' ∧ read_request_ok len r'.
Proof.
  intros Hstep Hr Hok.
  assert (read_request_ok len
            (networkReadUDP.set_ack true
               (networkReadUDP.set_err (Some (Errno syscall.EBADF)) r))) as Herr.
  { destruct Hok as (? & ? & ?). split; [done|]. split; [done|]. by right. }
  assert (∀ w, read_request_ok len (matched_read r w)) as Hm.
  { intros w. destruct Hok as (Hl & ? & ?).
    unfold read_request_ok, matched_read.
    cbn [networkReadUDP.buffer networkReadUDP.count networkReadUDP.err].
    rewrite copy_length, copy_count. split; [done|]. split; [lia|done]. }
  destruct msg as [req|q|q|req]; simpl in Hstep.
  - destruct (Network.onNewConnUDP n req) as [[? ?]|]; simplify_eq/=. eauto.
  - destruct (onReadUDP_memory _ _ _ _ _ Hstep)
      as (r0 & Hq & [-> | [-> | (st & x & ws & w0 & _ & _ & _ & ->)]]);
      simpl; eauto.
    all: destruct (decide (p = q)) as [-> | Hne];
      [rewrite lookup_insert_eq; simplify_eq; eauto
      |rewrite lookup_insert_ne by done; eauto].
  - destruct (onWriteUDP_memory _ _ _ _ _ Hstep)
      as (w0 & Hq & [-> | [-> | (st & x & rs & r0 & _ & _ & Hx & ->)]]);
      simpl; eauto.
    destruct (decide (p = x)) as [-> | Hne].
    + rewrite lookup_insert_eq. simplify_eq. eauto.
    + rewrite lookup_insert_ne by done. eauto.
  - destruct (Network.onDeleteConnUDP n req) as [[? ?]|]; simplify_eq/=. eauto.
Qed.

Lemma loop_read_request_ok msgs : ∀ n m n' m' p r len,
  loop n m msgs = Some (n', m') →
  reads m !! p = Some r → read_request_ok len r →
  ∃ r', reads m' !! p = Some r' ∧ read_request_ok len r'.
Proof.
  induction msgs as [|msg msgs IH]; intros n m n' m' p r len Hloop Hr Hok.
  { rewrite loop_nil in Hloop. simplify_eq. by exists r. }
  destruct (Network.closed n) eqn:Hn.
  { rewrite loop_closed in Hloop by done. simplify_eq. by exists r. }
  destruct (loop_case n m msg) as [[n1 m1]|] eqn:Hstep.
  - rewrite (loop_cons _ _ _ _ _ _ Hn Hstep) in Hloop.
    destruct (loop_case_read_request_ok _ _ _ _ _ _ _ _ Hstep Hr Hok)
      as (r1 & Hr1 & Hok1).
    by apply (IH _ _ _ _ _ _ _ Hloop Hr1).
  - simpl in Hloop. by rewrite Hn, Hstep in Hloop.
Qed.

(** The inner [select] of a read, as [ReadFrom] hands it back. *)
Lemma commonRead_ack_results c w len p r o :
  reads (memory w) !! p = Some r → read_request_ok len r →
  o ∈ UDPConn.ReadFrom_result <$> UDPConn.commonRead_ack c w p →
  match o with
  | Returns _ res => read_result_ok len res
  | Waits w1 q => q = p ∧ w1 = w
  | _ => False
  end.
Proof.
  intros Hr (Hl & Hc & He) Ho. unfold UDPConn.commonRead_ack in Ho.
  rewrite Hr in Ho. unfold select_or_wait, select in Ho.
  destruct (UDPConn.closed c), (Network.closed (network w)),
    (pipeDeadline.wait _ _), (networkReadUDP.ack r); simpl in Ho;
    repeat (apply elem_of_cons in Ho as [-> | Ho]); simpl; auto 6;
    try (by apply elem_of_nil in Ho);
    destruct He as [-> | ->]; simpl; eauto 8.
Qed.

Lemma ReadFrom_results c w buf o :
  parked_ok (network w) (memory w) →
  o ∈ UDPConn.ReadFrom c w buf →
  match o with
  | Returns _ res => read_result_ok (length buf) res
  | Waits w1 p =>
      ∃ r, reads (memory w1) !! p = Some r ∧ read_request_ok (length buf) r
  | _ => False
  end.
Proof.
  intros Hok Ho. unfold UDPConn.ReadFrom in Ho.
  destruct (netip.IsValid (UDPConn.peerAddr c)).
  { apply list_elem_of_singleton in Ho as ->. simpl. auto 10. }
  destruct (Network.closed (network w)) eqn:Hn.
  { rewrite commonRead_closed in Ho by done.
    destruct (UDPConn.closed c), (pipeDeadline.wait _ _); simpl in Ho;
      repeat (apply elem_of_cons in Ho as [-> | Ho]); simpl; auto 6;
      by apply elem_of_nil in Ho. }
  set (req := networkReadUDP.mk false buf 0 None (UDPConn.localAddr c) netip.zero).
  set (p := fresh (dom (reads (memory w)))).
  assert (read_request_ok (length buf) req) as Hreq.
  { split; [done|]. split; [simpl; lia|by left]. }
  destruct (onReadUDP_fresh (network w) (memory w) req Hok eq_refl)
    as (n' & m' & r' & Hstep & Hr' & Hn').
  fold p in Hstep, Hr'.
  destruct (loop_case_read_request_ok (network w) _ (readUDP p) _ _ p req
              (length buf) Hstep) as (r2 & Hr2 & Hok2);
    [simpl; apply lookup_insert_eq|done|].
  rewrite Hr' in Hr2. injection Hr2 as <-.
  unfold UDPConn.commonRead, select in Ho. rewrite Hn in Ho. simpl in Ho.
  fold req p in Ho. rewrite Hstep in Ho.
  assert (∀ o, o ∈ UDPConn.ReadFrom_result <$>
                     UDPConn.commonRead_ack c (mkWorld n' m' (now w)) p →
            match o with
            | Returns _ res => read_result_ok (length buf) res
            | Waits w1 p =>
                ∃ r, reads (memory w1) !! p = Some r ∧
                     read_request_ok (length buf) r
            | _ => False
            end) as Hack.
  { intros o' Ho'.
    apply (commonRead_ack_results _ _ (length buf) _ r') in Ho'; [|done..].
    destruct o' as [| w1 q | |]; try done. destruct Ho' as [-> ->]. eauto. }
  destruct (UDPConn.closed c), (pipeDeadline.wait _ _); simpl in Ho;
    rewrite ?app_nil_r in Ho;
    repeat (apply elem_of_cons in Ho as [-> | Ho]); simpl; auto 6;
    by apply Hack.
Qed.

(** X15. [ReadFrom] with a buffer of [n] bytes, in whatever well-formed
    world, returns a count between 0 and [n] with the address of a sender
    and no error, or the count 0, no address and one of [ErrClosed],
    [DeadlineExceeded], [EISCONN] and [EBADF], or it waits; the buffer
    still has [n] bytes.  A [ReadFrom] that waits ends in the same way,
    whatever the actor handles in the meantime. *)
Theorem ReadFrom_stays_within_the_buffer
    (c : UDPConn.t) (w : World) (buf : bytes)
    (o : outcome ptr (bytes * (Z * option AddrPort * option error))) :
  parked_ok (network w) (memory w) →
  o ∈ UDPConn.ReadFrom c w buf →
  match o with
  | Returns _ res => read_result_ok (length buf) res
  | Waits w1 p =>
      ∀ c' msgs n' m' t o',
        loop (network w1) (memory w1) msgs = Some (n', m') →
        o' ∈ UDPConn.ReadFrom_result <$>
               UDPConn.commonRead_ack c' (mkWorld n' m' t) p →
        match o' with
        | Returns _ res => read_result_ok (length buf) res
        | Waits _ q => q = p
        | _ => False
        end
  | _ => False
  end.
Proof.
  intros Hok Ho. pose proof (ReadFrom_results _ _ _ _ Hok Ho) as Hres.
  destruct o as [| w1 p | |]; try done.
  destruct Hres as (r & Hr & Hrok).
  intros c' msgs n' m' t o' Hloop Ho'.
  destruct (loop_read_request_ok _ _ _ _ _ _ _ _ Hloop Hr Hrok) as (r' & Hr' & Hrok').
  apply (commonRead_ack_results _ _ (length buf) _ r') in Ho'; [|done..].
  destruct o'; try done. by destruct Ho'.
Qed.

(** [ReadFrom] on the conn of [addrB] in [read_world], with a buffer of
    8 bytes, returns the datagram [world] of [addrC]. *)
Lemma ReadFrom_stays_within_the_buffer_witness :
  read_result_ok (length (zeroes 8)) (world ++ zeroes 3, (5, Some addrC, None)).
Proof.
  apply (ReadFrom_stays_within_the_buffer (new_conn addrB netip.zero) read_world
           (zeroes 8)
           (Returns (mkWorld (Network.mk false false {[addrB := mk [] [2%nat]]})
                       (mkMemory
                          {[0%nat := matched_read
                                       (read_request (new_conn addrB netip.zero)
                                          (zeroes 8)) fifo_w2]}
                          {[1%nat := networkWriteUDP.set_ack true fifo_w2;
                            2%nat := fifo_w1]}) 0)
                    (world ++ zeroes 3, (5, Some addrC, None)))).
  - refine (bool_decide_unpack _ _). vm_compute. exact I.
  - vm_compute. left.
Defined.

(** ** A read that comes before the write *)

Lemma idle_same c w w' :
  idle c w → Network.closed (network w') = Network.closed (network w) →
  now w' = now w → idle c w'.
Proof. intros (? & ? & ?) Hn Ht. unfold idle. rewrite Hn, Ht. done. Qed.

(** A write to an address where a read is blocked is matched with the
    oldest one, and returns at once. *)
Lemma commonWrite_matches c w data dest q rs ws r :
  idle c w →
  Network.udp (network w) !! dest = Some (mk (q :: rs) ws) →
  reads (memory w) !! q = Some r → networkReadUDP.ack r = false →
  let p := fresh (dom (writes (memory w))) in
  let wreq := write_request c data dest in
  UDPConn.commonWrite c w data dest =
    [Returns (mkWorld (Network.set_udp (<[dest := mk rs ws]>
                                          (Network.udp (network w))) (network w))
                (set_read q (matched_read r wreq)
                   (set_write p (networkWriteUDP.set_ack true wreq)
                      (set_write p wreq (memory w))))
                (now w))
             (Z.of_nat (length data), None)].
Proof.
  intros Hidle Ha Hr Hack p wreq.
  rewrite commonWrite_idle by done. cbv zeta. fold p wreq.
  rewrite (onWriteUDP_match _ _ p wreq (mk (q :: rs) ws) q rs r);
    [| |done|done| |done..].
  2:{ simpl. apply lookup_insert_eq. }
  2:{ done. }
  rewrite (commonWrite_ack_idle c _ _ p (networkWriteUDP.set_ack true wreq)).
  - done.
  - by eapply idle_same.
  - simpl. apply lookup_insert_eq.
Qed.

(** X16. The round trip with the read first: on idle unconnected conns,
    [ReadFrom] at an address where nothing is parked waits; the [WriteTo]
    of another conn to that address then returns [len(data)] at once,
    without waiting, and the reader is released with the datagram: the
    count and the bytes of [copy], and [LocalAddr] of the writer as the
    sender.  The queues of the address are empty afterwards. *)
Theorem read_then_write_round_trip
    (w : World) (cA cB : UDPConn.t) (P buf : bytes) :
  idle cA w → idle cB w →
  netip.IsValid (UDPConn.peerAddr cA) = false →
  netip.IsValid (UDPConn.peerAddr cB) = false →
  Network.udp (network w) !! UDPConn.localAddr cB = Some (mk [] []) →
  ∃ pr w1 w2,
    UDPConn.ReadFrom cB w buf = [Waits w1 pr] ∧
    UDPConn.WriteTo cA w1 P (Some (UDPConn.localAddr cB)) =
      [Returns w2 (Z.of_nat (length P), None)] ∧
    UDPConn.ReadFrom_result <$> UDPConn.commonRead_ack cB w2 pr =
      [Returns w2 ((copy buf P).1, ((copy buf P).2, UDPConn.LocalAddr cA, None))] ∧
    Network.udp (network w2) !! UDPConn.localAddr cB = Some (mk [] []).
Proof.
  intros HiA HiB HpA HpB HB.
  pose proof (commonRead_parks cB w buf [] HiB HB) as Hread. cbv zeta in Hread.
  set (pr := fresh (dom (reads (memory w)))) in *.
  set (w1 := mkWorld _ _ _) in Hread.
  assert (idle cA w1) as HiA1 by by eapply idle_same.
  pose proof (commonWrite_matches cA w1 P (UDPConn.localAddr cB) pr [] []
                (read_request cB buf) HiA1) as Hwrite.
  cbv zeta in Hwrite.
  set (w2 := mkWorld _ _ _) in Hwrite.
  exists pr, w1, w2. split; [|split; [|split]].
  - unfold UDPConn.ReadFrom. by rewrite HpB, Hread.
  - unfold UDPConn.WriteTo. rewrite HpA. apply Hwrite; [|by apply lookup_insert_eq|done].
    simpl. apply lookup_insert_eq.
  - rewrite (commonRead_ack_idle cB w2 pr
               (matched_read (read_request cB buf)
                  (write_request cA P (UDPConn.localAddr cB)))).
    + done.
    + by eapply idle_same.
    + simpl. apply lookup_insert_eq.
  - simpl. apply lookup_insert_eq.
Qed.

Lemma read_then_write_round_trip_witness :
  ∃ pr w1 w2,
    UDPConn.ReadFrom (new_conn addrB netip.zero) worldAB (zeroes 8) = [Waits w1 pr] ∧
    UDPConn.WriteTo (new_conn addrA netip.zero) w1 hello
      (Some (UDPConn.localAddr (new_conn addrB netip.zero))) =
      [Returns w2 (Z.of_nat (length hello), None)] ∧
    UDPConn.ReadFrom_result <$>
      UDPConn.commonRead_ack (new_conn addrB netip.zero) w2 pr =
      [Returns w2 ((copy (zeroes 8) hello).1,
                   ((copy (zeroes 8) hello).2,
                    UDPConn.LocalAddr (new_conn addrA netip.zero), None))] ∧
    Network.udp (network w2) !! UDPConn.localAddr (new_conn addrB netip.zero)
      = Some (mk [] []).
Proof.
  apply (read_then_write_round_trip worldAB (new_conn addrA netip.zero)
           (new_conn addrB netip.zero) hello (zeroes 8)).
  - refine (bool_decide_unpack _ _). vm_compute. exact I.
  - refine (bool_decide_unpack _ _). vm_compute. exact I.
  - reflexivity.
  - reflexivity.
  - vm_compute. reflexivity.
Defined.

(** X17. A [Read] that is blocked on a connected conn and the [Write] of
    a conn that is connected to it: the [Write] returns [len(data)] at
    once.  When the writer is the peer of the reader, the [Read] is
    released with the count of the datagram; when it is not, the [Read]
    discards the datagram, which is already in its buffer, and blocks
    again on a new request. *)
Theorem blocked_Read_takes_the_datagram_of_the_peer_only
    (w : World) (cA cB : UDPConn.t) (P buf : bytes) (fuel : nat) :
  idle cA w → idle cB w →
  netip.IsValid (UDPConn.peerAddr cB) = true →
  UDPConn.peerAddr cA = UDPConn.localAddr cB →
  netip.IsValid (UDPConn.localAddr cB) = true →
  Network.udp (network w) !! UDPConn.localAddr cB = Some (mk [] []) →
  ∃ pr w1 w2,
    UDPConn.Read (S fuel) cB w buf = [Waits w1 pr] ∧
    UDPConn.Write cA w1 P = [Returns w2 (Z.of_nat (length P), None)] ∧
    (UDPConn.localAddr cA = UDPConn.peerAddr cB →
       UDPConn.Read_resume fuel cB w2 pr =
         [Returns w2 ((copy buf P).1, ((copy buf P).2, None))]) ∧
    (UDPConn.localAddr cA ≠ UDPConn.peerAddr cB →
       ∃ w3 p',
         UDPConn.Read_resume (S fuel) cB w2 pr = [Waits w3 p'] ∧
         p' ≠ pr ∧
         reads (memory w3) !! p' = Some (read_request cB (copy buf P).1) ∧
         Network.udp (network w3) !! UDPConn.localAddr cB = Some (mk [p'] [])).
Proof.
  intros HiA HiB HpB HpA HvB HB.
  pose proof (commonRead_parks cB w buf [] HiB HB) as Hread. cbv zeta in Hread.
  set (pr := fresh (dom (reads (memory w)))) in *.
  set (w1 := mkWorld _ _ _) in Hread.
  assert (idle cA w1) as HiA1 by by eapply idle_same.
  pose proof (commonWrite_matches cA w1 P (UDPConn.localAddr cB) pr [] []
                (read_request cB buf) HiA1) as Hwrite.
  cbv zeta in Hwrite.
  set (w2 := mkWorld _ _ _) in Hwrite.
  assert (idle cB w2) as HiB2 by by eapply idle_same.
  assert (UDPConn.commonRead_ack cB w2 pr =
            [Returns w2 ((copy buf P).1,
                         ((copy buf P).2, UDPConn.localAddr cA, None))]) as Hack.
  { rewrite (commonRead_ack_idle cB w2 pr
               (matched_read (read_request cB buf)
                  (write_request cA P (UDPConn.localAddr cB)))); [done|done|].
    simpl. apply lookup_insert_eq. }
  exists pr, w1, w2. split; [|split; [|split]].
  - unfold UDPConn.Read. rewrite HpB. simpl. by rewrite Hread.
  - unfold UDPConn.Write. rewrite HpA, HvB. simpl.
    apply Hwrite; [|by apply lookup_insert_eq|done].
    simpl. apply lookup_insert_eq.
  - intros Hpeer. unfold UDPConn.Read_resume. rewrite Hack. simpl.
    rewrite decide_False by (intros Hne; by apply Hne). done.
  - intros Hpeer.
    assert (Network.udp (network w2) !! UDPConn.localAddr cB = Some (mk [] []))
      as HB2 by (simpl; apply lookup_insert_eq).
    pose proof (commonRead_parks cB w2 (copy buf P).1 [] HiB2 HB2) as Hread2.
    cbv zeta in Hread2.
    set (p' := fresh (dom (reads (memory w2)))) in *.
    set (w3 := mkWorld _ _ _) in Hread2.
    exists w3, p'. split; [|split; [|split]].
    + unfold UDPConn.Read_resume. rewrite Hack, bind_singleton.
      cbv beta iota delta [UDPConn.Read_next].
      rewrite decide_True by done.
      change (UDPConn.Read_loop (S fuel) cB w2 (copy buf P).1)
        with (o ← UDPConn.commonRead cB w2 (copy buf P).1;
              UDPConn.Read_next cB (UDPConn.Read_loop fuel cB) o).
      rewrite Hread2, bind_singleton. done.
    + intros Heq. pose proof (fresh_read_None (memory w2)) as Hf.
      fold p' in Hf. rewrite Heq in Hf. simpl in Hf.
      by rewrite lookup_insert_eq in Hf.
    + simpl. apply lookup_insert_eq.
    + simpl. apply lookup_insert_eq.
Qed.

(** The conn of [addrB] is connected to [addrA]; the conn of [addrA] is
    connected to [addrB] and writes [hello]. *)
Lemma blocked_Read_takes_the_datagram_of_the_peer_only_witness :
  ∃ pr w1 w2,
    UDPConn.Read 2 (new_conn addrB addrA) worldAB (zeroes 8) = [Waits w1 pr] ∧
    UDPConn.Write (new_conn addrA addrB) w1 hello =
      [Returns w2 (Z.of_nat (length hello), None)] ∧
    (UDPConn.localAddr (new_conn addrA addrB) = UDPConn.peerAddr (new_conn addrB addrA) →
       UDPConn.Read_resume 1 (new_conn addrB addrA) w2 pr =
         [Returns w2 ((copy (zeroes 8) hello).1, ((copy (zeroes 8) hello).2, None))]) ∧
    (UDPConn.localAddr (new_conn addrA addrB) ≠ UDPConn.peerAddr (new_conn addrB addrA) →
       ∃ w3 p',
         UDPConn.Read_resume 2 (new_conn addrB addrA) w2 pr = [Waits w3 p'] ∧
         p' ≠ pr ∧
         reads (memory w3) !! p' =
           Some (read_request (new_conn addrB addrA) (copy (zeroes 8) hello).1) ∧
         Network.udp (network w3) !! UDPConn.localAddr (new_conn addrB addrA)
           = Some (mk [p'] [])).
Proof.
  apply (blocked_Read_takes_the_datagram_of_the_peer_only worldAB
           (new_conn addrA addrB) (new_conn addrB addrA) hello (zeroes 8) 1).
  - refine (bool_decide_unpack _ _). vm_compute. exact I.
  - refine (bool_decide_unpack _ _). vm_compute. exact I.
  - reflexivity.
  - reflexivity.
  - reflexivity.
  - vm_compute. reflexivity.
Defined.

(** ** Datagrams that are lost *)

(** X18. A read that times out leaves its request in the queue of the
    actor, and the request takes the next datagram: after a [ReadFrom]
    that waited has failed with [DeadlineExceeded], the next [WriteTo] to
    the address returns [len(data)] and no error, its datagram is copied
    into the buffer of the read that has given up, and a new [ReadFrom] on
    the conn, the deadline cleared, waits: the datagram is lost. *)
Theorem timed_out_read_takes_the_next_datagram
    (w : World) (c cA : UDPConn.t) (P buf buf2 : bytes) (t : Z) :
  idle c w → idle cA (at_time t w) →
  netip.IsValid (UDPConn.peerAddr c) = false →
  netip.IsValid (UDPConn.peerAddr cA) = false →
  pipeDeadline.wait (UDPConn.readDeadline c) t = true →
  Network.udp (network w) !! UDPConn.localAddr c = Some (mk [] []) →
  ∃ p w1 w2 c' w3 p',
    UDPConn.ReadFrom c w buf = [Waits w1 p] ∧
    UDPConn.ReadFrom_result <$> UDPConn.commonRead_ack c (at_time t w1) p =
      [Returns (at_time t w1) (buf, (0, None, Some ErrDeadlineExceeded))] ∧
    Network.udp (network w1) !! UDPConn.localAddr c = Some (mk [p] []) ∧
    UDPConn.WriteTo cA (at_time t w1) P (Some (UDPConn.localAddr c)) =
      [Returns w2 (Z.of_nat (length P), None)] ∧
    reads (memory w2) !! p =
      Some (matched_read (read_request c buf)
              (write_request cA P (UDPConn.localAddr c))) ∧
    UDPConn.SetReadDeadline c None = (c', None) ∧
    UDPConn.ReadFrom c' w2 buf2 = [Waits w3 p'] ∧
    p' ≠ p.
Proof.
  intros Hi HiA Hp HpA Hd Ha. pose proof Hi as (Hc & Hn & _).
  pose proof (commonRead_parks c w buf [] Hi Ha) as Hread. cbv zeta in Hread.
  set (p := fresh (dom (reads (memory w)))) in *.
  set (w1 := mkWorld _ _ _) in Hread.
  assert (idle cA (at_time t w1)) as HiA1 by by eapply idle_same.
  pose proof (commonWrite_matches cA (at_time t w1) P (UDPConn.localAddr c) p [] []
                (read_request c buf) HiA1) as Hwrite.
  cbv zeta in Hwrite.
  set (w2 := mkWorld _ _ _) in Hwrite.
  set (c' := UDPConn.set_readDeadline (pipeDeadline.set (UDPConn.readDeadline c) None) c).
  assert (idle c' w2) as Hi2 by (split; [done|by split]).
  assert (Network.udp (network w2) !! UDPConn.localAddr c' = Some (mk [] []))
    as Ha2 by (simpl; apply lookup_insert_eq).
  pose proof (commonRead_parks c' w2 buf2 [] Hi2 Ha2) as Hread2.
  cbv zeta in Hread2.
  set (p' := fresh (dom (reads (memory w2)))) in *.
  set (w3 := mkWorld _ _ _) in Hread2.
  exists p, w1, w2, c', w3, p'. repeat split.
  - unfold UDPConn.ReadFrom. by rewrite Hp, Hread.
  - unfold UDPConn.commonRead_ack. simpl. rewrite lookup_insert_eq.
    unfold select_or_wait, select. simpl. by rewrite Hc, Hn, Hd.
  - simpl. apply lookup_insert_eq.
  - unfold UDPConn.WriteTo. rewrite HpA.
    apply Hwrite; [|by apply lookup_insert_eq|done].
    simpl. apply lookup_insert_eq.
  - simpl. apply lookup_insert_eq.
  - unfold UDPConn.SetReadDeadline. by rewrite Hc.
  - unfold UDPConn.ReadFrom. simpl. by rewrite Hp, Hread2.
  - intros Heq. pose proof (fresh_read_None (memory w2)) as Hf.
    fold p' in Hf. rewrite Heq in Hf. simpl in Hf.
    by rewrite lookup_insert_eq in Hf.
Qed.

(** The conn of [addrB] reads with a deadline at the time 10; [addrA]
    writes [hello] at the time 12. *)
Lemma timed_out_read_takes_the_next_datagram_witness :
  ∃ p w1 w2 c' w3 p',
    UDPConn.ReadFrom timed_reader worldAB (zeroes 8) = [Waits w1 p] ∧
    UDPConn.ReadFrom_result <$> UDPConn.commonRead_ack timed_reader (at_time 12 w1) p =
      [Returns (at_time 12 w1) (zeroes 8, (0, None, Some ErrDeadlineExceeded))] ∧
    Network.udp (network w1) !! UDPConn.localAddr timed_reader = Some (mk [p] []) ∧
    UDPConn.WriteTo (new_conn addrA netip.zero) (at_time 12 w1) hello
      (Some (UDPConn.localAddr timed_reader)) =
      [Returns w2 (Z.of_nat (length hello), None)] ∧
    reads (memory w2) !! p =
      Some (matched_read (read_request timed_reader (zeroes 8))
              (write_request (new_conn addrA netip.zero) hello
                 (UDPConn.localAddr timed_reader))) ∧
    UDPConn.SetReadDeadline timed_reader None = (c', None) ∧
    UDPConn.ReadFrom c' w2 (zeroes 3) = [Waits w3 p'] ∧
    p' ≠ p.
Proof.
  apply (timed_out_read_takes_the_next_datagram worldAB timed_reader
           (new_conn addrA netip.zero) hello (zeroes 8) (zeroes 3) 12).
  - refine (bool_decide_unpack _ _). vm_compute. exact I.
  - refine (bool_decide_unpack _ _). vm_compute. exact I.
  - reflexivity.
  - reflexivity.
  - reflexivity.
  - vm_compute. reflexivity.
Defined.

Lemma elem_of_select {X : Type} (cases : list (bool * list X)) (xs : list X) x :
  (true, xs) ∈ cases → x ∈ xs → x ∈ select cases.
Proof.
  intros Hcase Hx. unfold select.
  induction cases as [|[b ys] cases IH]; [by apply elem_of_nil in Hcase|].
  simpl. apply elem_of_app.
  apply elem_of_cons in Hcase as [Heq | Hcase].
  - left. by simplify_eq.
  - right. by apply IH.
Qed.

Lemma elem_of_select_or_wait {R A : Type} (w : World) (req : R)
    (cases : list (bool * list (outcome R A))) o :
  o ∈ select cases → o ∈ select_or_wait w req cases.
Proof.
  unfold select_or_wait. destruct (select cases); [|done].
  intros H. by apply elem_of_nil in H.
Qed.

(** X19. A read whose deadline has fired can still take a datagram: its
    first [select] has the send of the request among its ready cases.
    When a datagram is parked at the address, one of the outcomes of the
    read is the failure with [DeadlineExceeded] in a world where the
    datagram has left the queue, its writer has been acknowledged and its
    bytes are in the buffer of the read. *)
Theorem expired_read_can_take_a_datagram
    (c : UDPConn.t) (w : World) (buf : bytes)
    (rs : list ptr) (d : ptr) (rest : list ptr) (wd : networkWriteUDP.t) :
  UDPConn.closed c = false →
  Network.closed (network w) = false →
  pipeDeadline.wait (UDPConn.readDeadline c) (now w) = true →
  parked_ok (network w) (memory w) →
  Network.udp (network w) !! UDPConn.localAddr c = Some (mk rs (d :: rest)) →
  writes (memory w) !! d = Some wd →
  ∃ w1,
    Returns w1 ((copy buf (networkWriteUDP.payload wd)).1,
                (0, netip.zero, Some ErrDeadlineExceeded))
      ∈ UDPConn.commonRead c w buf ∧
    Network.udp (network w1) !! UDPConn.localAddr c = Some (mk rs rest) ∧
    writes (memory w1) !! d = Some (networkWriteUDP.set_ack true wd).
Proof.
  intros Hc Hn Hd Hok Ha Hwd.
  set (p := fresh (dom (reads (memory w)))).
  set (req := networkReadUDP.mk false buf 0 None (UDPConn.localAddr c) netip.zero).
  destruct (parked_ok_write_addr _ _ _ _ d wd Hok Ha) as [_ Hack];
    [left|done|].
  assert (Network.onReadUDP (network w) (set_read p req (memory w)) p =
            Some (Network.set_udp (<[UDPConn.localAddr c := mk rs rest]>
                                     (Network.udp (network w))) (network w),
                  set_read p (matched_read req wd)
                    (set_write d (networkWriteUDP.set_ack true wd)
                       (set_read p req (memory w))))) as Hstep.
  { apply (onReadUDP_match _ _ p req (mk rs (d :: rest)) d rest wd); try done.
    simpl. apply lookup_insert_eq. }
  eexists. split; [|split].
  - unfold UDPConn.commonRead.
    eapply elem_of_select.
    + do 3 right. rewrite Hn. left.
    + cbv zeta. fold p req. rewrite Hstep.
      unfold UDPConn.commonRead_ack.
      cbn [memory reads set_read]. rewrite lookup_insert_eq.
      apply elem_of_select_or_wait. eapply elem_of_select.
      * do 2 right. cbn [now]. rewrite Hd. left.
      * left.
  - simpl. apply lookup_insert_eq.
  - simpl. apply lookup_insert_eq.
Qed.

(** The conn of [addrB] with an expired deadline reads in [read_world],
    where two datagrams are parked. *)
Lemma expired_read_can_take_a_datagram_witness :
  ∃ w1,
    Returns w1 ((copy (zeroes 8) (networkWriteUDP.payload fifo_w2)).1,
                (0, netip.zero, Some ErrDeadlineExceeded))
      ∈ UDPConn.commonRead
          (UDPConn.mk false addrB false netip.zero
             (pipeDeadline.mk (Some (-5))) pipeDeadline.makePipeDeadline)
          read_world (zeroes 8) ∧
    Network.udp (network w1) !! addrB = Some (mk [] [2%nat]) ∧
    writes (memory w1) !! 1%nat = Some (networkWriteUDP.set_ack true fifo_w2).
Proof.
  apply (expired_read_can_take_a_datagram
           (UDPConn.mk false addrB false netip.zero
              (pipeDeadline.mk (Some (-5))) pipeDeadline.makePipeDeadline)
           read_world (zeroes 8) [] 1%nat [2%nat] fifo_w2).
  - reflexivity.
  - reflexivity.
  - reflexivity.
  - refine (bool_decide_unpack _ _). vm_compute. exact I.
  - vm_compute. reflexivity.
  - vm_compute. reflexivity.
Defined.

(** ** The order of the blocked reads *)

(** Requests that are sent once arrive well formed. *)
Lemma sent_once_arrivals_ok msgs : ∀ n m,
  parked_ok n m → sent_once n m msgs → arrivals_ok n m msgs.
Proof.
  induction msgs as [|msg msgs IH]; intros n m Hok Hsent; [done|].
  pose proof Hsent as (_ & _ & Harr).
  apply list.Forall_cons in Harr as [Harr _].
  destruct (loop_case_no_panic _ _ _ Hok Harr) as [[n1 m1] Hstep].
  simpl. rewrite Hstep. split; [done|].
  apply IH.
  - by eapply loop_case_parked_ok.
  - by eapply sent_once_cons.
Qed.

(** X20. The reads that are blocked at an address are served in the order
    of their arrival.  With the address bound and nothing pending, let
    the reads [q1] then [q2] arrive for it, then the writes [p1] then
    [p2], with any traffic about other addresses in between, every
    request sent once: the run ends, [q1] has the payload and the source
    of [p1], [q2] those of [p2], both writes are acknowledged and the
    queues of the address are empty. *)
Theorem reads_match_in_arrival_order
    (n : Network.t) (m : Memory) (a : AddrPort) (q1 q2 p1 p2 : ptr)
    (r1 r2 : networkReadUDP.t) (w1 w2 : networkWriteUDP.t)
    (xs ys zs : list message) :
  Network.closed n = false →
  parked_ok n m →
  Network.udp n !! a = Some (mk [] []) →
  reads m !! q1 = Some r1 → reads m !! q2 = Some r2 →
  networkReadUDP.localAddr r1 = a → networkReadUDP.localAddr r2 = a →
  writes m !! p1 = Some w1 → writes m !! p2 = Some w2 →
  networkWriteUDP.destAddr w1 = a → networkWriteUDP.destAddr w2 = a →
  Forall (elsewhere m a) xs → Forall (elsewhere m a) ys →
  Forall (elsewhere m a) zs →
  sent_once n m
    (readUDP q1 :: xs ++ readUDP q2 :: ys ++ writeUDP p1 :: zs ++ [writeUDP p2]) →
  ∃ n' m',
    loop n m
      (readUDP q1 :: xs ++ readUDP q2 :: ys ++ writeUDP p1 :: zs ++ [writeUDP p2])
    = Some (n', m') ∧
    Network.udp n' !! a = Some (mk [] []) ∧
    reads m' !! q1 = Some (matched_read r1 w1) ∧
    reads m' !! q2 = Some (matched_read r2 w2) ∧
    writes m' !! p1 = Some (networkWriteUDP.set_ack true w1) ∧
    writes m' !! p2 = Some (networkWriteUDP.set_ack true w2).
Proof.
  intros Hopen Hok Ha Hr1 Hr2 Hl1 Hl2 Hw1 Hw2 Hd1 Hd2 Hxs Hys Hzs Hsent.
  pose proof (sent_once_arrivals_ok _ _ _ Hok Hsent) as Harr.
  (* the read q1 parks *)
  destruct (arrivals_ok_cons _ _ _ _ Hok Hopen Harr)
    as ([Hnq1 Hrack1] & n1 & m1 & Hstep1 & Hloop1 & Harr1 & Hok1 & Hopen1 & Hmono1).
  rewrite Hr1 in Hrack1. simpl in Hstep1.
  rewrite (onReadUDP_park n m q1 r1 (mk [] [])) in Hstep1 by (done || congruence).
  injection Hstep1 as En1 <-.
  assert (Network.udp n1 !! a = Some (mk [q1] [])) as Ha1.
  { rewrite <- En1. simpl. rewrite Hl1. apply lookup_insert_eq. }
  (* traffic elsewhere *)
  destruct (loop_elsewhere a xs _ _ _ Hok1 Hopen1 Harr1 Hxs)
    as (n2 & m2 & Hloop2 & Harr2 & Hok2 & Hopen2 & Hudp2 & Hrs2 & Hws2 & Hmono2).
  rewrite Ha1 in Hudp2.
  (* the read q2 parks behind q1 *)
  destruct (arrivals_ok_cons _ _ _ _ Hok2 Hopen2 Harr2)
    as ([Hnq2 Hrack2] & n3 & m3 & Hstep3 & Hloop3 & Harr3 & Hok3 & Hopen3 & Hmono3).
  rewrite (Hrs2 q2 r2 Hr2 Hl2) in Hrack2.
  assert (q1 ≠ q2) as Hq.
  { intros <-. apply Hnq2. exists a, (mk [q1] []). split; [done|]. left. }
  simpl in Hstep3.
  rewrite (onReadUDP_park n2 m2 q2 r2 (mk [q1] [])) in Hstep3
    by (done || congruence || by apply Hrs2).
  injection Hstep3 as En3 <-.
  assert (Network.udp n3 !! a = Some (mk [q1; q2] [])) as Ha3.
  { rewrite <- En3. simpl. rewrite Hl2. apply lookup_insert_eq. }
  (* traffic elsewhere *)
  destruct (loop_elsewhere a ys _ _ _ Hok3 Hopen3 Harr3)
    as (n4 & m4 & Hloop4 & Harr4 & Hok4 & Hopen4 & Hudp4 & Hrs4 & Hws4 & Hmono4).
  { eapply list.Forall_impl; [exact Hys|]. intros msg Hmsg.
    by apply Hmono3, Hmono2, Hmono1. }
  rewrite Ha3 in Hudp4.
  (* the write p1 goes to q1 *)
  destruct (arrivals_ok_cons _ _ _ _ Hok4 Hopen4 Harr4)
    as ([Hnp1 Hack1] & n5 & m5 & Hstep5 & Hloop5 & Harr5 & Hok5 & Hopen5 & Hmono5).
  assert (reads m4 !! q1 = Some r1) as Hr1' by (apply Hrs4; [apply Hrs2|]; done).
  assert (writes m4 !! p1 = Some w1) as Hw1' by (apply Hws4; [apply Hws2|]; done).
  assert (reads m4 !! q2 = Some r2) as Hr2' by (apply Hrs4; [apply Hrs2|]; done).
  assert (writes m4 !! p2 = Some w2) as Hw2' by (apply Hws4; [apply Hws2|]; done).
  rewrite Hw1' in Hack1. simpl in Hstep5.
  rewrite (onWriteUDP_match n4 m4 p1 w1 (mk [q1; q2] []) q1 [q2] r1) in Hstep5
    by (done || congruence).
  injection Hstep5 as En5 Em5.
  assert (Network.udp n5 !! a = Some (mk [q2] [])) as Ha5.
  { rewrite <- En5. simpl. rewrite Hd1. apply lookup_insert_eq. }
  assert (reads m5 !! q1 = Some (matched_read r1 w1)) as Hq1
    by (rewrite <- Em5; simpl; apply lookup_insert_eq).
  assert (reads m5 !! q2 = Some r2) as Hq2
    by (rewrite <- Em5; simpl; by rewrite lookup_insert_ne).
  assert (writes m5 !! p1 = Some (networkWriteUDP.set_ack true w1)) as Hp1
    by (rewrite <- Em5; simpl; apply lookup_insert_eq).
  (* traffic elsewhere *)
  destruct (loop_elsewhere a zs _ _ _ Hok5 Hopen5 Harr5)
    as (n6 & m6 & Hloop6 & Harr6 & Hok6 & Hopen6 & Hudp6 & Hrs6 & Hws6 & Hmono6).
  { eapply list.Forall_impl; [exact Hzs|]. intros msg Hmsg.
    by apply Hmono5, Hmono4, Hmono3, Hmono2, Hmono1. }
  rewrite Ha5 in Hudp6.
  (* the write p2 goes to q2 *)
  destruct (arrivals_ok_cons _ _ _ _ Hok6 Hopen6 Harr6)
    as ([Hnp2 Hack2] & n7 & m7 & Hstep7 & Hloop7 & _ & _ & _ & _).
  assert (writes m6 !! p1 = Some (networkWriteUDP.set_ack true w1)) as Hp1'
    by (by apply Hws6).
  assert (p1 ≠ p2) as Hp.
  { intros <-. rewrite Hp1' in Hack2. done. }
  assert (writes m6 !! p2 = Some w2) as Hw2''.
  { apply Hws6; [|done]. rewrite <- Em5. simpl. by rewrite lookup_insert_ne. }
  assert (reads m6 !! q1 = Some (matched_read r1 w1)) as Hq1' by (by apply Hrs6).
  assert (reads m6 !! q2 = Some r2) as Hq2' by (by apply Hrs6).
  rewrite Hw2'' in Hack2. simpl in Hstep7.
  rewrite (onWriteUDP_match n6 m6 p2 w2 (mk [q2] []) q2 [] r2) in Hstep7
    by (done || congruence).
  injection Hstep7 as En7 Em7.
  exists n7, m7. split.
  { rewrite Hloop1, Hloop2, Hloop3, Hloop4, Hloop5, Hloop6, Hloop7. apply loop_nil. }
  split; [rewrite <- En7; simpl; rewrite Hd2; apply lookup_insert_eq|].
  repeat split.
  - rewrite <- Em7. simpl. by rewrite lookup_insert_ne.
  - rewrite <- Em7. simpl. apply lookup_insert_eq.
  - rewrite <- Em7. simpl. by rewrite lookup_insert_ne.
  - rewrite <- Em7. simpl. apply lookup_insert_eq.
Qed.

(** [addrB] is bound and idle.  The read requests [3] (a buffer of 8
    bytes) and [4] (a buffer of 3 bytes) arrive for it, then the write
    requests [1] ([hello], from [addrA]) and [2] ([world], from [addrC]);
    in between, [addrC] is bound, the read request [6] of [addrC] arrives
    and the write request [5] for [addrC] goes to it. *)
Lemma reads_match_in_arrival_order_witness :
  ∃ n' m',
    loop fifo_network fifo_memory
      (readUDP 3%nat :: [newConnUDP fifo_bind] ++
       readUDP 4%nat :: [readUDP 6%nat] ++
       writeUDP 1%nat :: [writeUDP 5%nat] ++ [writeUDP 2%nat]) = Some (n', m') ∧
    Network.udp n' !! addrB = Some (mk [] []) ∧
    reads m' !! 3%nat = Some (matched_read fifo_r1 fifo_w1) ∧
    reads m' !! 4%nat = Some (matched_read fifo_r2 fifo_w2) ∧
    writes m' !! 1%nat = Some (networkWriteUDP.set_ack true fifo_w1) ∧
    writes m' !! 2%nat = Some (networkWriteUDP.set_ack true fifo_w2).
Proof.
  apply (reads_match_in_arrival_order fifo_network fifo_memory addrB
           3%nat 4%nat 1%nat 2%nat fifo_r1 fifo_r2 fifo_w1 fifo_w2
           [newConnUDP fifo_bind] [readUDP 6%nat] [writeUDP 5%nat]);
    try (vm_compute; reflexivity);
    refine (bool_decide_unpack _ _); vm_compute; exact I.
Defined.

(** ** Calls on an idle conn have one outcome *)

(** A write to an address that the actor does not know returns at once. *)
Lemma commonWrite_unbound c w data dest :
  idle c w →
  Network.udp (network w) !! dest = None →
  ∃ w1,
    UDPConn.commonWrite c w data dest =
      [Returns w1 (Z.of_nat (length data), None)] ∧
    network w1 = network w.
Proof.
  intros Hidle Ha. rewrite commonWrite_idle by done. cbv zeta.
  rewrite (onWriteUDP_unbound _ _ _ (write_request c data dest))
    by (done || apply lookup_insert_eq).
  erewrite commonWrite_ack_idle; [|done|apply lookup_insert_eq]. simpl.
  eexists. split; reflexivity.
Qed.

(** X21. [ReadFrom] on an idle unconnected conn, in a well-formed world,
    has one outcome, which the state of the local address decides: with
    no state it fails with [EBADF]; with datagrams parked it returns the
    oldest one and leaves the others; otherwise it waits, its request
    behind the reads that are already blocked. *)
Theorem idle_ReadFrom_has_one_outcome
    (c : UDPConn.t) (w : World) (buf : bytes) :
  idle c w → parked_ok (network w) (memory w) →
  netip.IsValid (UDPConn.peerAddr c) = false →
  ∃ w1,
    match Network.udp (network w) !! UDPConn.localAddr c with
    | None =>
        UDPConn.ReadFrom c w buf =
          [Returns w1 (buf, (0, None, Some (Errno syscall.EBADF)))] ∧
        network w1 = network w
    | Some st =>
        match blockedWrites st with
        | [] =>
            ∃ p, UDPConn.ReadFrom c w buf = [Waits w1 p] ∧
                 Network.udp (network w1) !! UDPConn.localAddr c =
                   Some (mk (blockedReads st ++ [p]) [])
        | d :: rest =>
            ∃ wd, writes (memory w) !! d = Some wd ∧
                  UDPConn.ReadFrom c w buf =
                    [Returns w1 ((copy buf (networkWriteUDP.payload wd)).1,
                                 ((copy buf (networkWriteUDP.payload wd)).2,
                                  Some (networkWriteUDP.sourceAddr wd), None))] ∧
                  Network.udp (network w1) !! UDPConn.localAddr c =
                    Some (mk (blockedReads st) rest)
        end
    end.
Proof.
  intros Hidle Hok Hp. unfold UDPConn.ReadFrom. rewrite Hp.
  destruct (Network.udp (network w) !! UDPConn.localAddr c) as [[rs ws]|] eqn:Ha.
  - destruct ws as [|d rest]; simpl.
    + pose proof (commonRead_parks c w buf rs Hidle Ha) as Hread.
      cbv zeta in Hread. rewrite Hread.
      eexists. eexists. split; [reflexivity|]. simpl. apply lookup_insert_eq.
    + destruct (parked_ok_write_alloc _ _ _ _ d Hok Ha) as (wd & Hwd & _); [left|].
      destruct (commonRead_takes_oldest c w buf rs d rest wd Hidle Hok Ha Hwd)
        as (w1 & Hread & _ & _ & Ha1 & _).
      exists w1, wd. rewrite Hread. done.
  - destruct (commonRead_unbound c w buf Hidle Ha) as (w1 & Hread & Hn).
    exists w1. rewrite Hread. done.
Qed.

(** Two datagrams are parked at [addrB] in [read_world]. *)
Lemma idle_ReadFrom_has_one_outcome_witness :
  ∃ w1,
    match Network.udp (network read_world)
            !! UDPConn.localAddr (new_conn addrB netip.zero) with
    | None =>
        UDPConn.ReadFrom (new_conn addrB netip.zero) read_world (zeroes 8) =
          [Returns w1 (zeroes 8, (0, None, Some (Errno syscall.EBADF)))] ∧
        network w1 = network read_world
    | Some st =>
        match blockedWrites st with
        | [] =>
            ∃ p, UDPConn.ReadFrom (new_conn addrB netip.zero) read_world (zeroes 8)
                   = [Waits w1 p] ∧
                 Network.udp (network w1)
                   !! UDPConn.localAddr (new_conn addrB netip.zero) =
                   Some (mk (blockedReads st ++ [p]) [])
        | d :: rest =>
            ∃ wd, writes (memory read_world) !! d = Some wd ∧
                  UDPConn.ReadFrom (new_conn addrB netip.zero) read_world (zeroes 8) =
                    [Returns w1 ((copy (zeroes 8) (networkWriteUDP.payload wd)).1,
                                 ((copy (zeroes 8) (networkWriteUDP.payload wd)).2,
                                  Some (networkWriteUDP.sourceAddr wd), None))] ∧
                  Network.udp (network w1)
                    !! UDPConn.localAddr (new_conn addrB netip.zero) =
                    Some (mk (blockedReads st) rest)
        end
    end.
Proof.
  apply (idle_ReadFrom_has_one_outcome (new_conn addrB netip.zero) read_world
           (zeroes 8)).
  - refine (bool_decide_unpack _ _). vm_compute. exact I.
  - refine (bool_decide_unpack _ _). vm_compute. exact I.
  - reflexivity.
Defined.

(** X22. [WriteTo] on an idle unconnected conn, in a well-formed world,
    has one outcome, which the state of the destination decides: with no
    state, and with a read blocked there, it returns [len(data)] at once,
    and in the second case the oldest blocked read has the datagram;
    otherwise it waits, its request behind the writes that are already
    parked. *)
Theorem idle_WriteTo_has_one_outcome
    (c : UDPConn.t) (w : World) (data : bytes) (dest : AddrPort) :
  idle c w → parked_ok (network w) (memory w) →
  netip.IsValid (UDPConn.peerAddr c) = false →
  ∃ w1,
    match Network.udp (network w) !! dest with
    | None =>
        UDPConn.WriteTo c w data (Some dest) =
          [Returns w1 (Z.of_nat (length data), None)] ∧
        network w1 = network w
    | Some st =>
        match blockedReads st with
        | [] =>
            ∃ p, UDPConn.WriteTo c w data (Some dest) = [Waits w1 p] ∧
                 Network.udp (network w1) !! dest =
                   Some (mk [] (blockedWrites st ++ [p]))
        | q :: rs =>
            ∃ r, reads (memory w) !! q = Some r ∧
                 UDPConn.WriteTo c w data (Some dest) =
                   [Returns w1 (Z.of_nat (length data), None)] ∧
                 reads (memory w1) !! q =
                   Some (matched_read r (write_request c data dest)) ∧
                 Network.udp (network w1) !! dest = Some (mk rs (blockedWrites st))
        end
    end.
Proof.
  intros Hidle Hok Hp. unfold UDPConn.WriteTo. rewrite Hp.
  destruct (Network.udp (network w) !! dest) as [[rs ws]|] eqn:Ha.
  - destruct rs as [|q rs]; simpl.
    + pose proof (commonWrite_parks c w data dest ws Hidle Ha) as Hwrite.
      cbv zeta in Hwrite. rewrite Hwrite.
      eexists. eexists. split; [reflexivity|]. simpl. apply lookup_insert_eq.
    + destruct (parked_ok_read_alloc _ _ _ _ q Hok Ha) as (r & Hr & _ & Hack);
        [left|].
      pose proof (commonWrite_matches c w data dest q rs ws r Hidle Ha Hr Hack)
        as Hwrite.
      cbv zeta in Hwrite. rewrite Hwrite.
      eexists. exists r. split; [done|]. split; [reflexivity|].
      split; simpl; apply lookup_insert_eq.
  - destruct (commonWrite_unbound c w data dest Hidle Ha) as (w1 & Hwrite & Hn).
    exists w1. rewrite Hwrite. done.
Qed.

(** [addrB] is bound in [worldAB] and nothing is blocked there. *)
Lemma idle_WriteTo_has_one_outcome_witness :
  ∃ w1,
    match Network.udp (network worldAB) !! addrB with
    | None =>
        UDPConn.WriteTo (new_conn addrA netip.zero) worldAB hello (Some addrB) =
          [Returns w1 (Z.of_nat (length hello), None)] ∧
        network w1 = network worldAB
    | Some st =>
        match blockedReads st with
        | [] =>
            ∃ p, UDPConn.WriteTo (new_conn addrA netip.zero) worldAB hello
                   (Some addrB) = [Waits w1 p] ∧
                 Network.udp (network w1) !! addrB =
                   Some (mk [] (blockedWrites st ++ [p]))
        | q :: rs =>
            ∃ r, reads (memory worldAB) !! q = Some r ∧
                 UDPConn.WriteTo (new_conn addrA netip.zero) worldAB hello
                   (Some addrB) =
                   [Returns w1 (Z.of_nat (length hello), None)] ∧
                 reads (memory w1) !! q =
                   Some (matched_read r
                           (write_request (new_conn addrA netip.zero) hello addrB)) ∧
                 Network.udp (network w1) !! addrB = Some (mk rs (blockedWrites st))
        end
    end.
Proof.
  apply (idle_WriteTo_has_one_outcome (new_conn addrA netip.zero) worldAB
           hello addrB).
  - refine (bool_decide_unpack _ _). vm_compute. exact I.
  - refine (bool_decide_unpack _ _). vm_compute. exact I.
  - reflexivity.
Defined.

(** ** Where a datagram goes *)

(** X23. The actor hands a datagram only to a read of the address that
    the datagram is for.  In a state whose queues are well formed, a step
    that changes a read request either is the arrival of that request at
    an address without state, which sets [EBADF], or matches it with a
    write request whose destination is the address of the read; that
    write is acknowledged in the same step. *)
Theorem datagram_goes_to_its_destination
    (n : Network.t) (m : Memory) (msg : message)
    (n' : Network.t) (m' : Memory) (q : ptr) (r r' : networkReadUDP.t) :
  parked_ok n m →
  loop_case n m msg = Some (n', m') →
  reads m !! q = Some r →
  reads m' !! q = Some r' →
  r' ≠ r →
  (msg = readUDP q ∧
   Network.udp n !! networkReadUDP.localAddr r = None ∧
   r' = networkReadUDP.set_ack true
          (networkReadUDP.set_err (Some (Errno syscall.EBADF)) r)) ∨
  (∃ p w,
     (msg = readUDP q ∨ msg = writeUDP p) ∧
     writes m !! p = Some w ∧
     networkWriteUDP.destAddr w = networkReadUDP.localAddr r ∧
     r' = matched_read r w ∧
     writes m' !! p = Some (networkWriteUDP.set_ack true w)).
Proof.
  intros Hok Hstep Hr Hr' Hne.
  destruct msg as [req|x|x|req]; simpl in Hstep.
  - destruct (Network.onNewConnUDP n req) as [[? ?]|]; simplify_eq/=.
  - unfold Network.onReadUDP in Hstep.
    destruct (reads m !! x) as [r0|] eqn:Hx; [|done]. simpl in Hstep.
    destruct (Network.udp n !! networkReadUDP.localAddr r0) as [st|] eqn:Ha.
    + destruct (blockedWrites st) as [|d ws] eqn:Hws.
      { simplify_eq/=. }
      simpl in Hstep.
      destruct (Network.finishReadWrite m x d) as [m2|] eqn:Hf; [|done].
      simplify_eq/=.
      destruct (finishReadWrite_inv _ _ _ _ Hf)
        as (r1 & w1 & Hr1 & Hw1 & _ & _ & ->).
      simpl in Hr'.
      destruct (decide (q = x)) as [-> | Hqx].
      * rewrite lookup_insert_eq in Hr'. simplify_eq. right.
        eexists d, _. split; [by left|]. split; [eassumption|].
        split; [|split; [done|simpl; apply lookup_insert_eq]].
        eapply parked_ok_write_addr; [done|done| |done].
        rewrite Hws. left.
      * rewrite lookup_insert_ne in Hr' by done. simplify_eq.
    + simpl in Hstep.
      destruct (close _) as [b|] eqn:Hc; [|done]. simplify_eq/=.
      apply close_Some in Hc as [_ ->].
      destruct (decide (q = x)) as [-> | Hqx].
      * rewrite lookup_insert_eq in Hr'. simplify_eq. by left.
      * rewrite lookup_insert_ne in Hr' by done. simplify_eq.
  - unfold Network.onWriteUDP in Hstep.
    destruct (writes m !! x) as [w0|] eqn:Hx; [|done]. simpl in Hstep.
    destruct (Network.udp n !! networkWriteUDP.destAddr w0) as [st|] eqn:Ha.
    + destruct (blockedReads st) as [|d rs] eqn:Hrs.
      { simplify_eq/=. }
      simpl in Hstep.
      destruct (Network.finishReadWrite m d x) as [m2|] eqn:Hf; [|done].
      simplify_eq/=.
      destruct (finishReadWrite_inv _ _ _ _ Hf)
        as (r1 & w1 & Hr1 & Hw1 & _ & _ & ->).
      simpl in Hr'.
      destruct (decide (q = d)) as [-> | Hqd].
      * rewrite lookup_insert_eq in Hr'. simplify_eq. right.
        eexists x, _. split; [by right|]. split; [eassumption|].
        split; [|split; [done|simpl; apply lookup_insert_eq]].
        symmetry. eapply parked_ok_read_addr; [done|done| |done].
        rewrite Hrs. left.
      * rewrite lookup_insert_ne in Hr' by done. simplify_eq.
    + simpl in Hstep.
      destruct (close _) as [b|] eqn:Hc; [|done]. simplify_eq/=.
  - destruct (Network.onDeleteConnUDP n req) as [[? ?]|]; simplify_eq/=.
Qed.

(** The read request [9] takes the datagram of the write request [7]. *)
Lemma datagram_goes_to_its_destination_witness :
  (readUDP 9%nat = readUDP 9%nat ∧
   Network.udp ex_network !! networkReadUDP.localAddr ex_read = None ∧
   matched_read ex_read ex_write =
     networkReadUDP.set_ack true
       (networkReadUDP.set_err (Some (Errno syscall.EBADF)) ex_read)) ∨
  (∃ p w,
     (readUDP 9%nat = readUDP 9%nat ∨ readUDP 9%nat = writeUDP p) ∧
     writes ex_memory !! p = Some w ∧
     networkWriteUDP.destAddr w = networkReadUDP.localAddr ex_read ∧
     matched_read ex_read ex_write = matched_read ex_read w ∧
     writes done_memory !! p = Some (networkWriteUDP.set_ack true w)).
Proof.
  apply (datagram_goes_to_its_destination ex_network ex_memory (readUDP 9%nat)
           done_network done_memory 9%nat ex_read (matched_read ex_read ex_write)).
  - refine (bool_decide_unpack _ _). vm_compute. exact I.
  - vm_compute. reflexivity.
  - vm_compute. reflexivity.
  - vm_compute. reflexivity.
  - vm_compute. discriminate.
Defined.
